(** * SlotSurgeon: storage layout calculation and upgrade analysis

    A shallow embedding of the three core components of SlotSurgeon
    ([SlotCalculator], [CollisionDetector], [UpgradeAnalyzer]) together with
    the properties their specification states about them.

    Modelling conventions.
    - A TypeScript [number] holding a slot, an offset, a size or a count is
      an integer and is modelled as [Z].  The two places of the source that
      divide (the efficiency figures of the upgrade analyzer) are modelled
      with [Number], which adds the IEEE special values to exact rationals.
    - A JavaScript [Map] is an association list kept in insertion order
      ([JsMap]); a plain object indexed by slot numbers is the same list
      read back in the order [Object.keys] enumerates it.
    - [forEach] loops that [push] to an array are left folds that append.
    - The functions that read a [SlotMapping] are modelled on the data model
      of the specification: [slot], [offset] and [size] are integers.  The
      calculator can leave this data model: its size table is a plain
      object, and for a type named like a member of [Object.prototype] the
      lookup yields that member.  [calculateSlots] is therefore modelled
      with the values the cursor and the fields really take ([Size],
      [Offset]), and [run_mapping] says which of its results are mappings
      of the data model. *)

From Stdlib Require Import ZArith List String Ascii Bool Lia.
From Stdlib Require Import DecimalString QArith Qround.
From Stdlib Require Import Sorted Permutation.
Import ListNotations.

Open Scope string_scope.
Open Scope list_scope.
Open Scope Z_scope.

(* ================================================================= *)
(** ** JavaScript building blocks *)

(** [arr.push(x)] *)
Definition push {A : Type} (arr : list A) (x : A) : list A := arr ++ [x].

(** [xs.forEach(x => body)] / [for (const x of xs) body], threading the
    variables the body assigns through [s]. *)
Definition forEach {A S : Type} (xs : list A) (body : S -> A -> S) (s : S) : S :=
  fold_left body xs s.

(** [s.includes(needle)] *)
Fixpoint includes (s needle : string) : bool :=
  if String.prefix needle s then true
  else match s with
       | EmptyString => false
       | String _ rest => includes rest needle
       end.

(** [`${n}`] for an integer [n]. *)
Definition Number_toString (n : Z) : string :=
  NilZero.string_of_int (Z.to_int n).

(** [Math.max(...xs)] for a non-empty argument list [x :: xs]. *)
Definition Math_max (x : Z) (xs : list Z) : Z := fold_left Z.max xs x.

Section JsMap.
(** [Map<K, V>]: entries in insertion order; setting a key that is present
    replaces its value where it stands. *)
Context {K V : Type} (keq : K -> K -> bool).

Definition JsMap : Type := list (K * V).

Fixpoint map_get (m : JsMap) (k : K) : option V :=
  match m with
  | [] => None
  | (k', v) :: rest => if keq k' k then Some v else map_get rest k
  end.

Definition map_has (m : JsMap) (k : K) : bool :=
  match map_get m k with Some _ => true | None => false end.

Fixpoint map_set (m : JsMap) (k : K) (v : V) : JsMap :=
  match m with
  | [] => [(k, v)]
  | (k', v') :: rest =>
      if keq k' k then (k', v) :: rest else (k', v') :: map_set rest k v
  end.

(** [new Map(entries)] *)
Definition map_of_entries (entries : list (K * V)) : JsMap :=
  forEach entries (fun m e => map_set m (fst e) (snd e)) [].

Definition map_keys (m : JsMap) : list K := map fst m.
Definition map_values (m : JsMap) : list V := map snd m.
End JsMap.

(** [new Set(xs)]: first occurrences, in order. *)
Section JsSet.
Context {A : Type} (aeq : A -> A -> bool).

Definition set_has (s : list A) (x : A) : bool := existsb (aeq x) s.

Definition set_add (s : list A) (x : A) : list A :=
  if set_has s x then s else push s x.

Definition set_of_list (xs : list A) : list A := forEach xs set_add [].
End JsSet.

(* ================================================================= *)
(** ** Data model *)

(** *** [core/parser/types.ts] *)

Inductive Visibility := vis_public | vis_private | vis_internal | vis_external.

Record StateVariable := {
  decl_name : string;
  typeName : string;
  visibility : Visibility;
  isConstant : bool;
  isImmutable : bool;
  initialValue : option string
}.

(** The parser leaves [functions], [events] and [modifiers] empty and the
    calculator never reads them; they are not carried here. *)
Record ContractAST := {
  name : string;
  baseContracts : list string;
  stateVariables : list StateVariable;
  isAbstract : bool;
  isInterface : bool;
  isLibrary : bool
}.

(** *** [types/slot-mapping.ts] *)

Record StorageVariable := {
  vname : string;
  vtype : string;
  slot : Z;
  offset : Z;
  size : Z;
  packed : option bool;
  isStateVariable : bool
}.

Record SlotMapping := {
  contractName : string;
  variables : list StorageVariable;
  totalSlots : Z;
  packedSlots : list Z
}.

(* ================================================================= *)
(** ** [SlotCalculator] *)

Definition sizeMap : list (string * Z) :=
  [ ("bool", 1);
    ("uint8", 1); ("int8", 1);
    ("uint16", 2); ("int16", 2);
    ("uint32", 4); ("int32", 4);
    ("uint64", 8); ("int64", 8);
    ("uint128", 16); ("int128", 16);
    ("uint256", 32); ("int256", 32);
    ("uint", 32); ("int", 32);
    ("address", 20);
    ("bytes1", 1); ("bytes2", 2); ("bytes4", 4); ("bytes8", 8);
    ("bytes16", 16); ("bytes32", 32);
    ("string", 32);
    ("bytes", 32) ].

(** [x || 32] on an optional number: [undefined] and [0] are falsy. *)
Definition or_default (x : option Z) (d : Z) : Z :=
  match x with
  | Some n => if n =? 0 then d else n
  | None => d
  end.

(** *** Values at run time

    [size] and [offset] are declared [number], and in the data model of the
    specification they are integers.  The calculator can put other values
    there.  The size table is a plain object: read under a name it does not
    hold itself but inherits from [Object.prototype], it yields the
    inherited member, a function (for [__proto__] the prototype object).
    [+] with such an operand concatenates strings, and the comparisons of a
    function, of an object or of such a string with a number are all
    false, since each converts to [NaN]. *)

(** The property names a plain object inherits from [Object.prototype]. *)
Definition prototypeKeys : list string :=
  [ "constructor"; "__defineGetter__"; "__defineSetter__"; "hasOwnProperty";
    "__lookupGetter__"; "__lookupSetter__"; "isPrototypeOf";
    "propertyIsEnumerable"; "toString"; "valueOf"; "__proto__";
    "toLocaleString" ].

(** [key in Object.prototype] *)
Definition inherited (key : string) : bool :=
  existsb (String.eqb key) prototypeKeys.

(** What a read of a size table yields: a number of bytes, or the member of
    [Object.prototype] of that name. *)
Inductive Size :=
| Bytes (n : Z)
| Inherited (key : string).

(** A string that [+] has made: the number [n] followed by the text of the
    inherited member [key], and what was appended to it since.  It holds
    the source text of a function (or [[object Object]]) and so is not the
    text of a number. *)
Inductive Text :=
| Started (n : Z) (key : string)
| Extended (t : Text) (s : Size).

(** What the cursor [currentOffset], the field [offset] and a sum of sizes
    hold: a number or such a string. *)
Inductive Offset :=
| At (n : Z)
| Str (t : Text).

(** [a + b] for a cursor or sum [a] and a size [b]. *)
Definition plus (a : Offset) (b : Size) : Offset :=
  match a, b with
  | At x, Bytes y => At (x + y)
  | At x, Inherited key => Str (Started x key)
  | Str t, _ => Str (Extended t b)
  end.

(** [a > n], [a >= n] and [a < n] for a number [n]. *)
Definition greater (a : Offset) (n : Z) : bool :=
  match a with At x => x >? n | Str _ => false end.

Definition at_least (a : Offset) (n : Z) : bool :=
  match a with At x => x >=? n | Str _ => false end.

Definition less (a : Offset) (n : Z) : bool :=
  match a with At x => x <? n | Str _ => false end.

(** [table[key]]: the table's own entry, else the inherited member, else
    [undefined]. *)
Definition read (table : list (string * Z)) (key : string) : option Size :=
  match map_get String.eqb table key with
  | Some n => Some (Bytes n)
  | None => if inherited key then Some (Inherited key) else None
  end.

(** [x || 32]: [undefined] and [0] are falsy, a function or an object is
    truthy. *)
Definition or_32 (x : option Size) : Size :=
  match x with
  | Some (Bytes n) => if n =? 0 then Bytes 32 else Bytes n
  | Some (Inherited key) => Inherited key
  | None => Bytes 32
  end.

Definition getTypeSize (typeName : string) : Size :=
  if includes typeName "[]" then Bytes 32
  else if includes typeName "mapping" then Bytes 32
  else or_32 (read sizeMap typeName).

(** A [StorageVariable] as [calculateSlots] builds it. *)
Record RunVariable := {
  rname : string;
  rtype : string;
  rslot : Z;
  roffset : Offset;
  rsize : Size;
  rpacked : option bool;
  risStateVariable : bool
}.

(** The [SlotMapping] [calculateSlots] returns. *)
Record RunMapping := {
  rcontractName : string;
  rvariables : list RunVariable;
  rtotalSlots : Z;
  rpackedSlots : list Z
}.

(** [variables], [currentSlot] and [currentOffset] of [calculateSlots]. *)
Record RunCursor := {
  rc_variables : list RunVariable;
  rc_slot : Z;
  rc_offset : Offset
}.

Definition run_cursor0 : RunCursor :=
  {| rc_variables := []; rc_slot := 0; rc_offset := At 0 |}.

(** The body of [contract.stateVariables.forEach(variable => ...)]. *)
Definition place (st : RunCursor) (variable : StateVariable) : RunCursor :=
  let size := getTypeSize (typeName variable) in
  let '(currentSlot, currentOffset) :=
    if greater (plus (rc_offset st) size) 32
    then (rc_slot st + 1, At 0)
    else (rc_slot st, rc_offset st) in
  let variables :=
    push (rc_variables st)
      {| rname := decl_name variable;
         rtype := typeName variable;
         rslot := currentSlot;
         roffset := currentOffset;
         rsize := size;
         risStateVariable := true;
         rpacked := Some (greater currentOffset 0 || less (plus currentOffset size) 32) |} in
  let currentOffset := plus currentOffset size in
  if at_least currentOffset 32
  then {| rc_variables := variables; rc_slot := currentSlot + 1; rc_offset := At 0 |}
  else {| rc_variables := variables; rc_slot := currentSlot; rc_offset := currentOffset |}.

(** [slotGroups.set(slot, (slotGroups.get(slot) || 0) + 1)] for every
    variable. *)
Definition countBySlot_run (variables : list RunVariable) : JsMap (K := Z) (V := Z) :=
  forEach variables
    (fun slotGroups variable =>
       map_set Z.eqb slotGroups (rslot variable)
         (or_default (map_get Z.eqb slotGroups (rslot variable)) 0 + 1))
    [].

Definition calculateSlots (contract : ContractAST) : RunMapping :=
  let variables := rc_variables (forEach (stateVariables contract) place run_cursor0) in
  let totalSlots :=
    match map rslot variables with
    | [] => 0
    | s :: rest => Math_max s rest + 1
    end in
  let slotGroups := countBySlot_run variables in
  let packedSlots :=
    map fst (filter (fun entry => snd entry >? 1) slotGroups) in
  {| rcontractName := name contract;
     rvariables := variables;
     rtotalSlots := totalSlots;
     rpackedSlots := packedSlots |}.

(** The size of a type whose name is not inherited: the table's own entry,
    or 32. *)
Definition getTypeSize_plain (typeName : string) : Z :=
  if includes typeName "[]" then 32
  else if includes typeName "mapping" then 32
  else or_default (map_get String.eqb sizeMap typeName) 32.

(** *** The calculator within the data model

    [place_plain] and [calculateSlots_plain] are [place] and
    [calculateSlots] with integers for sizes and offsets.  They say what
    the calculator does for a contract none of whose type names is
    inherited (lemma [calculateSlots_plain_run]); the proofs about such
    contracts go through them. *)

(** The variables the loop assigns, the slot and the offset it has reached. *)
Record Cursor := {
  cur_variables : list StorageVariable;
  currentSlot : Z;
  currentOffset : Z
}.

Definition cursor0 : Cursor :=
  {| cur_variables := []; currentSlot := 0; currentOffset := 0 |}.

Definition place_plain (st : Cursor) (variable : StateVariable) : Cursor :=
  let size := getTypeSize_plain (typeName variable) in
  let '(currentSlot, currentOffset) :=
    if currentOffset st + size >? 32
    then (currentSlot st + 1, 0)
    else (currentSlot st, currentOffset st) in
  let variables :=
    push (cur_variables st)
      {| vname := decl_name variable;
         vtype := typeName variable;
         slot := currentSlot;
         offset := currentOffset;
         size := size;
         isStateVariable := true;
         packed := Some ((currentOffset >? 0) || (currentOffset + size <? 32)) |} in
  let currentOffset := currentOffset + size in
  if currentOffset >=? 32
  then {| cur_variables := variables; currentSlot := currentSlot + 1; currentOffset := 0 |}
  else {| cur_variables := variables; currentSlot := currentSlot; currentOffset := currentOffset |}.

(** [slotGroups.set(slot, (slotGroups.get(slot) || 0) + 1)] for every
    variable. *)
Definition countBySlot (variables : list StorageVariable) : JsMap (K := Z) (V := Z) :=
  forEach variables
    (fun slotGroups variable =>
       map_set Z.eqb slotGroups (slot variable)
         (or_default (map_get Z.eqb slotGroups (slot variable)) 0 + 1))
    [].

Definition calculateSlots_plain (contract : ContractAST) : SlotMapping :=
  let variables := cur_variables (forEach (stateVariables contract) place_plain cursor0) in
  let totalSlots :=
    match map slot variables with
    | [] => 0
    | s :: rest => Math_max s rest + 1
    end in
  let slotGroups := countBySlot variables in
  let packedSlots :=
    map fst (filter (fun entry => snd entry >? 1) slotGroups) in
  {| contractName := name contract;
     variables := variables;
     totalSlots := totalSlots;
     packedSlots := packedSlots |}.

(* ================================================================= *)
(** ** [CollisionDetector] *)

Record Collision := {
  c_slot : Z;
  range : Z * Z;
  c_v1 : StorageVariable;
  c_v2 : StorageVariable;
  reason : string
}.

Record CollisionReport := {
  contract : string;
  collisions : list Collision;
  moved : list StorageVariable;
  added : list StorageVariable;
  removed : list StorageVariable;
  safe : bool
}.

Inductive CollisionType :=
  variable_overlap | inheritance_conflict | proxy_collision | layout_mismatch.

Inductive CollisionSeverity := low | medium | high | critical.

Record CollisionVariable := {
  cv_name : string;
  cv_type : string;
  cv_size : Z;
  cv_offset : Z
}.

Record StorageCollision := {
  id : string;
  sc_type : CollisionType;
  sc_severity : CollisionSeverity;
  sc_slot : Z;
  sc_variables : list CollisionVariable;
  sc_description : string;
  impact : string;
  sc_recommendation : string;
  gasImpact : Z
}.

(** [`${v.name}|${v.type}`] *)
Definition byKey (v : StorageVariable) : string :=
  (vname v ++ "|" ++ vtype v)%string.

(** [new Map(mapping.variables.map(v => [byKey(v), v]))] *)
Definition keyMap (variables : list StorageVariable) : JsMap (K := string) (V := StorageVariable) :=
  map_of_entries String.eqb (map (fun v => (byKey v, v)) variables).

(** A plain object keyed by slot number, entries in creation order. *)
Definition Occupancy : Type := JsMap (K := Z) (V := list StorageVariable).

(** [occ[slot] ?? []] *)
Definition occ_get (occ : Occupancy) (s : Z) : list StorageVariable :=
  match map_get Z.eqb occ s with
  | Some list => list
  | None => []
  end.

Definition occupancy (mapping : SlotMapping) : Occupancy :=
  forEach (variables mapping)
    (fun occ v =>
       let occ := if negb (map_has Z.eqb occ (slot v))
                  then map_set Z.eqb occ (slot v) []
                  else occ in
       map_set Z.eqb occ (slot v) (push (occ_get occ (slot v)) v))
    [].

(** Property keys that are array indices come first in [Object.keys], in
    ascending order; the others follow in creation order. *)
Definition is_array_index (k : Z) : bool := (0 <=? k) && (k <=? 4294967294).

Fixpoint insert_sorted (k : Z) (ks : list Z) : list Z :=
  match ks with
  | [] => [k]
  | k' :: rest => if k <=? k' then k :: ks else k' :: insert_sorted k rest
  end.

Definition sort_ascending (ks : list Z) : list Z := fold_right insert_sorted [] ks.

(** [Object.keys(occ).map(Number)] *)
Definition Object_keys (occ : Occupancy) : list Z :=
  let ks := map_keys occ in
  sort_ascending (filter is_array_index ks)
    ++ filter (fun k => negb (is_array_index k)) ks.

(** The first loop of [compare]: over the entries of [keys1]. *)
Definition classifyOld (keys1 keys2 : JsMap (K := string) (V := StorageVariable))
  : list StorageVariable * list StorageVariable :=
  forEach keys1
    (fun '(moved, removed) '(k, var1) =>
       match map_get String.eqb keys2 k with
       | None => (moved, push removed var1)
       | Some var2 =>
           if negb (slot var2 =? slot var1) || negb (offset var2 =? offset var1)
           then (push moved var2, removed)
           else (moved, removed)
       end)
    ([], []).

(** The second loop of [compare]: over the entries of [keys2]. *)
Definition classifyNew (keys1 keys2 : JsMap (K := string) (V := StorageVariable))
  : list StorageVariable :=
  forEach keys2
    (fun added '(k, var2) =>
       if negb (map_has String.eqb keys1 k) then push added var2 else added)
    [].

(** The body of the innermost loop of [compare]. *)
Definition checkPair (movedKeys : list string) (slot : Z)
    (collisions : list Collision) (a b : StorageVariable) : list Collision :=
  let keyA := byKey a in
  let keyB := byKey b in
  if set_has String.eqb movedKeys keyA || set_has String.eqb movedKeys keyB
  then collisions
  else
    let aStart := offset a in
    let aEnd := offset a + size a in
    let bStart := offset b in
    let bEnd := offset b + size b in
    let hasOverlap := (aStart <? bEnd) && (bStart <? aEnd) in
    if hasOverlap then
      let sameName := String.eqb (vname a) (vname b) in
      let sameType := String.eqb (vtype a) (vtype b) in
      if negb sameName || negb sameType then
        push collisions
          {| c_slot := slot;
             range := (Z.max aStart bStart, Z.min (aEnd - 1) (bEnd - 1));
             c_v1 := a;
             c_v2 := b;
             reason :=
               if negb sameName
               then ("different variables occupy same bytes ("
                       ++ vname a ++ " vs " ++ vname b ++ ")")%string
               else ("same variable has different type ("
                       ++ vtype a ++ " vs " ++ vtype b ++ ")")%string |}
      else collisions
    else collisions.

(** The body of [for (const slot of slots)]. *)
Definition scanSlot (movedKeys : list string) (occ1 occ2 : Occupancy)
    (collisions : list Collision) (slot : Z) : list Collision :=
  let list1 := occ_get occ1 slot in
  let list2 := occ_get occ2 slot in
  forEach list1
    (fun collisions a =>
       forEach list2
         (fun collisions b => checkPair movedKeys slot collisions a b)
         collisions)
    collisions.

Definition compare (v1 v2 : SlotMapping) : CollisionReport :=
  let keys1 := keyMap (variables v1) in
  let keys2 := keyMap (variables v2) in
  let '(moved, removed) := classifyOld keys1 keys2 in
  let added := classifyNew keys1 keys2 in
  let occ1 := occupancy v1 in
  let occ2 := occupancy v2 in
  let slots := set_of_list Z.eqb (Object_keys occ1 ++ Object_keys occ2) in
  let movedKeys := set_of_list String.eqb (map byKey moved) in
  let collisions := forEach slots (scanSlot movedKeys occ1 occ2) [] in
  let unsafe := (0 <? Z.of_nat (List.length moved)) || (0 <? Z.of_nat (List.length collisions)) in
  {| contract := contractName v1;
     collisions := collisions;
     moved := moved;
     added := added;
     removed := removed;
     safe := negb unsafe |}.

Definition groupVariablesBySlot (variables : list StorageVariable)
  : JsMap (K := Z) (V := list StorageVariable) :=
  forEach variables
    (fun groups variable =>
       let groups := if negb (map_has Z.eqb groups (slot variable))
                     then map_set Z.eqb groups (slot variable) []
                     else groups in
       map_set Z.eqb groups (slot variable)
         (push (occ_get groups (slot variable)) variable))
    [].

(** [variables.reduce((sum, v) => sum + v.size, 0)] *)
Definition sumSizes (variables : list StorageVariable) : Z :=
  fold_left (fun sum v => sum + size v) variables 0.

Definition calculateSeverity (variables : list StorageVariable) (totalSize : Z)
  : CollisionSeverity :=
  if totalSize >? 64 then critical
  else if totalSize >? 48 then high
  else if Z.of_nat (List.length variables) >? 3 then medium
  else low.

Definition getImpactDescription (severity : CollisionSeverity) : string :=
  match severity with
  | critical => "Critical storage corruption risk"
  | high => "High risk of data corruption"
  | medium => "Potential storage conflicts"
  | low => "Minor storage inefficiency"
  end.

Definition getRecommendation (variables : list StorageVariable) : string :=
  "Reorganize variables to prevent slot overlap. Consider using smaller data types or packing variables efficiently.".

Definition estimateGasImpact (variables : list StorageVariable) : Z :=
  Z.of_nat (List.length variables) * 20000.

Definition analyzeSlotCollision (slot : Z) (variables : list StorageVariable)
  : option StorageCollision :=
  if Z.of_nat (List.length variables) <=? 1 then None
  else
    let totalSize := sumSizes variables in
    let hasOverlap := totalSize >? 32 in
    if negb hasOverlap then None
    else
      let severity := calculateSeverity variables totalSize in
      let collisionVars :=
        map (fun v => {| cv_name := vname v; cv_type := vtype v;
                         cv_size := size v; cv_offset := offset v |}) variables in
      Some {| id := ("collision_slot_" ++ Number_toString slot)%string;
              sc_type := variable_overlap;
              sc_severity := severity;
              sc_slot := slot;
              sc_variables := collisionVars;
              sc_description :=
                ("Multiple variables overlap in slot " ++ Number_toString slot)%string;
              impact := getImpactDescription severity;
              sc_recommendation := getRecommendation variables;
              gasImpact := estimateGasImpact variables |}.

Definition detect (slotMapping : SlotMapping) : list StorageCollision :=
  let slotGroups := groupVariablesBySlot (variables slotMapping) in
  forEach slotGroups
    (fun collisions '(slot, variables) =>
       if Z.of_nat (List.length variables) >? 1 then
         match analyzeSlotCollision slot variables with
         | Some collision => push collisions collision
         | None => collisions
         end
       else collisions)
    [].

(* ================================================================= *)
(** ** Numbers that come out of a division

    The efficiency figures divide byte counts.  [Number] keeps the IEEE
    special values apart from the finite ones; finite values are exact
    rationals, and every zero divisor in the source is an integer product
    and so a positive zero. *)

Inductive Number := Finite (q : Q) | PosInfinity | NegInfinity | NaN.

Definition num (z : Z) : Number := Finite (inject_Z z).

Definition flip (x : Number) : Number :=
  match x with
  | PosInfinity => NegInfinity
  | NegInfinity => PosInfinity
  | other => other
  end.

(** The infinity [x] scaled by the finite [q]. *)
Definition scale_infinity (x : Number) (q : Q) : Number :=
  if Qle_bool 0 q then x else flip x.

(** [x / y] *)
Definition num_div (x y : Number) : Number :=
  match x, y with
  | NaN, _ | _, NaN => NaN
  | Finite a, Finite b =>
      if Qeq_bool b 0
      then (if Qeq_bool a 0 then NaN
            else if Qle_bool 0 a then PosInfinity else NegInfinity)
      else Finite (a / b)
  | Finite _, _ => Finite 0
  | _, Finite b => scale_infinity x b
  | _, _ => NaN
  end.

(** [x * y] *)
Definition num_mul (x y : Number) : Number :=
  match x, y with
  | NaN, _ | _, NaN => NaN
  | Finite a, Finite b => Finite (a * b)
  | Finite a, _ => if Qeq_bool a 0 then NaN else scale_infinity y a
  | _, Finite b => if Qeq_bool b 0 then NaN else scale_infinity x b
  | PosInfinity, _ => y
  | NegInfinity, _ => flip y
  end.

(** [x - y] *)
Definition num_sub (x y : Number) : Number :=
  match x, y with
  | NaN, _ | _, NaN => NaN
  | Finite a, Finite b => Finite (a - b)
  | Finite _, _ => flip y
  | _, Finite _ => x
  | PosInfinity, NegInfinity => PosInfinity
  | NegInfinity, PosInfinity => NegInfinity
  | _, _ => NaN
  end.

(** [x < y] *)
Definition num_lt (x y : Number) : bool :=
  match x, y with
  | NaN, _ | _, NaN => false
  | Finite a, Finite b => negb (Qle_bool b a)
  | _, NegInfinity => false
  | NegInfinity, _ => true
  | PosInfinity, _ => false
  | Finite _, PosInfinity => true
  end.

(** [Math.round(x)]: the nearest integer, halves upwards. *)
Definition Math_round (x : Number) : Number :=
  match x with
  | Finite q => Finite (inject_Z (Qfloor (q + (1 # 2))))
  | other => other
  end.

Definition is_finite (x : Number) : bool :=
  match x with Finite _ => true | _ => false end.

(** [SlotCalculator.calculatePackingEfficiency], the efficiency figure of
    the calculator. *)
Definition calculatePackingEfficiency (mapping : SlotMapping) : Number :=
  if totalSlots mapping =? 0 then num 100
  else
    let totalBytesUsed := sumSizes (variables mapping) in
    let totalBytesAvailable := totalSlots mapping * 32 in
    num_mul (num_div (num totalBytesUsed) (num totalBytesAvailable)) (num 100).

(* ================================================================= *)
(** ** [UpgradeAnalyzer] *)

Inductive ChangeType :=
  ch_added | ch_removed | ch_moved | ch_typeChanged | ch_collision.

Inductive Severity := sev_safe | sev_warning | sev_critical.

Inductive Level := lvl_safe | lvl_caution | lvl_unsafe | lvl_critical.

Record UpgradeChange := {
  ch_type : ChangeType;
  variable : StorageVariable;
  oldVariable : option StorageVariable;
  severity : Severity;
  description : string;
  recommendation : option string
}.

Record UpgradeCompatibility := {
  score : Z;
  level : Level;
  compat_description : string
}.

Record Summary := {
  sum_totalSlots : Z;
  sum_variables : Z;
  sum_packedSlots : Z
}.

Record StorageGrowth := {
  slotsAdded : Z;
  bytesWasted : Z;
  efficiencyChange : Number
}.

(** The entries of the [recommendations] array.  Each constructor stands
    for one message template of [generateRecommendations] and carries the
    figure the template interpolates. *)
Inductive Recommendation :=
| rec_do_not_deploy (criticalIssues : Z)
| rec_new_contract
| rec_test_thoroughly (warnings : Z)
| rec_efficiency_decreased (percent : Number)
| rec_storage_grew (slots : Z)
| rec_appears_safe.

Record UpgradeAnalysis := {
  ua_contractName : string;
  v1Summary : Summary;
  v2Summary : Summary;
  changes : list UpgradeChange;
  compatibility : UpgradeCompatibility;
  recommendations : list Recommendation;
  collisionReport : CollisionReport;
  storageGrowth : StorageGrowth
}.

Definition quote : string := String (ascii_of_nat 34) EmptyString.

(** [`${oldVar?.slot}`] *)
Definition optional_slot (oldVar : option StorageVariable) : string :=
  match oldVar with
  | Some v => Number_toString (slot v)
  | None => "undefined"
  end.

(** [new Map(mapping.variables.map(v => [v.name, v]))] *)
Definition nameMap (variables : list StorageVariable) : JsMap (K := string) (V := StorageVariable) :=
  map_of_entries String.eqb (map (fun v => (vname v, v)) variables).

Definition severity_eqb (a b : Severity) : bool :=
  match a, b with
  | sev_safe, sev_safe | sev_warning, sev_warning | sev_critical, sev_critical => true
  | _, _ => false
  end.

(** The change pushed for a collision. *)
Definition collisionChange (collision : Collision) : UpgradeChange :=
  {| ch_type := ch_collision;
     variable := c_v2 collision;
     oldVariable := Some (c_v1 collision);
     severity := sev_critical;
     description := ("Storage collision: " ++ reason collision)%string;
     recommendation := Some
       "This collision will corrupt storage. Consider adding new variables at the end instead." |}.

(** The change pushed for a moved variable; [oldVar] is
    [v1VarMap.get(`${variable.name}|${variable.type}`)]. *)
Definition movedChange (oldVar : option StorageVariable) (variable : StorageVariable)
  : UpgradeChange :=
  {| ch_type := ch_moved;
     variable := variable;
     oldVariable := oldVar;
     severity := sev_critical;
     description :=
       ("Variable " ++ quote ++ vname variable ++ quote ++ " moved from slot "
          ++ optional_slot oldVar ++ " to slot "
          ++ Number_toString (slot variable))%string;
     recommendation := Some
       "Moving variables breaks storage layout. Add new variables at the end instead." |}.

(** The change pushed for a removed variable. *)
Definition removedChange (variable : StorageVariable) : UpgradeChange :=
  {| ch_type := ch_removed;
     variable := variable;
     oldVariable := None;
     severity := sev_warning;
     description :=
       ("Variable " ++ quote ++ vname variable ++ quote ++ " removed from storage")%string;
     recommendation := Some
       "Removing variables can break dependent contracts. Consider deprecation instead." |}.

(** The change pushed for an added variable. *)
Definition addedChange (variable : StorageVariable) : UpgradeChange :=
  {| ch_type := ch_added;
     variable := variable;
     oldVariable := None;
     severity := sev_safe;
     description :=
       ("New variable " ++ quote ++ vname variable ++ quote ++ " added at slot "
          ++ Number_toString (slot variable))%string;
     recommendation := Some "Adding variables at the end is safe for upgrades." |}.

(** The change pushed for a name whose type differs between the versions. *)
Definition typeChange (name : string) (v1Var v2Var : StorageVariable) : UpgradeChange :=
  {| ch_type := ch_typeChanged;
     variable := v2Var;
     oldVariable := Some v1Var;
     severity := sev_critical;
     description :=
       ("Variable " ++ quote ++ name ++ quote ++ " type changed from "
          ++ vtype v1Var ++ " to " ++ vtype v2Var)%string;
     recommendation := Some
       "Type changes can corrupt data. Use a new variable name instead." |}.

Definition identifyChanges (v1 v2 : SlotMapping) (collisionReport : CollisionReport)
  : list UpgradeChange :=
  let changes : list UpgradeChange := [] in
  let v1VarMap := keyMap (variables v1) in
  let v1NameMap := nameMap (variables v1) in
  let v2NameMap := nameMap (variables v2) in
  let changes :=
    forEach (collisions collisionReport)
      (fun changes collision => push changes (collisionChange collision))
      changes in
  let changes :=
    forEach (moved collisionReport)
      (fun changes variable =>
         let oldVar := map_get String.eqb v1VarMap (byKey variable) in
         push changes (movedChange oldVar variable))
      changes in
  let changes :=
    forEach (removed collisionReport)
      (fun changes variable => push changes (removedChange variable))
      changes in
  let changes :=
    forEach (added collisionReport)
      (fun changes variable => push changes (addedChange variable))
      changes in
  forEach v2NameMap
    (fun changes '(name, v2Var) =>
       match map_get String.eqb v1NameMap name with
       | Some v1Var =>
           if negb (String.eqb (vtype v1Var) (vtype v2Var))
           then push changes (typeChange name v1Var v2Var)
           else changes
       | None => changes
       end)
    changes.

(** [changes.filter(c => c.severity === s).length] *)
Definition countSeverity (s : Severity) (changes : list UpgradeChange) : Z :=
  Z.of_nat (List.length (filter (fun c => severity_eqb (severity c) s) changes)).

Definition assessCompatibility (changes : list UpgradeChange)
    (collisionReport : CollisionReport) : UpgradeCompatibility :=
  let criticalCount := countSeverity sev_critical changes in
  let warningCount := countSeverity sev_warning changes in
  let score := 100 in
  let score := score - criticalCount * 40 in
  let score := score - warningCount * 15 in
  let score := Z.max 0 score in
  if criticalCount >? 0 then
    {| score := score; level := lvl_critical;
       compat_description :=
         "Critical storage layout conflicts detected. Upgrade will likely fail or corrupt data." |}
  else if warningCount >? 2 then
    {| score := score; level := lvl_unsafe;
       compat_description := "Multiple warnings detected. Upgrade may cause issues." |}
  else if warningCount >? 0 then
    {| score := score; level := lvl_caution;
       compat_description := "Some warnings detected. Review carefully before upgrading." |}
  else
    {| score := score; level := lvl_safe;
       compat_description := "Storage layout is upgrade-safe. Only new variables added." |}.

Definition calculateEfficiency (mapping : SlotMapping) : Number :=
  let usedBytes := sumSizes (variables mapping) in
  let totalBytes := totalSlots mapping * 32 in
  num_mul (num_div (num usedBytes) (num totalBytes)) (num 100).

Definition generateRecommendations (changes : list UpgradeChange)
    (v1 v2 : SlotMapping) : list Recommendation :=
  let recommendations : list Recommendation := [] in
  let criticalChanges := countSeverity sev_critical changes in
  let warningChanges := countSeverity sev_warning changes in
  let recommendations :=
    if criticalChanges >? 0
    then push (push recommendations (rec_do_not_deploy criticalChanges)) rec_new_contract
    else recommendations in
  let recommendations :=
    if warningChanges >? 0
    then push recommendations (rec_test_thoroughly warningChanges)
    else recommendations in
  let v1Efficiency := calculateEfficiency v1 in
  let v2Efficiency := calculateEfficiency v2 in
  let recommendations :=
    if num_lt v2Efficiency (num_sub v1Efficiency (num 10))
    then push recommendations
           (rec_efficiency_decreased (Math_round (num_sub v1Efficiency v2Efficiency)))
    else recommendations in
  let slotGrowth := totalSlots v2 - totalSlots v1 in
  let recommendations :=
    if slotGrowth >? 5
    then push recommendations (rec_storage_grew slotGrowth)
    else recommendations in
  if Z.of_nat (List.length recommendations) =? 0
  then push recommendations rec_appears_safe
  else recommendations.

Definition calculateStorageGrowth (v1 v2 : SlotMapping) : StorageGrowth :=
  let slotsAdded := totalSlots v2 - totalSlots v1 in
  let v1UsedBytes := sumSizes (variables v1) in
  let v2UsedBytes := sumSizes (variables v2) in
  let v1WastedBytes := totalSlots v1 * 32 - v1UsedBytes in
  let v2WastedBytes := totalSlots v2 * 32 - v2UsedBytes in
  let bytesWasted := v2WastedBytes - v1WastedBytes in
  let v1Efficiency :=
    num_mul (num_div (num v1UsedBytes) (num (totalSlots v1 * 32))) (num 100) in
  let v2Efficiency :=
    num_mul (num_div (num v2UsedBytes) (num (totalSlots v2 * 32))) (num 100) in
  let efficiencyChange := num_sub v2Efficiency v1Efficiency in
  {| slotsAdded := slotsAdded;
     bytesWasted := bytesWasted;
     efficiencyChange :=
       num_div (Math_round (num_mul efficiencyChange (num 100))) (num 100) |}.

Definition analyze (v1 v2 : SlotMapping) : UpgradeAnalysis :=
  let collisionReport := compare v1 v2 in
  let changes := identifyChanges v1 v2 collisionReport in
  let compatibility := assessCompatibility changes collisionReport in
  let recommendations := generateRecommendations changes v1 v2 in
  let storageGrowth := calculateStorageGrowth v1 v2 in
  {| ua_contractName := contractName v1;
     v1Summary := {| sum_totalSlots := totalSlots v1;
                     sum_variables := Z.of_nat (List.length (variables v1));
                     sum_packedSlots := Z.of_nat (List.length (packedSlots v1)) |};
     v2Summary := {| sum_totalSlots := totalSlots v2;
                     sum_variables := Z.of_nat (List.length (variables v2));
                     sum_packedSlots := Z.of_nat (List.length (packedSlots v2)) |};
     changes := changes;
     compatibility := compatibility;
     recommendations := recommendations;
     collisionReport := collisionReport;
     storageGrowth := storageGrowth |}.

(* ================================================================= *)
(** ** [Array.prototype.sort]

    The sort of an array is stable, so for a comparator that orders by one
    integer key the result is the one stable arrangement; it is computed
    here by inserting the elements one after the other, each behind the
    elements that do not come after it. *)

Section JsSort.
Context {A : Type} (cmp : A -> A -> Z).

Fixpoint sort_insert (x : A) (sorted : list A) : list A :=
  match sorted with
  | [] => [x]
  | y :: rest => if cmp y x <=? 0 then y :: sort_insert x rest else x :: sorted
  end.

(** [xs.sort(cmp)] *)
Definition Array_sort (xs : list A) : list A :=
  forEach xs (fun sorted x => sort_insert x sorted) [].
End JsSort.

(* ================================================================= *)
(** ** [SlotCalculator]: packing helpers *)

Record PackingHint := {
  hint_slot : Z;
  wastedBytes : Z;
  suggestions : list string
}.

Definition generatePackingSuggestions (variable : StorageVariable) (availableSpace : Z)
  : list string :=
  let suggestions : list string := [] in
  let suggestions :=
    if (availableSpace >=? 20) && (size variable <=? 12)
    then push suggestions "Consider packing with an address variable (20 bytes)"
    else suggestions in
  let suggestions :=
    if (availableSpace >=? 4) && (size variable <=? 28)
    then push suggestions "Consider packing with uint32 or smaller integer types"
    else suggestions in
  let suggestions :=
    if (availableSpace >=? 1) && (size variable <=? 31)
    then push suggestions "Consider packing with bool variables (1 byte each)"
    else suggestions in
  suggestions.

(** [SlotCalculator.findPackingOpportunities].  The grouping loop of the
    source is the loop of [groupVariablesBySlot]; a group always holds at
    least one variable, and [variables[0]] is read only for a group of
    length one. *)
Definition findPackingOpportunities (mapping : SlotMapping) : list PackingHint :=
  let slotGroups := groupVariablesBySlot (variables mapping) in
  let opportunities :=
    forEach slotGroups
      (fun opportunities '(slot, variables) =>
         let totalUsed := sumSizes variables in
         let wastedBytes := 32 - totalUsed in
         match variables with
         | [v] =>
             if (wastedBytes >? 0) && (size v <? 32) then
               let suggestions := generatePackingSuggestions v wastedBytes in
               if Z.of_nat (List.length suggestions) >? 0
               then push opportunities
                      {| hint_slot := slot; wastedBytes := wastedBytes;
                         suggestions := suggestions |}
               else opportunities
             else opportunities
         | _ => opportunities
         end)
      [] in
  Array_sort (fun a b => wastedBytes b - wastedBytes a) opportunities.

Definition canPackTogether (var1 var2 : StorageVariable) : bool :=
  size var1 + size var2 <=? 32.

(** The body of [sortedVars.forEach(variable => ...)] in
    [optimizeSlotArrangement]: the placement of [calculateSlots], with the
    size the variable carries. *)
Definition arrange (st : Cursor) (variable : StorageVariable) : Cursor :=
  let '(currentSlot, currentOffset) :=
    if currentOffset st + size variable >? 32
    then (currentSlot st + 1, 0)
    else (currentSlot st, currentOffset st) in
  let optimizedVars :=
    push (cur_variables st)
      {| vname := vname variable;
         vtype := vtype variable;
         slot := currentSlot;
         offset := currentOffset;
         size := size variable;
         isStateVariable := isStateVariable variable;
         packed := Some ((currentOffset >? 0) || (currentOffset + size variable <? 32)) |} in
  let currentOffset := currentOffset + size variable in
  if currentOffset >=? 32
  then {| cur_variables := optimizedVars; currentSlot := currentSlot + 1; currentOffset := 0 |}
  else {| cur_variables := optimizedVars; currentSlot := currentSlot; currentOffset := currentOffset |}.

Definition optimizeSlotArrangement (variables : list StorageVariable)
  : list StorageVariable :=
  let sortedVars := Array_sort (fun a b => size b - size a) variables in
  cur_variables (forEach sortedVars arrange cursor0).

(* ================================================================= *)
(** ** [CollisionDetector] on the mappings of the calculator

    [detectCollisions] hands what [calculateSlots] returns to [detect]; the
    functions below are [detect] and its helpers on such a mapping, whose
    sizes and offsets are run-time values. *)

Record RunCollisionVariable := {
  rcv_name : string;
  rcv_type : string;
  rcv_size : Size;
  rcv_offset : Offset
}.

Record RunStorageCollision := {
  r_id : string;
  r_type : CollisionType;
  r_severity : CollisionSeverity;
  r_slot : Z;
  r_variables : list RunCollisionVariable;
  r_description : string;
  r_impact : string;
  r_recommendation : string;
  r_gasImpact : Z
}.

(** [groups.get(slot)!] *)
Definition group_get (groups : JsMap (K := Z) (V := list RunVariable)) (s : Z)
  : list RunVariable :=
  match map_get Z.eqb groups s with
  | Some list => list
  | None => []
  end.

Definition groupVariablesBySlot_run (variables : list RunVariable)
  : JsMap (K := Z) (V := list RunVariable) :=
  forEach variables
    (fun groups variable =>
       let groups := if negb (map_has Z.eqb groups (rslot variable))
                     then map_set Z.eqb groups (rslot variable) []
                     else groups in
       map_set Z.eqb groups (rslot variable)
         (push (group_get groups (rslot variable)) variable))
    [].

(** [variables.reduce((sum, v) => sum + v.size, 0)] *)
Definition sumSizes_run (variables : list RunVariable) : Offset :=
  fold_left (fun sum v => plus sum (rsize v)) variables (At 0).

Definition calculateSeverity_run (variables : list RunVariable) (totalSize : Offset)
  : CollisionSeverity :=
  if greater totalSize 64 then critical
  else if greater totalSize 48 then high
  else if Z.of_nat (List.length variables) >? 3 then medium
  else low.

Definition analyzeSlotCollision_run (slot : Z) (variables : list RunVariable)
  : option RunStorageCollision :=
  if Z.of_nat (List.length variables) <=? 1 then None
  else
    let totalSize := sumSizes_run variables in
    let hasOverlap := greater totalSize 32 in
    if negb hasOverlap then None
    else
      let severity := calculateSeverity_run variables totalSize in
      let collisionVars :=
        map (fun v => {| rcv_name := rname v; rcv_type := rtype v;
                         rcv_size := rsize v; rcv_offset := roffset v |}) variables in
      Some {| r_id := ("collision_slot_" ++ Number_toString slot)%string;
              r_type := variable_overlap;
              r_severity := severity;
              r_slot := slot;
              r_variables := collisionVars;
              r_description :=
                ("Multiple variables overlap in slot " ++ Number_toString slot)%string;
              r_impact := getImpactDescription severity;
              r_recommendation :=
                "Reorganize variables to prevent slot overlap. Consider using smaller data types or packing variables efficiently.";
              r_gasImpact := Z.of_nat (List.length variables) * 20000 |}.

Definition detect_run (slotMapping : RunMapping) : list RunStorageCollision :=
  let slotGroups := groupVariablesBySlot_run (rvariables slotMapping) in
  forEach slotGroups
    (fun collisions '(slot, variables) =>
       if Z.of_nat (List.length variables) >? 1 then
         match analyzeSlotCollision_run slot variables with
         | Some collision => push collisions collision
         | None => collisions
         end
       else collisions)
    [].

(** [CollisionDetector.detectCollisions].  For a contract model of the
    declared shape nothing in the [try] block throws, so the [catch]
    branch is not modelled. *)
Definition detectCollisions (contracts : list ContractAST) : list RunStorageCollision :=
  forEach contracts
    (fun allCollisions contract =>
       let slotMapping := calculateSlots contract in
       let contractCollisions := detect_run slotMapping in
       forEach contractCollisions
         (fun allCollisions collision =>
            push allCollisions
              {| r_id := r_id collision;
                 r_type := r_type collision;
                 r_severity := r_severity collision;
                 r_slot := r_slot collision;
                 r_variables := r_variables collision;
                 r_description :=
                   ("Storage collision in " ++ name contract ++ ": "
                      ++ r_description collision)%string;
                 r_impact := r_impact collision;
                 r_recommendation := r_recommendation collision;
                 r_gasImpact := r_gasImpact collision |})
         allCollisions)
    [].

(* ================================================================= *)
(** ** [StorageSummaryGenerator] *)

Record SlotUtilization := {
  su_slot : Z;
  usedBytes : Z;
  availableBytes : Z;
  utilizationPercent : Number;
  su_variables : list string
}.

Record SummaryOpportunity := {
  so_slot : Z;
  currentVariables : list string;
  suggestedPacking : list string;
  gasSavings : Z
}.

Record StorageSummary := {
  totalVariables : Z;
  ss_totalSlots : Z;
  totalSize : Z;
  efficiency : Number;
  estimatedGasCost : Z;
  utilizationBySlot : list SlotUtilization;
  packingOpportunities : list SummaryOpportunity
}.

(** The grouping loop is again the loop of [groupVariablesBySlot]. *)
Definition calculateSlotUtilization (slotMapping : SlotMapping) : list SlotUtilization :=
  let slotGroups := groupVariablesBySlot (variables slotMapping) in
  let utilizations :=
    forEach slotGroups
      (fun utilizations '(slot, vars) =>
         let usedBytes := sumSizes vars in
         let availableBytes := 32 - usedBytes in
         let utilizationPercent := num_mul (num_div (num usedBytes) (num 32)) (num 100) in
         let variables := map vname vars in
         push utilizations
           {| su_slot := slot;
              usedBytes := usedBytes;
              availableBytes := availableBytes;
              utilizationPercent := utilizationPercent;
              su_variables := variables |})
      [] in
  Array_sort (fun a b => su_slot a - su_slot b) utilizations.

(** [StorageSummaryGenerator.findPackingOpportunities] *)
Definition summaryPackingOpportunities (slotMapping : SlotMapping)
  : list SummaryOpportunity :=
  let utilizations := calculateSlotUtilization slotMapping in
  forEach utilizations
    (fun opportunities util =>
       if num_lt (utilizationPercent util) (num 75) && (availableBytes util >=? 4) then
         let smallVars :=
           filter (fun v => (size v <=? availableBytes util)
                            && negb (slot v =? su_slot util))
                  (variables slotMapping) in
         if Z.of_nat (List.length smallVars) >? 0 then
           push opportunities
             {| so_slot := su_slot util;
                currentVariables := su_variables util;
                suggestedPacking :=
                  su_variables util ++ map vname (firstn 2 smallVars);
                gasSavings := Z.min (Z.of_nat (List.length smallVars)) 2 * 5000 |}
         else opportunities
       else opportunities)
    [].

(** [StorageSummaryGenerator.generate] *)
Definition generate (slotMapping : SlotMapping) : StorageSummary :=
  let totalVariables := Z.of_nat (List.length (variables slotMapping)) in
  let totalSlots :=
    match map slot (variables slotMapping) with
    | [] => 0
    | s :: rest => Math_max s rest + 1
    end in
  let totalSize := sumSizes (variables slotMapping) in
  let efficiency :=
    if totalSlots >? 0
    then num_mul (num_div (num totalSize) (num (totalSlots * 32))) (num 100)
    else num 0 in
  let estimatedGasCost := totalSlots * 20000 in
  {| totalVariables := totalVariables;
     ss_totalSlots := totalSlots;
     totalSize := totalSize;
     efficiency := efficiency;
     estimatedGasCost := estimatedGasCost;
     utilizationBySlot := calculateSlotUtilization slotMapping;
     packingOpportunities := summaryPackingOpportunities slotMapping |}.

(* ================================================================= *)
(** ** [StorageDiffAnalyzer] *)

Inductive Risk := risk_none | risk_low | risk_medium | risk_high | risk_critical.

Inductive DiffChangeType :=
  dc_added | dc_removed | dc_moved | dc_modified | dc_unchanged.

Record VariableChange := {
  vc_type : DiffChangeType;
  vc_variable : StorageVariable;
  oldSlot : option Z;
  newSlot : option Z;
  details : string;
  risk : Risk
}.

Record DiffSummary := {
  unchanged : Z;
  ds_added : Z;
  ds_removed : Z;
  ds_moved : Z;
  modified : Z;
  totalOld : Z;
  totalNew : Z
}.

Record GasBreakdown := {
  addedVariables : Z;
  removedVariables : Z;
  movedVariables : Z
}.

Record GasImpactAnalysis := {
  deploymentCost : Z;
  runtimeCost : Z;
  storageSlotChanges : Z;
  breakdown : GasBreakdown
}.

Inductive IssueType := storage_collision | variable_moved | data_loss | layout_change.

Record SafetyIssue := {
  issue_type : IssueType;
  issue_severity : CollisionSeverity;
  issue_description : string;
  issue_impact : string;
  mitigation : string
}.

Record SafetyAssessment := {
  isSafe : bool;
  riskLevel : Risk;
  issues : list SafetyIssue;
  overallScore : Z
}.

(** The entries of the [recommendations] array of the diff analysis, one
    constructor per message. *)
Inductive DiffRecommendation :=
| dr_appears_safe | dr_test_first | dr_unsafe | dr_storage_gaps
| dr_migration_contract | dr_resolve_collisions | dr_reorganize
| dr_proxy_patterns | dr_forge_inspect | dr_review_guidelines.

Record StorageDiffAnalysis := {
  summary : DiffSummary;
  diff_changes : list VariableChange;
  diff_gasImpact : GasImpactAnalysis;
  safetyAssessment : SafetyAssessment;
  diff_recommendations : list DiffRecommendation
}.

Definition countUnchangedVariables (oldMapping newMapping : SlotMapping)
    (collisionReport : CollisionReport) : Z :=
  let totalOld := Z.of_nat (List.length (variables oldMapping)) in
  totalOld - Z.of_nat (List.length (removed collisionReport))
           - Z.of_nat (List.length (moved collisionReport)).

Definition generateSummary (oldMapping newMapping : SlotMapping)
    (collisionReport : CollisionReport) : DiffSummary :=
  let unchanged := countUnchangedVariables oldMapping newMapping collisionReport in
  {| unchanged := unchanged;
     ds_added := Z.of_nat (List.length (added collisionReport));
     ds_removed := Z.of_nat (List.length (removed collisionReport));
     ds_moved := Z.of_nat (List.length (moved collisionReport));
     modified := 0;
     totalOld := Z.of_nat (List.length (variables oldMapping));
     totalNew := Z.of_nat (List.length (variables newMapping)) |}.

(** [`${oldVar?.slot}`] is [optional_slot]; [oldVar?.slot] itself is the
    optional number. *)
Definition analyzeChanges (oldMapping newMapping : SlotMapping)
    (collisionReport : CollisionReport) : list VariableChange :=
  let changes : list VariableChange := [] in
  let changes :=
    forEach (added collisionReport)
      (fun changes variable =>
         push changes
           {| vc_type := dc_added; vc_variable := variable;
              oldSlot := None; newSlot := None;
              risk := risk_low;
              details := ("New variable added at slot "
                            ++ Number_toString (slot variable))%string |})
      changes in
  let changes :=
    forEach (removed collisionReport)
      (fun changes variable =>
         push changes
           {| vc_type := dc_removed; vc_variable := variable;
              oldSlot := None; newSlot := None;
              risk := risk_high;
              details := ("Variable removed from slot "
                            ++ Number_toString (slot variable)
                            ++ " - data will be lost")%string |})
      changes in
  forEach (moved collisionReport)
    (fun changes variable =>
       let oldVar :=
         find (fun v => String.eqb (vname v) (vname variable)
                        && String.eqb (vtype v) (vtype variable))
              (variables oldMapping) in
       push changes
         {| vc_type := dc_moved; vc_variable := variable;
            oldSlot := option_map slot oldVar;
            newSlot := Some (slot variable);
            risk := risk_critical;
            details := ("Variable moved from slot " ++ optional_slot oldVar
                          ++ " to slot " ++ Number_toString (slot variable))%string |})
    changes.

Definition calculateGasImpact (collisionReport : CollisionReport) : GasImpactAnalysis :=
  let addedCost := Z.of_nat (List.length (added collisionReport)) * 20000 in
  let removedCost := Z.of_nat (List.length (removed collisionReport)) * 5000 in
  let movedCost := Z.of_nat (List.length (moved collisionReport)) * 25000 in
  {| deploymentCost := addedCost + removedCost + movedCost;
     runtimeCost :=
       (Z.of_nat (List.length (added collisionReport))
        + Z.of_nat (List.length (moved collisionReport))) * 2100;
     storageSlotChanges :=
       Z.of_nat (List.length (added collisionReport))
       + Z.of_nat (List.length (removed collisionReport))
       + Z.of_nat (List.length (moved collisionReport));
     breakdown := {| addedVariables := addedCost;
                     removedVariables := removedCost;
                     movedVariables := movedCost |} |}.

Definition assessSafety (collisionReport : CollisionReport)
    (changes : list VariableChange) : SafetyAssessment :=
  let issues : list SafetyIssue := [] in
  let overallScore := 100 in
  let '(issues, overallScore) :=
    if Z.of_nat (List.length (collisions collisionReport)) >? 0
    then (push issues
            {| issue_type := storage_collision;
               issue_severity := critical;
               issue_description :=
                 (Number_toString (Z.of_nat (List.length (collisions collisionReport)))
                    ++ " storage collisions detected")%string;
               issue_impact := "Data corruption and unpredictable behavior";
               mitigation := "Reorganize storage layout to eliminate overlaps" |},
          overallScore - 50)
    else (issues, overallScore) in
  let '(issues, overallScore) :=
    if Z.of_nat (List.length (moved collisionReport)) >? 0
    then (push issues
            {| issue_type := variable_moved;
               issue_severity := high;
               issue_description :=
                 (Number_toString (Z.of_nat (List.length (moved collisionReport)))
                    ++ " variables moved to different slots")%string;
               issue_impact := "Variable values will be lost during upgrade";
               mitigation := "Implement data migration strategy or use storage gaps" |},
          overallScore - 30)
    else (issues, overallScore) in
  let '(issues, overallScore) :=
    if Z.of_nat (List.length (removed collisionReport)) >? 0
    then (push issues
            {| issue_type := data_loss;
               issue_severity := medium;
               issue_description :=
                 (Number_toString (Z.of_nat (List.length (removed collisionReport)))
                    ++ " variables removed")%string;
               issue_impact := "Storage slots will become unused but data remains";
               mitigation := "Consider cleanup strategy for abandoned storage" |},
          overallScore - 15)
    else (issues, overallScore) in
  let riskLevel :=
    if overallScore >=? 90 then risk_none
    else if overallScore >=? 70 then risk_low
    else if overallScore >=? 50 then risk_medium
    else if overallScore >=? 30 then risk_high
    else risk_critical in
  {| isSafe := safe collisionReport;
     riskLevel := riskLevel;
     issues := issues;
     overallScore := Z.max 0 overallScore |}.

Definition issue_type_eqb (a b : IssueType) : bool :=
  match a, b with
  | storage_collision, storage_collision | variable_moved, variable_moved
  | data_loss, data_loss | layout_change, layout_change => true
  | _, _ => false
  end.

Definition diffRecommendations (safetyAssessment : SafetyAssessment)
    (changes : list VariableChange) : list DiffRecommendation :=
  let recommendations : list DiffRecommendation := [] in
  let recommendations :=
    if isSafe safetyAssessment then
      push (push recommendations dr_appears_safe) dr_test_first
    else
      let recommendations := push recommendations dr_unsafe in
      let recommendations :=
        if existsb (fun i => issue_type_eqb (issue_type i) variable_moved)
                   (issues safetyAssessment)
        then push (push recommendations dr_storage_gaps) dr_migration_contract
        else recommendations in
      let recommendations :=
        if existsb (fun i => issue_type_eqb (issue_type i) storage_collision)
                   (issues safetyAssessment)
        then push (push recommendations dr_resolve_collisions) dr_reorganize
        else recommendations in
      push (push recommendations dr_proxy_patterns) dr_forge_inspect in
  push recommendations dr_review_guidelines.

(** [StorageDiffAnalyzer.analyze] *)
Definition diffAnalyze (oldMapping newMapping : SlotMapping)
    (collisionReport : CollisionReport) : StorageDiffAnalysis :=
  let summary := generateSummary oldMapping newMapping collisionReport in
  let changes := analyzeChanges oldMapping newMapping collisionReport in
  let gasImpact := calculateGasImpact collisionReport in
  let safetyAssessment := assessSafety collisionReport changes in
  let recommendations := diffRecommendations safetyAssessment changes in
  {| summary := summary;
     diff_changes := changes;
     diff_gasImpact := gasImpact;
     safetyAssessment := safetyAssessment;
     diff_recommendations := recommendations |}.

(* ================================================================= *)
(** ** [StoragePackingDetector]: its own size table *)

Definition detectorSizeMap : list (string * Z) :=
  [ ("bool", 1); ("uint8", 1); ("int8", 1);
    ("uint16", 2); ("int16", 2);
    ("uint32", 4); ("int32", 4);
    ("uint64", 8); ("int64", 8);
    ("address", 20);
    ("bytes1", 1); ("bytes2", 2); ("bytes4", 4); ("bytes8", 8);
    ("uint256", 32); ("int256", 32); ("bytes32", 32) ].

(** [StoragePackingDetector.getTypeSize] *)
Definition detectorTypeSize (typeName : string) : Size :=
  or_32 (read detectorSizeMap typeName).

Definition smallTypes : list string :=
  [ "bool"; "uint8"; "uint16"; "uint32"; "uint64";
    "int8"; "int16"; "int32"; "int64"; "address";
    "bytes1"; "bytes2"; "bytes4"; "bytes8" ].

(** [smallTypes.includes(typeName)] *)
Definition isSmallType (typeName : string) : bool :=
  existsb (String.eqb typeName) smallTypes.

(** [StoragePackingDetector.getTotalSize] *)
Definition getTotalSize (variables : list StateVariable) : Offset :=
  fold_left (fun sum v => plus sum (detectorTypeSize (typeName v))) variables (At 0).

(* ================================================================= *)
(** ** Vocabulary of the specification *)

(** The variables of a mapping that were assigned to slot [s]. *)
Definition occupants (variables : list StorageVariable) (s : Z) : list StorageVariable :=
  filter (fun v => slot v =? s) variables.

(** The sum of the sizes of the variables assigned to slot [s]. *)
Definition slot_bytes (m : SlotMapping) (s : Z) : Z :=
  sumSizes (occupants (variables m) s).

(** The byte ranges of [a] and [b] intersect. *)
Definition overlap (a b : StorageVariable) : Prop :=
  offset a < offset b + size b /\ offset b < offset a + size a.

(** Identity across versions: same name and same declared type. *)
Definition same_identity (a b : StorageVariable) : Prop :=
  vname a = vname b /\ vtype a = vtype b.

(** No two variables of different identity share bytes of a slot. *)
Definition overlap_free (variables : list StorageVariable) : Prop :=
  forall a b, In a variables -> In b variables ->
    slot a = slot b -> overlap a b -> same_identity a b.

(** The variable a mapping holds under the name [n]: the last one declared
    with that name. *)
Definition named (variables : list StorageVariable) (n : string) : option StorageVariable :=
  find (fun v => String.eqb (vname v) n) (rev variables).

Definition type_eqb (a b : ChangeType) : bool :=
  match a, b with
  | ch_added, ch_added | ch_removed, ch_removed | ch_moved, ch_moved
  | ch_typeChanged, ch_typeChanged | ch_collision, ch_collision => true
  | _, _ => false
  end.

(** [c.type === t] *)
Definition has_type (t : ChangeType) (c : UpgradeChange) : bool :=
  type_eqb t (ch_type c).

(** The severity the specification attaches to each kind of change. *)
Definition severity_of (t : ChangeType) : Severity :=
  match t with
  | ch_collision | ch_moved | ch_typeChanged => sev_critical
  | ch_removed => sev_warning
  | ch_added => sev_safe
  end.

Definition severity_dec (a b : Severity) : {a = b} + {a <> b}.
Proof. decide equality. Defined.

(** The number of changes of severity [s]. *)
Definition number_of (s : Severity) (changes : list UpgradeChange) : Z :=
  Z.of_nat (count_occ severity_dec (map severity changes) s).

(** *** Concrete inputs *)

Definition declare (n t : string) : StateVariable :=
  {| decl_name := n; typeName := t; visibility := vis_public;
     isConstant := false; isImmutable := false; initialValue := None |}.

Definition contract_of (n : string) (vars : list StateVariable) : ContractAST :=
  {| name := n; baseContracts := []; stateVariables := vars;
     isAbstract := false; isInterface := false; isLibrary := false |}.

(** [uint256 value; address owner; bool isActive; uint8 smallNumber;] *)
Definition mockContract : ContractAST :=
  contract_of "MockContract"
    [ declare "value" "uint256"; declare "owner" "address";
      declare "isActive" "bool"; declare "smallNumber" "uint8" ].

(** The layout of [mockContract]. *)
Definition mockMapping : SlotMapping :=
  {| contractName := "MockContract";
     variables :=
       [ {| vname := "value"; vtype := "uint256"; slot := 0; offset := 0; size := 32;
            packed := Some false; isStateVariable := true |};
         {| vname := "owner"; vtype := "address"; slot := 1; offset := 0; size := 20;
            packed := Some true; isStateVariable := true |};
         {| vname := "isActive"; vtype := "bool"; slot := 1; offset := 20; size := 1;
            packed := Some true; isStateVariable := true |};
         {| vname := "smallNumber"; vtype := "uint8"; slot := 1; offset := 21; size := 1;
            packed := Some true; isStateVariable := true |} ];
     totalSlots := 2;
     packedSlots := [1] |}.

Definition emptyContract : ContractAST := contract_of "EmptyContract" [].

(** [valueOf a; uint256 b; uint256 c;]: the type of [a] is a type of the
    contract's own whose name [Object.prototype] holds too. *)
Definition inheritedContract : ContractAST :=
  contract_of "Inherited"
    [ declare "a" "valueOf"; declare "b" "uint256"; declare "c" "uint256" ].

(** [valueOf a; bool b;] *)
Definition inheritedSmall : ContractAST :=
  contract_of "InheritedSmall" [ declare "a" "valueOf"; declare "b" "bool" ].

(** [uint256 constant MAX; uint256 total;] with [MAX] flagged constant. *)
Definition constantContract : ContractAST :=
  contract_of "WithConstant"
    [ {| decl_name := "MAX"; typeName := "uint256"; visibility := vis_public;
         isConstant := true; isImmutable := false; initialValue := None |};
      declare "total" "uint256" ].

Definition stored (n t : string) (s o z : Z) : StorageVariable :=
  {| vname := n; vtype := t; slot := s; offset := o; size := z;
     packed := Some (z <? 32); isStateVariable := true |}.

(** Two sixteen-byte variables of one slot whose ranges intersect. *)
Definition overlappingMapping : SlotMapping :=
  {| contractName := "Overlapping";
     variables := [ stored "x" "uint128" 0 0 16; stored "y" "uint128" 0 8 16 ];
     totalSlots := 1;
     packedSlots := [0] |}.

(** [v1 = [owner, value]] *)
Definition ownerValue : SlotMapping :=
  {| contractName := "Upgrade";
     variables := [ stored "owner" "address" 0 0 20; stored "value" "uint256" 1 0 32 ];
     totalSlots := 2;
     packedSlots := [] |}.

(** The second version of [m] that declares [extra] after the variables of
    [m] and occupies [total] slots. *)
Definition extend (m : SlotMapping) (extra : list StorageVariable) (total : Z)
  : SlotMapping :=
  {| contractName := contractName m;
     variables := variables m ++ extra;
     totalSlots := total;
     packedSlots := packedSlots m |}.

(** [v2 = [value, owner]]: the two variables of [ownerValue], swapped. *)
Definition valueOwner : SlotMapping :=
  {| contractName := "Upgrade";
     variables := [ stored "value" "uint256" 0 0 32; stored "owner" "address" 1 0 20 ];
     totalSlots := 2;
     packedSlots := [] |}.

Definition newVar : StorageVariable := stored "newVar" "uint256" 2 0 32.

(** [v2 = [owner, value, newVar]] *)
Definition ownerValueNewVar : SlotMapping := extend ownerValue [newVar] 3.

(** [overlappingMapping] followed by [z] in the empty slot 1. *)
Definition overlappingAppended : SlotMapping :=
  extend overlappingMapping [stored "z" "uint256" 1 0 32] 2.

(** One variable [a], and a second version that declares a variable of the
    same name and type once more, in the empty slot 1. *)
Definition single : SlotMapping :=
  {| contractName := "Single";
     variables := [ stored "a" "uint256" 0 0 32 ];
     totalSlots := 1;
     packedSlots := [] |}.

Definition redeclared : SlotMapping :=
  extend single [stored "a" "uint256" 1 0 32] 2.

Definition emptyMapping : SlotMapping :=
  {| contractName := "EmptyContract"; variables := []; totalSlots := 0;
     packedSlots := [] |}.

(** Two trailing variables of one name and type, after no variable at
    all. *)
Definition twins : list StorageVariable :=
  [ stored "z" "uint256" 0 0 32; stored "z" "uint256" 1 0 32 ].

(** One [uint8 x], and a second version that declares [x] twice: as
    [uint16] in the place of the old [x], and as [uint8] in slot 1. *)
Definition oneX : SlotMapping :=
  {| contractName := "Repeated";
     variables := [ stored "x" "uint8" 0 0 1 ];
     totalSlots := 1;
     packedSlots := [] |}.

Definition twoX : SlotMapping :=
  {| contractName := "Repeated";
     variables := [ stored "x" "uint16" 0 0 2; stored "x" "uint8" 1 0 1 ];
     totalSlots := 2;
     packedSlots := [] |}.

(** *** Auxiliary definitions of the proofs *)

(** A variable and a mapping of the data model as they are at run time. *)
Definition run_variable (v : StorageVariable) : RunVariable :=
  {| rname := vname v;
     rtype := vtype v;
     rslot := slot v;
     roffset := At (offset v);
     rsize := Bytes (size v);
     rpacked := packed v;
     risStateVariable := isStateVariable v |}.

Definition run_mapping (m : SlotMapping) : RunMapping :=
  {| rcontractName := contractName m;
     rvariables := map run_variable (variables m);
     rtotalSlots := totalSlots m;
     rpackedSlots := packedSlots m |}.

Definition run_cursor (st : Cursor) : RunCursor :=
  {| rc_variables := map run_variable (cur_variables st);
     rc_slot := currentSlot st;
     rc_offset := At (currentOffset st) |}.

(** No state variable of the contract has a type named like a member of
    [Object.prototype]. *)
Definition plain (contract : ContractAST) : Prop :=
  Forall (fun v => inherited (typeName v) = false) (stateVariables contract).

(** The variables of a run-time mapping that were assigned to slot [s]. *)
Definition occupants_run (variables : list RunVariable) (s : Z) : list RunVariable :=
  filter (fun v => rslot v =? s) variables.

(** What the loop of [calculateSlots] maintains, whatever the type names:
    the cursor is the sum of the sizes put into the current slot, a number
    below 32 or a string; every other slot holds a number of bytes, at
    most 32. *)
Record run_invariant (st : RunCursor) : Prop := {
  ri_offset : forall n, rc_offset st = At n -> 0 <= n < 32;
  ri_current :
    sumSizes_run (occupants_run (rc_variables st) (rc_slot st)) = rc_offset st;
  ri_other :
    forall s, s <> rc_slot st ->
      exists n, sumSizes_run (occupants_run (rc_variables st) s) = At n /\ n <= 32;
  ri_behind : forall v, In v (rc_variables st) -> rslot v <= rc_slot st
}.

(** One round of the loop of [groupVariablesBySlot_run]. *)
Definition group_step_run (groups : JsMap (K := Z) (V := list RunVariable))
    (v : RunVariable) : JsMap (K := Z) (V := list RunVariable) :=
  let groups := if negb (map_has Z.eqb groups (rslot v))
                then map_set Z.eqb groups (rslot v) []
                else groups in
  map_set Z.eqb groups (rslot v) (push (group_get groups (rslot v)) v).

(** A collision report of the data model as it is at run time. *)
Definition run_collision (c : StorageCollision) : RunStorageCollision :=
  {| r_id := id c;
     r_type := sc_type c;
     r_severity := sc_severity c;
     r_slot := sc_slot c;
     r_variables :=
       map (fun v => {| rcv_name := cv_name v; rcv_type := cv_type v;
                        rcv_size := Bytes (cv_size v); rcv_offset := At (cv_offset v) |})
           (sc_variables c);
     r_description := sc_description c;
     r_impact := impact c;
     r_recommendation := sc_recommendation c;
     r_gasImpact := gasImpact c |}.

(** A grouping of the data model as it is at run time. *)
Definition run_groups (groups : Occupancy) : JsMap (K := Z) (V := list RunVariable) :=
  map (fun entry => (fst entry, map run_variable (snd entry))) groups.


(** What the loop of [calculateSlots_plain] maintains between two variables. *)
Record layout_invariant (st : Cursor) : Prop := {
  inv_offset : 0 <= currentOffset st < 32;
  inv_bound : forall s, sumSizes (occupants (cur_variables st) s) <= 32;
  inv_current :
    sumSizes (occupants (cur_variables st) (currentSlot st)) = currentOffset st;
  inv_beyond :
    forall s, currentSlot st < s -> sumSizes (occupants (cur_variables st) s) = 0;
  inv_packed :
    Forall (fun v => packed v = Some (size v <? 32)) (cur_variables st)
}.

(** Where the loop of [calculateSlots_plain] has put the variables so far. *)
Record placement_invariant (st : Cursor) : Prop := {
  pl_cursor : 0 <= currentSlot st /\ 0 <= currentOffset st <= 31;
  pl_range :
    forall v, In v (cur_variables st) ->
      0 <= slot v /\ 0 <= offset v /\ 1 <= size v /\ offset v + size v <= 32;
  pl_before :
    forall v, In v (cur_variables st) ->
      slot v < currentSlot st
      \/ (slot v = currentSlot st /\ offset v + size v <= currentOffset st);
  pl_disjoint :
    forall a b, In a (cur_variables st) -> In b (cur_variables st) ->
      slot a = slot b -> overlap a b -> a = b
}.

(** What [optimizeSlotArrangement] keeps of a variable. *)
Definition identity (v : StorageVariable) : string * string * Z :=
  (vname v, vtype v, size v).

(** [address a; uint64 b; uint32 c; address d; uint64 e; uint32 f;] *)
Definition interleavedContract : ContractAST :=
  contract_of "Interleaved"
    [ declare "a" "address"; declare "b" "uint64"; declare "c" "uint32";
      declare "d" "address"; declare "e" "uint64"; declare "f" "uint32" ].


(** What the loop of [findPackingOpportunities] pushes for one entry of
    [slotGroups]. *)
Definition hintFor (entry : Z * list StorageVariable) : list PackingHint :=
  match snd entry with
  | [v] =>
      if (32 - sumSizes (snd entry) >? 0) && (size v <? 32) then
        if Z.of_nat (List.length (generatePackingSuggestions v (32 - sumSizes (snd entry)))) >? 0
        then [ {| hint_slot := fst entry;
                  wastedBytes := 32 - sumSizes (snd entry);
                  suggestions := generatePackingSuggestions v (32 - sumSizes (snd entry)) |} ]
        else []
      else []
  | _ => []
  end.

(** The row [calculateSlotUtilization] pushes for one entry of
    [slotGroups]. *)
Definition utilizationOf (entry : Z * list StorageVariable) : SlotUtilization :=
  {| su_slot := fst entry;
     usedBytes := sumSizes (snd entry);
     availableBytes := 32 - sumSizes (snd entry);
     utilizationPercent :=
       num_mul (num_div (num (sumSizes (snd entry))) (num 32)) (num 100);
     su_variables := map vname (snd entry) |}.

(** The variable a mapping holds under the key [k]: the last one declared
    with that name and type. *)
Definition keyed (variables : list StorageVariable) (k : string) : option StorageVariable :=
  find (fun v => String.eqb (byKey v) k) (rev variables).

(** What the first loop of [compare] pushes to [moved] for one entry of
    [keys1]. *)
Definition movedFor (keys2 : JsMap (K := string) (V := StorageVariable))
    (entry : string * StorageVariable) : list StorageVariable :=
  match map_get String.eqb keys2 (fst entry) with
  | Some var2 =>
      if negb (slot var2 =? slot (snd entry)) || negb (offset var2 =? offset (snd entry))
      then [var2] else []
  | None => []
  end.

(** What the first loop of [compare] pushes to [removed]. *)
Definition removedFor (keys2 : JsMap (K := string) (V := StorageVariable))
    (entry : string * StorageVariable) : list StorageVariable :=
  match map_get String.eqb keys2 (fst entry) with
  | Some _ => []
  | None => [snd entry]
  end.

(** What the second loop of [compare] pushes to [added]. *)
Definition addedFor (keys1 : JsMap (K := string) (V := StorageVariable))
    (entry : string * StorageVariable) : list StorageVariable :=
  if negb (map_has String.eqb keys1 (fst entry)) then [snd entry] else [].

(** What the innermost loop of [compare] pushes for the pair [a], [b]. *)
Definition collisionFor (movedKeys : list string) (slot : Z)
    (a b : StorageVariable) : list Collision :=
  checkPair movedKeys slot [] a b.

(** The bytes two variables of one slot share: first and last byte. *)
Definition shared_bytes (a b : StorageVariable) : Z * Z :=
  (Z.max (offset a) (offset b),
   Z.min (offset a + size a - 1) (offset b + size b - 1)).

(** The record [compare] pushes for a colliding pair. *)
Definition collisionOf (a b : StorageVariable) : Collision :=
  {| c_slot := slot a;
     range := shared_bytes a b;
     c_v1 := a;
     c_v2 := b;
     reason :=
       if negb (String.eqb (vname a) (vname b))
       then ("different variables occupy same bytes ("
               ++ vname a ++ " vs " ++ vname b ++ ")")%string
       else ("same variable has different type ("
               ++ vtype a ++ " vs " ++ vtype b ++ ")")%string |}.

(** The new version holds a variable of the name and type of [a] at the
    slot and offset of [a]. *)
Definition kept (newVariables : list StorageVariable) (a : StorageVariable) : bool :=
  match keyed newVariables (byKey a) with
  | Some b => (slot b =? slot a) && (offset b =? offset a)
  | None => false
  end.



(** The number of slots a list of placed variables spans: the greatest
    slot plus one, and 0 for no variable. *)
Definition slotCount (variables : list StorageVariable) : Z :=
  match map slot variables with
  | [] => 0
  | s :: rest => Math_max s rest + 1
  end.

(** Offsets leave no hole: a variable starts where the variables before it
    in its slot end. *)
Definition tight (variables : list StorageVariable) : Prop :=
  forall before v after, variables = before ++ v :: after ->
    offset v = sumSizes (occupants before (slot v)).

(** The placement step that [calculateSlots_plain] and [optimizeSlotArrangement]
    share: [sz] is the size of the variable, [mk s o] the record pushed for
    slot [s] and offset [o]. *)
Definition lay (st : Cursor) (sz : Z) (mk : Z -> Z -> StorageVariable) : Cursor :=
  let s := if currentOffset st + sz >? 32 then currentSlot st + 1 else currentSlot st in
  let o := if currentOffset st + sz >? 32 then 0 else currentOffset st in
  if o + sz >=? 32
  then {| cur_variables := push (cur_variables st) (mk s o);
          currentSlot := s + 1; currentOffset := 0 |}
  else {| cur_variables := push (cur_variables st) (mk s o);
          currentSlot := s; currentOffset := o + sz |}.

(** Everything the placement loop maintains. *)
Record lay_invariant (st : Cursor) : Prop := {
  li_cursor : 0 <= currentSlot st /\ 0 <= currentOffset st <= 31;
  li_range :
    forall v, In v (cur_variables st) ->
      0 <= slot v /\ 0 <= offset v /\ 1 <= size v /\ offset v + size v <= 32;
  li_before :
    forall v, In v (cur_variables st) ->
      slot v < currentSlot st
      \/ (slot v = currentSlot st /\ offset v + size v <= currentOffset st);
  li_disjoint :
    forall a b, In a (cur_variables st) -> In b (cur_variables st) ->
      slot a = slot b -> overlap a b -> a = b;
  li_bound : forall s, sumSizes (occupants (cur_variables st) s) <= 32;
  li_current :
    sumSizes (occupants (cur_variables st) (currentSlot st)) = currentOffset st;
  li_beyond :
    forall s, currentSlot st < s -> sumSizes (occupants (cur_variables st) s) = 0;
  li_total :
    slotCount (cur_variables st) =
    if currentOffset st =? 0 then currentSlot st else currentSlot st + 1;
  li_nogap :
    forall s, 0 <= s < slotCount (cur_variables st) ->
      exists v, In v (cur_variables st) /\ slot v = s;
  li_sum : sumSizes (cur_variables st) <= 32 * currentSlot st + currentOffset st;
  li_count :
    slotCount (cur_variables st) <= Z.of_nat (List.length (cur_variables st))
    /\ Z.of_nat (List.length (cur_variables st)) <= sumSizes (cur_variables st);
  li_tight : tight (cur_variables st);
  li_packed :
    Forall (fun v => packed v = Some (size v <? 32)) (cur_variables st)
}.

(** One round of the loop shared by [groupVariablesBySlot] and
    [occupancy]. *)
Definition group_step (groups : Occupancy) (v : StorageVariable) : Occupancy :=
  let groups := if negb (map_has Z.eqb groups (slot v))
                then map_set Z.eqb groups (slot v) []
                else groups in
  map_set Z.eqb groups (slot v) (push (occ_get groups (slot v)) v).

(** What the last loop of [identifyChanges] pushes for one entry of
    [v2NameMap]. *)
Definition typeChangesFor (v1NameMap : JsMap (K := string) (V := StorageVariable))
    (entry : string * StorageVariable) : list UpgradeChange :=
  match map_get String.eqb v1NameMap (fst entry) with
  | Some v1Var =>
      if negb (String.eqb (vtype v1Var) (vtype (snd entry)))
      then [typeChange (fst entry) v1Var (snd entry)]
      else []
  | None => []
  end.

(* ================================================================= *)
(** ** Loops and maps *)

Lemma forEach_push_last {A S : Type} (body : S -> A -> S) (xs : list A) (x : A) (s : S) :
  forEach (push xs x) body s = body (forEach xs body s) x.
Proof. unfold forEach, push. now rewrite fold_left_app. Qed.

Lemma forEach_invariant {A S : Type} (P : S -> Prop) (body : S -> A -> S) :
  (forall s x, P s -> P (body s x)) ->
  forall xs s, P s -> P (forEach xs body s).
Proof.
  intros Hstep xs. unfold forEach.
  induction xs as [|x xs IH]; intros s Hs; simpl; auto.
Qed.

Lemma sumSizes_push (l : list StorageVariable) (x : StorageVariable) :
  sumSizes (push l x) = sumSizes l + size x.
Proof. unfold sumSizes, push. now rewrite fold_left_app. Qed.

Lemma occupants_push (l : list StorageVariable) (x : StorageVariable) (s : Z) :
  occupants (push l x) s =
  if slot x =? s then push (occupants l s) x else occupants l s.
Proof.
  unfold occupants, push. rewrite filter_app. simpl.
  destruct (slot x =? s); auto using app_nil_r.
Qed.

Lemma bytes_push (l : list StorageVariable) (x : StorageVariable) (s : Z) :
  sumSizes (occupants (push l x) s) =
  sumSizes (occupants l s) + (if slot x =? s then size x else 0).
Proof.
  rewrite occupants_push. destruct (slot x =? s).
  - apply sumSizes_push.
  - lia.
Qed.

(* ================================================================= *)
(** ** Facts about [JsMap] *)

Section JsMapFacts.
Context {K V : Type} (keq : K -> K -> bool).
Hypothesis keq_eq : forall a b, keq a b = true <-> a = b.

Lemma keq_refl (k : K) : keq k k = true.
Proof. now apply keq_eq. Qed.

Lemma keq_neq (a b : K) : a <> b -> keq a b = false.
Proof.
  intros Hne. destruct (keq a b) eqn:E; auto.
  apply keq_eq in E. contradiction.
Qed.

Lemma map_get_set_same (m : JsMap) (k : K) (v : V) :
  map_get keq (map_set keq m k v) k = Some v.
Proof.
  induction m as [|[k' v'] m IH]; simpl.
  - now rewrite keq_refl.
  - destruct (keq k' k) eqn:E; simpl; rewrite E; auto.
Qed.

Lemma map_get_set_other (m : JsMap) (k k2 : K) (v : V) :
  k <> k2 -> map_get keq (map_set keq m k v) k2 = map_get keq m k2.
Proof.
  intros Hne. induction m as [|[k' v'] m IH]; simpl.
  - now rewrite keq_neq.
  - destruct (keq k' k) eqn:E; simpl.
    + apply keq_eq in E; subst k'. now rewrite keq_neq.
    + destruct (keq k' k2); auto.
Qed.

Lemma map_get_In (m : JsMap (K := K) (V := V)) (k : K) (v : V) :
  map_get keq m k = Some v -> In (k, v) m.
Proof.
  induction m as [|[k' v'] m IH]; simpl; [discriminate|].
  destruct (keq k' k) eqn:E.
  - apply keq_eq in E; subst. intros [= ->]. now left.
  - auto.
Qed.

Lemma map_get_None (m : JsMap (K := K) (V := V)) (k : K) :
  map_get keq m k = None <-> ~ In k (map_keys m).
Proof.
  induction m as [|[k' v'] m IH]; simpl.
  - tauto.
  - destruct (keq k' k) eqn:E.
    + apply keq_eq in E. split; [discriminate|tauto].
    + rewrite IH. split.
      * intros Hn [->|Hin]; [|tauto]. now rewrite keq_refl in E.
      * tauto.
Qed.

Lemma map_set_fresh (m : JsMap) (k : K) (v : V) :
  ~ In k (map_keys m) -> map_set keq m k v = m ++ [(k, v)].
Proof.
  induction m as [|[k' v'] m IH]; simpl; intros Hn; auto.
  rewrite keq_neq by tauto. f_equal. apply IH. tauto.
Qed.

Lemma map_set_keys (m : JsMap) (k : K) (v : V) :
  map_keys (map_set keq m k v) =
  if map_has keq m k then map_keys m else map_keys m ++ [k].
Proof.
  unfold map_has.
  induction m as [|[k' v'] m IH]; simpl; auto.
  destruct (keq k' k) eqn:E; simpl; auto.
  rewrite IH. now destruct (map_get keq m k).
Qed.

Lemma map_set_NoDup (m : JsMap) (k : K) (v : V) :
  NoDup (map_keys m) -> NoDup (map_keys (map_set keq m k v)).
Proof.
  intros Hnd. rewrite map_set_keys. unfold map_has.
  destruct (map_get keq m k) eqn:E; auto.
  apply map_get_None in E.
  apply NoDup_app; repeat split; auto.
  - constructor; [intros []|constructor].
  - intros x Hx [<-|[]]. contradiction.
Qed.

Lemma map_of_entries_NoDup (entries : list (K * V)) :
  NoDup (map_keys (map_of_entries keq entries)).
Proof.
  unfold map_of_entries. apply forEach_invariant.
  - intros m e. apply map_set_NoDup.
  - constructor.
Qed.

Lemma In_map_get (m : JsMap (K := K) (V := V)) (k : K) (v : V) :
  NoDup (map_keys m) -> In (k, v) m -> map_get keq m k = Some v.
Proof.
  induction m as [|[k' v'] m IH]; simpl; intros Hnd Hin; [contradiction|].
  inversion Hnd as [|? ? Hnotin Hnd']; subst.
  destruct Hin as [[= -> ->]|Hin].
  - now rewrite keq_refl.
  - rewrite keq_neq; auto.
    intros ->. apply Hnotin. apply (in_map fst _ _ Hin).
Qed.

Lemma map_get_app (m1 m2 : JsMap (K := K) (V := V)) (k : K) :
  map_get keq (m1 ++ m2) k =
  match map_get keq m1 k with
  | Some v => Some v
  | None => map_get keq m2 k
  end.
Proof.
  induction m1 as [|[k' v'] m1 IH]; simpl; auto.
  destruct (keq k' k); auto.
Qed.
End JsMapFacts.

Lemma forEach_unchanged {A S : Type} (body : S -> A -> S) (xs : list A) (s : S) :
  (forall x, In x xs -> body s x = s) -> forEach xs body s = s.
Proof.
  unfold forEach. induction xs as [|x xs IH]; simpl; intros H; auto.
  rewrite (H x) by now left. apply IH. intros y Hy. apply H. now right.
Qed.

(* ================================================================= *)
(** ** The layout calculator *)

Lemma or_default_range (m : list (string * Z)) (k : string) :
  Forall (fun e => 1 <= snd e <= 32) m ->
  1 <= or_default (map_get String.eqb m k) 32 <= 32.
Proof.
  induction 1 as [|[k' n] m Hn _ IH]; simpl.
  - lia.
  - destruct (String.eqb k' k); auto.
    simpl in *. destruct (Z.eqb_spec n 0); lia.
Qed.

Lemma getTypeSize_plain_range (t : string) : 1 <= getTypeSize_plain t <= 32.
Proof.
  unfold getTypeSize_plain.
  destruct (includes t "[]"); [lia|].
  destruct (includes t "mapping"); [lia|].
  apply or_default_range. unfold sizeMap.
  repeat (constructor; [simpl; lia|]). constructor.
Qed.

Lemma layout_invariant_start : layout_invariant cursor0.
Proof.
  constructor; simpl.
  - lia.
  - intros s. cbv. discriminate.
  - reflexivity.
  - reflexivity.
  - constructor.
Qed.

(** Closes a goal about the bytes of a slot after one more [push]. *)
Ltac after_push Hbound Hbeyond :=
  intros; rewrite bytes_push; simpl;
  match goal with |- context [?a =? ?b] => destruct (Z.eqb_spec a b) end;
  subst;
  try (rewrite Hbeyond by lia);
  try match goal with
      | |- context [sumSizes (occupants _ ?s)] => pose proof (Hbound s)
      end;
  lia.

Lemma place_invariant (st : Cursor) (variable : StateVariable) :
  layout_invariant st -> layout_invariant (place_plain st variable).
Proof.
  intros [Hoff Hbound Hcur Hbeyond Hpacked].
  pose proof (getTypeSize_plain_range (typeName variable)) as Hsize.
  unfold place_plain.
  set (sz := getTypeSize_plain (typeName variable)) in *.
  destruct (Z.gtb_spec (currentOffset st + sz) 32) as [Hgt|Hle].
  - (* the variable opens the next slot *)
    rewrite Z.add_0_l.
    destruct (Z.geb_spec sz 32) as [Hfull|Hpart]; constructor; simpl;
      try lia; try after_push Hbound Hbeyond.
    all: apply Forall_app; split; auto; repeat constructor.
  - (* the variable fits behind the cursor *)
    destruct (Z.geb_spec (currentOffset st + sz) 32) as [Hfull|Hpart];
      constructor; simpl; try lia; try after_push Hbound Hbeyond.
    all: apply Forall_app; split; auto; repeat constructor; simpl; f_equal.
    all: destruct (Z.gtb_spec (currentOffset st) 0);
      destruct (Z.ltb_spec (currentOffset st + sz) 32);
      destruct (Z.ltb_spec sz 32); simpl; lia.
Qed.

Lemma calculateSlots_invariant (contract : ContractAST) :
  layout_invariant (forEach (stateVariables contract) place_plain cursor0).
Proof.
  apply forEach_invariant.
  - intros s x. apply place_invariant.
  - apply layout_invariant_start.
Qed.

(** [calculateSlots] places every declared variable, in declaration order,
    whatever its flags and whatever its type. *)
Lemma calculateSlots_names (contract : ContractAST) :
  map rname (rvariables (calculateSlots contract)) =
  map decl_name (stateVariables contract).
Proof.
  unfold calculateSlots; simpl.
  assert (H : forall vars st,
             map rname (rc_variables (forEach vars place st)) =
             map rname (rc_variables st) ++ map decl_name vars).
  { unfold forEach.
    induction vars as [|v vars IH]; intros st; simpl.
    - now rewrite app_nil_r.
    - rewrite IH.
      replace (map rname (rc_variables (place st v)))
        with (map rname (rc_variables st) ++ [decl_name v]).
      + now rewrite <- app_assoc.
      + unfold place, push.
        destruct (greater _ _); simpl; destruct (at_least _ _); simpl;
          now rewrite map_app. }
  apply (H _ run_cursor0).
Qed.

(** C1. For the contract declaring, in order, [uint256 value; address
    owner; bool isActive; uint8 smallNumber;], [calculateSlots] puts [value]
    at slot 0 offset 0 with size 32, [owner] at slot 1 offset 0 with size
    20, [isActive] at slot 1 offset 20 with size 1 and [smallNumber] at
    slot 1 offset 21 with size 1; [totalSlots] is 2 and [packedSlots] is
    [[1]]. *)
Theorem calculateSlots_mockContract :
  map (fun v => (rname v, rslot v, roffset v, rsize v))
      (rvariables (calculateSlots mockContract))
    = [ ("value", 0, At 0, Bytes 32); ("owner", 1, At 0, Bytes 20);
        ("isActive", 1, At 20, Bytes 1); ("smallNumber", 1, At 21, Bytes 1) ]
  /\ rtotalSlots (calculateSlots mockContract) = 2
  /\ rpackedSlots (calculateSlots mockContract) = [1]
  /\ calculateSlots mockContract = run_mapping mockMapping.
Proof. repeat split; vm_compute; reflexivity. Qed.

(** In the mapping [calculateSlots_plain] returns for any contract, the
    sizes of the variables assigned to one slot add up to at most 32,
    whatever the slot. *)
Lemma plain_slot_bytes_le_32 (contract : ContractAST) (s : Z) :
  slot_bytes (calculateSlots_plain contract) s <= 32.
Proof.
  unfold slot_bytes, calculateSlots_plain; simpl.
  apply (inv_bound _ (calculateSlots_invariant contract)).
Qed.

(** In the mapping [calculateSlots_plain] returns for any contract, the
    [packed] flag of a variable is set exactly when its size is below 32
    bytes. *)
Lemma plain_packed_iff_small (contract : ContractAST) :
  Forall (fun v => packed v = Some true <-> size v < 32)
         (variables (calculateSlots_plain contract)).
Proof.
  unfold calculateSlots_plain; simpl.
  pose proof (inv_packed _ (calculateSlots_invariant contract)) as H.
  eapply Forall_impl; [|exact H].
  intros v Hv; simpl in Hv. rewrite Hv.
  destruct (Z.ltb_spec (size v) 32); split; intros; try lia; congruence.
Qed.

(** C9, evaluated on the code.  [calculateSlots] never reads [isConstant]
    or [isImmutable]: the constant [MAX] of [constantContract] is given slot
    0 and pushes the ordinary variable [total] to slot 1. *)
Theorem calculateSlots_assigns_constant :
  map isConstant (stateVariables constantContract) = [true; false]
  /\ map (fun v => (rname v, rslot v, roffset v, rsize v))
         (rvariables (calculateSlots constantContract))
       = [ ("MAX", 0, At 0, Bytes 32); ("total", 1, At 0, Bytes 32) ]
  /\ rtotalSlots (calculateSlots constantContract) = 2.
Proof. repeat split; vm_compute; reflexivity. Qed.

(* ================================================================= *)
(** ** The layout calculator: placements do not overlap *)

Lemma In_push {A : Type} (l : list A) (x y : A) :
  In y (push l x) <-> In y l \/ y = x.
Proof.
  unfold push. rewrite in_app_iff. simpl. intuition congruence.
Qed.

Lemma placement_invariant_start : placement_invariant cursor0.
Proof. constructor; simpl; try lia; intros; contradiction. Qed.

(** Settles one field of [placement_invariant] after a [push]: the old
    variables by the invariant before, the new one by computation. *)
Ltac old_or_new Hin :=
  apply In_push in Hin as [Hin | ->]; [|simpl; lia].

Lemma place_placement (st : Cursor) (variable : StateVariable) :
  placement_invariant st -> placement_invariant (place_plain st variable).
Proof.
  intros [Hcur Hrange Hbefore Hdisjoint].
  pose proof (getTypeSize_plain_range (typeName variable)) as Hsize.
  unfold place_plain.
  set (sz := getTypeSize_plain (typeName variable)) in *.
  destruct (Z.gtb_spec (currentOffset st + sz) 32) as [Hgt|Hle];
    [rewrite Z.add_0_l; destruct (Z.geb_spec sz 32) as [Hfull|Hpart]
    |destruct (Z.geb_spec (currentOffset st + sz) 32) as [Hfull|Hpart]];
    constructor; cbn [cur_variables currentSlot currentOffset]; try lia.
  all: try (intros v Hin; old_or_new Hin;
            try specialize (Hrange v Hin); try specialize (Hbefore v Hin); lia).
  all: intros a b Ha Hb Hs [Ho1 Ho2];
    apply In_push in Ha as [Ha | ->]; apply In_push in Hb as [Hb | ->];
    try reflexivity;
    [ apply Hdisjoint; auto; split; assumption
    | pose proof (Hbefore a Ha); simpl in *; lia
    | pose proof (Hbefore b Hb); simpl in *; lia ].
Qed.

Lemma calculateSlots_placement (contract : ContractAST) :
  placement_invariant (forEach (stateVariables contract) place_plain cursor0).
Proof.
  apply forEach_invariant.
  - intros s x. apply place_placement.
  - apply placement_invariant_start.
Qed.

(** Every variable [calculateSlots_plain] places lies within one slot: its slot
    is not negative, its offset is between 0 and 31, its size between 1 and
    32, and it ends at byte 32 at the latest. *)
Lemma plain_within_slot (contract : ContractAST) :
  Forall (fun v => 0 <= slot v /\ 0 <= offset v <= 31 /\ 1 <= size v <= 32
                   /\ offset v + size v <= 32)
         (variables (calculateSlots_plain contract)).
Proof.
  apply Forall_forall. intros v Hin.
  pose proof (pl_range _ (calculateSlots_placement contract) v Hin).
  lia.
Qed.

Lemma placement_overlap_free (st : Cursor) :
  placement_invariant st -> overlap_free (cur_variables st).
Proof.
  intros Hinv a b Ha Hb Hs Ho.
  rewrite (pl_disjoint _ Hinv a b Ha Hb Hs Ho).
  split; reflexivity.
Qed.

(** Two variables that [calculateSlots_plain] places in one slot never share a
    byte. *)
Lemma plain_overlap_free (contract : ContractAST) :
  overlap_free (variables (calculateSlots_plain contract)).
Proof. apply placement_overlap_free, calculateSlots_placement. Qed.

(* ================================================================= *)
(** ** Grouping variables by slot *)

Lemma groupVariablesBySlot_push (vars : list StorageVariable) (v : StorageVariable) :
  groupVariablesBySlot (push vars v) = group_step (groupVariablesBySlot vars) v.
Proof. unfold groupVariablesBySlot. now rewrite forEach_push_last. Qed.

Lemma occ_get_group_step (groups : Occupancy) (v : StorageVariable) (s : Z) :
  occ_get (group_step groups v) s =
  if slot v =? s then push (occ_get groups s) v else occ_get groups s.
Proof.
  unfold group_step, occ_get, map_has.
  destruct (Z.eqb_spec (slot v) s) as [->|Hne].
  - rewrite (map_get_set_same _ Z.eqb_eq).
    destruct (map_get Z.eqb groups s) eqn:E; simpl.
    + now rewrite E.
    + now rewrite (map_get_set_same _ Z.eqb_eq).
  - rewrite (map_get_set_other _ Z.eqb_eq) by assumption.
    destruct (map_get Z.eqb groups (slot v)); simpl; auto.
    now rewrite (map_get_set_other _ Z.eqb_eq) by assumption.
Qed.

Lemma group_step_NoDup (groups : Occupancy) (v : StorageVariable) :
  NoDup (map_keys groups) -> NoDup (map_keys (group_step groups v)).
Proof.
  intros H. unfold group_step.
  apply (map_set_NoDup _ Z.eqb_eq).
  destruct (negb _); auto. now apply (map_set_NoDup _ Z.eqb_eq).
Qed.

Lemma groupVariablesBySlot_NoDup (vars : list StorageVariable) :
  NoDup (map_keys (groupVariablesBySlot vars)).
Proof.
  unfold groupVariablesBySlot. apply forEach_invariant.
  - intros g v. apply group_step_NoDup.
  - constructor.
Qed.

(** Looking a slot up in the grouping gives the variables of that slot, in
    declaration order. *)
Lemma occ_get_groupVariablesBySlot (vars : list StorageVariable) (s : Z) :
  occ_get (groupVariablesBySlot vars) s = occupants vars s.
Proof.
  induction vars as [|v vars IH] using rev_ind.
  - reflexivity.
  - change (vars ++ [v]) with (push vars v).
    rewrite groupVariablesBySlot_push, occ_get_group_step, occupants_push, IH.
    reflexivity.
Qed.

Lemma groupVariablesBySlot_entries (vars : list StorageVariable)
    (s : Z) (group : list StorageVariable) :
  In (s, group) (groupVariablesBySlot vars) -> group = occupants vars s.
Proof.
  intros Hin.
  rewrite <- occ_get_groupVariablesBySlot. unfold occ_get.
  now rewrite (In_map_get _ Z.eqb_eq _ _ _ (groupVariablesBySlot_NoDup vars) Hin).
Qed.

Lemma occupancy_groups (m : SlotMapping) :
  occupancy m = groupVariablesBySlot (variables m).
Proof. reflexivity. Qed.

Lemma In_occupants (vars : list StorageVariable) (s : Z) (v : StorageVariable) :
  In v (occupants vars s) <-> In v vars /\ slot v = s.
Proof. unfold occupants. rewrite filter_In, Z.eqb_eq. tauto. Qed.

(* ================================================================= *)
(** ** The single-mapping detector *)

Lemma analyzeSlotCollision_none (s : Z) (group : list StorageVariable) :
  sumSizes group <= 32 -> analyzeSlotCollision s group = None.
Proof.
  intros H. unfold analyzeSlotCollision.
  destruct (_ <=? 1); auto.
  destruct (Z.gtb_spec (sumSizes group) 32); [lia|reflexivity].
Qed.

Lemma detect_bounded_slots (m : SlotMapping) :
  (forall s, slot_bytes m s <= 32) -> detect m = [].
Proof.
  intros Hbound. unfold detect.
  apply forEach_unchanged. intros [s group] Hin.
  apply groupVariablesBySlot_entries in Hin. subst group.
  rewrite analyzeSlotCollision_none by apply Hbound.
  now destruct (_ >? 1).
Qed.

(** Running the single-mapping detector on the mapping that
    [calculateSlots_plain] returns for any contract reports nothing. *)
Lemma plain_detect_empty (contract : ContractAST) :
  detect (calculateSlots_plain contract) = [].
Proof.
  apply detect_bounded_slots. intros s.
  unfold slot_bytes, calculateSlots_plain; simpl.
  apply (inv_bound _ (calculateSlots_invariant contract)).
Qed.

(* ================================================================= *)
(** ** The slot diff engine *)

Lemma In_occupancy (m : SlotMapping) (s : Z) (v : StorageVariable) :
  In v (occ_get (occupancy m) s) <-> In v (variables m) /\ slot v = s.
Proof.
  rewrite occupancy_groups, occ_get_groupVariablesBySlot. apply In_occupants.
Qed.

Lemma keyMap_NoDup (vars : list StorageVariable) : NoDup (map_keys (keyMap vars)).
Proof. apply (map_of_entries_NoDup _ String.eqb_eq). Qed.

(** A pair that does not overlap, or that is one identity, adds nothing. *)
Lemma checkPair_skip (movedKeys : list string) (s : Z)
    (cs : list Collision) (a b : StorageVariable) :
  (overlap a b -> same_identity a b) -> checkPair movedKeys s cs a b = cs.
Proof.
  intros H. unfold checkPair.
  destruct (_ || _); auto.
  destruct (Z.ltb_spec (offset a) (offset b + size b)); simpl; auto.
  destruct (Z.ltb_spec (offset b) (offset a + size a)); simpl; auto.
  destruct H as [Hn Ht]; [split; assumption|].
  rewrite Hn, Ht, !String.eqb_refl. reflexivity.
Qed.

Lemma scanSlot_skip (movedKeys : list string) (occ1 occ2 : Occupancy)
    (cs : list Collision) (s : Z) :
  (forall a b, In a (occ_get occ1 s) -> In b (occ_get occ2 s) ->
               overlap a b -> same_identity a b) ->
  scanSlot movedKeys occ1 occ2 cs s = cs.
Proof.
  intros H. unfold scanSlot.
  apply forEach_unchanged. intros a Ha.
  apply forEach_unchanged. intros b Hb.
  apply checkPair_skip. now apply H.
Qed.

Lemma scan_no_collision (movedKeys : list string) (v1 v2 : SlotMapping) (slots : list Z) :
  (forall a b, In a (variables v1) -> In b (variables v2) ->
               slot a = slot b -> overlap a b -> same_identity a b) ->
  forEach slots (scanSlot movedKeys (occupancy v1) (occupancy v2)) [] = [].
Proof.
  intros H. apply forEach_unchanged. intros s _.
  apply scanSlot_skip. intros a b Ha Hb.
  apply In_occupancy in Ha, Hb. destruct Ha as [Ha <-], Hb as [Hb Hs].
  now apply H.
Qed.

(** Against a second version that starts with the same key map, nothing of
    the first version is moved or removed. *)
Lemma classifyOld_prefix (keys extra : JsMap (K := string) (V := StorageVariable)) :
  NoDup (map_keys keys) -> classifyOld keys (keys ++ extra) = ([], []).
Proof.
  intros Hnd. unfold classifyOld.
  apply forEach_unchanged. intros [k var1] Hin.
  rewrite map_get_app, (In_map_get _ String.eqb_eq _ _ _ Hnd Hin).
  now rewrite !Z.eqb_refl.
Qed.

Lemma classifyNew_known (keys1 keys2 : JsMap (K := string) (V := StorageVariable))
    (acc : list StorageVariable) :
  (forall k, In k (map_keys keys2) -> In k (map_keys keys1)) ->
  forEach keys2
    (fun added '(k, var2) =>
       if negb (map_has String.eqb keys1 k) then push added var2 else added) acc
  = acc.
Proof.
  intros Hsub. apply forEach_unchanged. intros [k var2] Hin.
  unfold map_has. destruct (map_get String.eqb keys1 k) eqn:E; auto.
  apply (map_get_None _ String.eqb_eq) in E.
  exfalso. apply E, Hsub. apply (in_map fst _ _ Hin).
Qed.

Lemma classifyNew_fresh (keys1 extra : JsMap (K := string) (V := StorageVariable))
    (acc : list StorageVariable) :
  (forall k, In k (map_keys extra) -> ~ In k (map_keys keys1)) ->
  forEach extra
    (fun added '(k, var2) =>
       if negb (map_has String.eqb keys1 k) then push added var2 else added) acc
  = acc ++ map_values extra.
Proof.
  unfold forEach. revert acc.
  induction extra as [|[k v] extra IH]; intros acc Hfresh; simpl.
  - now rewrite app_nil_r.
  - assert (E : map_has String.eqb keys1 k = false).
    { unfold map_has.
      now rewrite (proj2 (map_get_None _ String.eqb_eq keys1 k) (Hfresh k (or_introl eq_refl))). }
    rewrite E; simpl. rewrite IH.
    + unfold push. now rewrite <- app_assoc.
    + intros k' Hk'. apply Hfresh. now right.
Qed.

Lemma classifyNew_prefix (keys extra : JsMap (K := string) (V := StorageVariable)) :
  (forall k, In k (map_keys extra) -> ~ In k (map_keys keys)) ->
  classifyNew keys (keys ++ extra) = map_values extra.
Proof.
  intros Hfresh. unfold classifyNew, forEach. rewrite fold_left_app.
  pose proof (classifyNew_known keys keys [] (fun k H => H)) as Hold.
  pose proof (classifyNew_fresh keys extra [] Hfresh) as Hnew.
  unfold forEach in Hold, Hnew. now rewrite Hold, Hnew.
Qed.

Lemma map_of_entries_keys {V : Type} (entries : list (string * V)) (k : string) :
  In k (map_keys (map_of_entries String.eqb entries)) -> In k (map fst entries).
Proof.
  induction entries as [|e entries IH] using rev_ind; simpl; auto.
  unfold map_of_entries.
  change (entries ++ [e]) with (push entries e).
  rewrite forEach_push_last.
  fold (map_of_entries String.eqb entries).
  rewrite map_set_keys. unfold push. rewrite map_app, in_app_iff.
  destruct (map_has _ _ _); [tauto|].
  rewrite in_app_iff. simpl. tauto.
Qed.

(** Entries under new, pairwise distinct keys are appended as they are. *)
Lemma map_of_entries_app_fresh {V : Type} (entries extra : list (string * V)) :
  (forall k, In k (map fst extra) -> ~ In k (map fst entries)) ->
  NoDup (map fst extra) ->
  map_of_entries String.eqb (entries ++ extra) =
  map_of_entries String.eqb entries ++ extra.
Proof.
  induction extra as [|e extra IH] using rev_ind; intros Hfresh Hnd.
  - now rewrite !app_nil_r.
  - rewrite map_app in Hnd. apply NoDup_app_remove_r in Hnd as Hnd'.
    rewrite app_assoc. unfold map_of_entries at 1.
    change ((entries ++ extra) ++ [e]) with (push (entries ++ extra) e).
    rewrite forEach_push_last.
    fold (map_of_entries String.eqb (entries ++ extra)).
    rewrite IH; auto.
    + rewrite (map_set_fresh _ String.eqb_eq).
      * destruct e. now rewrite <- app_assoc.
      * unfold map_keys. rewrite map_app, in_app_iff. intros [Hin|Hin].
        -- apply map_of_entries_keys in Hin.
           apply (Hfresh (fst e)); auto.
           rewrite map_app, in_app_iff. right. now left.
        -- apply NoDup_remove_2 in Hnd. rewrite app_nil_r in Hnd. auto.
    + intros k Hk. apply Hfresh. rewrite map_app, in_app_iff. now left.
Qed.

Lemma keyMap_app_fresh (vars extra : list StorageVariable) :
  (forall t a, In t extra -> In a vars -> byKey t <> byKey a) ->
  NoDup (map byKey extra) ->
  keyMap (vars ++ extra) = keyMap vars ++ map (fun v => (byKey v, v)) extra.
Proof.
  intros Hfresh Hnd. unfold keyMap. rewrite map_app.
  apply map_of_entries_app_fresh.
  - rewrite !map_map; simpl. intros k Hk Hk'.
    apply in_map_iff in Hk as [t [<- Ht]].
    apply in_map_iff in Hk' as [a [Heq Ha]].
    exact (Hfresh t a Ht Ha (eq_sym Heq)).
  - now rewrite map_map.
Qed.

Lemma keyMap_keys (vars : list StorageVariable) (k : string) :
  In k (map_keys (keyMap vars)) -> In k (map byKey vars).
Proof.
  intros H. apply map_of_entries_keys in H. now rewrite map_map in H.
Qed.

(** The report on a second version that lists the variables of the first
    and then [extra] ones, in other slots and under other keys. *)
Lemma compare_extension (v1 v2 : SlotMapping) (extra : list StorageVariable) :
  variables v2 = variables v1 ++ extra ->
  (forall t a, In t extra -> In a (variables v1) -> slot t <> slot a) ->
  (forall t a, In t extra -> In a (variables v1) -> byKey t <> byKey a) ->
  NoDup (map byKey extra) ->
  overlap_free (variables v1) ->
  compare v1 v2 =
  {| contract := contractName v1; collisions := []; moved := [];
     added := extra; removed := []; safe := true |}.
Proof.
  intros Hvars Hslots Hkeys Hnd Hfree.
  unfold compare. rewrite Hvars, keyMap_app_fresh by assumption.
  rewrite classifyOld_prefix by apply keyMap_NoDup.
  rewrite classifyNew_prefix.
  - rewrite scan_no_collision.
    + unfold map_values. rewrite map_map; simpl. now rewrite map_id.
    + intros a b Ha Hb Hs. rewrite Hvars in Hb.
      apply in_app_iff in Hb as [Hb|Hb].
      * now apply Hfree.
      * exfalso. exact (Hslots b a Hb Ha (eq_sym Hs)).
  - unfold map_keys. rewrite map_map; simpl. intros k Hk Hk'.
    apply keyMap_keys in Hk'.
    apply in_map_iff in Hk as [t [<- Ht]].
    apply in_map_iff in Hk' as [a [Heq Ha]].
    exact (Hkeys t a Ht Ha (eq_sym Heq)).
Qed.

(** C3, as the code has it.  Comparing a mapping with itself reports no
    moved, added or removed variable, no collision and [safe = true],
    provided no two variables of the mapping that differ in name or type
    share bytes of a slot. *)
Theorem compare_self_safe (M : SlotMapping) :
  overlap_free (variables M) ->
  safe (compare M M) = true
  /\ collisions (compare M M) = []
  /\ moved (compare M M) = []
  /\ added (compare M M) = []
  /\ removed (compare M M) = [].
Proof.
  intros Hfree.
  rewrite (compare_extension M M []).
  - repeat split.
  - now rewrite app_nil_r.
  - intros t a [].
  - intros t a [].
  - constructor.
  - assumption.
Qed.

(** C3 fails on a mapping whose own variables overlap: [x] and [y] of
    [overlappingMapping] share bytes 8 to 15 of slot 0, and comparing the
    mapping with itself reports each against the other. *)
Lemma compare_self_overlapping :
  safe (compare overlappingMapping overlappingMapping) = false
  /\ map (fun c => (vname (c_v1 c), vname (c_v2 c), range c))
         (collisions (compare overlappingMapping overlappingMapping))
       = [ ("x", "y", (8, 15)); ("y", "x", (8, 15)) ].
Proof. split; vm_compute; reflexivity. Qed.

(** C4, as the code has it.  When the second version lists the variables of
    the first and then further ones that lie in slots the first version
    leaves empty and carry keys that are new and pairwise distinct, and no
    two variables of the first version that differ in name or type share
    bytes, the report is safe, with nothing moved, collided or removed, and
    the further variables are the added ones. *)
Theorem compare_append_safe (v1 v2 : SlotMapping) (extra : list StorageVariable) :
  variables v2 = variables v1 ++ extra ->
  (forall t a, In t extra -> In a (variables v1) -> slot t <> slot a) ->
  (forall t a, In t extra -> In a (variables v1) -> byKey t <> byKey a) ->
  NoDup (map byKey extra) ->
  overlap_free (variables v1) ->
  safe (compare v1 v2) = true
  /\ moved (compare v1 v2) = []
  /\ collisions (compare v1 v2) = []
  /\ added (compare v1 v2) = extra
  /\ removed (compare v1 v2) = [].
Proof.
  intros Hvars Hslots Hkeys Hnd Hfree.
  rewrite (compare_extension v1 v2 extra) by assumption.
  repeat split.
Qed.

(** Decides a goal [overlap_free vars] for an explicit list [vars]. *)
Ltac check_overlap_free :=
  let a := fresh "a" in let b := fresh "b" in
  let Ha := fresh "Ha" in let Hb := fresh "Hb" in
  let Hs := fresh "Hs" in let Ho := fresh "Ho" in
  intros a b Ha Hb Hs Ho; simpl in Ha, Hb;
  repeat (destruct Ha as [<-|Ha]); try contradiction;
  repeat (destruct Hb as [<-|Hb]); try contradiction;
  first [ split; reflexivity
        | simpl in Hs; discriminate
        | unfold overlap in Ho; simpl in Ho; lia ].

(** [ownerValue], whose two variables lie in different slots, compared with
    itself. *)
Lemma compare_self_safe_witness :
  overlap_free (variables ownerValue)
  /\ safe (compare ownerValue ownerValue) = true
  /\ collisions (compare ownerValue ownerValue) = []
  /\ moved (compare ownerValue ownerValue) = []
  /\ added (compare ownerValue ownerValue) = []
  /\ removed (compare ownerValue ownerValue) = [].
Proof.
  assert (H : overlap_free (variables ownerValue)) by check_overlap_free.
  split; [exact H | exact (compare_self_safe ownerValue H)].
Defined.

(** [ownerValue] extended by [newVar] in slot 2. *)
Lemma compare_append_safe_witness :
  variables ownerValueNewVar = variables ownerValue ++ [newVar]
  /\ safe (compare ownerValue ownerValueNewVar) = true
  /\ moved (compare ownerValue ownerValueNewVar) = []
  /\ collisions (compare ownerValue ownerValueNewVar) = []
  /\ added (compare ownerValue ownerValueNewVar) = [newVar]
  /\ removed (compare ownerValue ownerValueNewVar) = [].
Proof.
  split; [reflexivity|].
  apply (compare_append_safe ownerValue ownerValueNewVar [newVar]).
  - reflexivity.
  - intros t a [<-|[]] [<-|[<-|[]]]; simpl; discriminate.
  - intros t a [<-|[]] [<-|[<-|[]]]; vm_compute; discriminate.
  - repeat constructor; simpl; tauto.
  - check_overlap_free.
Defined.

(** C4 fails in three ways.  The first version may overlap within itself:
    [overlappingAppended] only adds [z] in slot 1, yet [x] and [y] collide.
    A trailing variable may repeat the name and type of an old one:
    [redeclared] adds a second [a] in slot 1 and the report calls [a] moved.
    Trailing variables may repeat each other: of the [twins] only the
    second is reported as added. *)
Lemma compare_append_unsafe :
  (variables overlappingAppended
     = variables overlappingMapping ++ [stored "z" "uint256" 1 0 32]
   /\ Forall (fun a => slot a <> 1) (variables overlappingMapping)
   /\ safe (compare overlappingMapping overlappingAppended) = false
   /\ List.length (collisions (compare overlappingMapping overlappingAppended)) = 2%nat)
  /\ (variables redeclared = variables single ++ [stored "a" "uint256" 1 0 32]
      /\ Forall (fun a => slot a <> 1) (variables single)
      /\ safe (compare single redeclared) = false
      /\ moved (compare single redeclared) = [stored "a" "uint256" 1 0 32])
  /\ (variables (extend emptyMapping twins 2) = variables emptyMapping ++ twins
      /\ safe (compare emptyMapping (extend emptyMapping twins 2)) = true
      /\ added (compare emptyMapping (extend emptyMapping twins 2))
           = [stored "z" "uint256" 1 0 32]).
Proof.
  repeat split; try (vm_compute; reflexivity);
    repeat constructor; simpl; discriminate.
Qed.

(** Swapping the two variables of [ownerValue] moves both: the report lists
    two moved variables, no collision, and is not safe. *)
Theorem compare_swapped :
  moved (compare ownerValue valueOwner)
    = [ stored "owner" "address" 1 0 20; stored "value" "uint256" 0 0 32 ]
  /\ collisions (compare ownerValue valueOwner) = []
  /\ added (compare ownerValue valueOwner) = []
  /\ removed (compare ownerValue valueOwner) = []
  /\ safe (compare ownerValue valueOwner) = false.
Proof. repeat split; vm_compute; reflexivity. Qed.

(** A report is safe exactly when it lists no moved variable and no
    collision; added and removed variables leave it safe. *)
Theorem compare_safe_iff (v1 v2 : SlotMapping) :
  safe (compare v1 v2) = true
  <-> moved (compare v1 v2) = [] /\ collisions (compare v1 v2) = [].
Proof.
  unfold compare.
  destruct (classifyOld (keyMap (variables v1)) (keyMap (variables v2))) as [mv rm].
  cbn [safe moved collisions].
  set (cs := forEach _ _ _).
  destruct mv as [|m mv], cs as [|c cs]; cbn [List.length]; split;
    try (intros [H1 H2]; discriminate); try (intros H; discriminate);
    try (split; reflexivity); try reflexivity.
  all: rewrite ?Nat2Z.inj_succ;
    destruct (Z.ltb_spec 0 (Z.succ (Z.of_nat (List.length mv))));
    destruct (Z.ltb_spec 0 (Z.succ (Z.of_nat (List.length cs))));
    simpl; try discriminate; lia.
Qed.

(* ================================================================= *)
(** ** The slot diff engine: when a collision is reported *)

Lemma forEach_reaches {A S : Type} (P : S -> Prop) (body : S -> A -> S)
    (xs : list A) (x : A) :
  In x xs ->
  (forall s, P (body s x)) ->
  (forall s y, P s -> P (body s y)) ->
  forall s, P (forEach xs body s).
Proof.
  intros Hin Hx Hkeep. unfold forEach.
  induction xs as [|y xs IH]; intros s; simpl; [contradiction|].
  destruct Hin as [->|Hin].
  - apply (forEach_invariant P body Hkeep). apply Hx.
  - now apply IH.
Qed.

Lemma In_insert_sorted (k x : Z) (ks : list Z) :
  In x (insert_sorted k ks) <-> x = k \/ In x ks.
Proof.
  induction ks as [|k' ks IH]; simpl.
  - intuition.
  - destruct (k <=? k'); simpl; rewrite ?IH; intuition.
Qed.

Lemma In_sort_ascending (x : Z) (ks : list Z) :
  In x (sort_ascending ks) <-> In x ks.
Proof.
  induction ks as [|k ks IH]; simpl; [tauto|].
  rewrite In_insert_sorted, IH. intuition.
Qed.

(** [Object.keys] reorders the keys and loses none. *)
Lemma In_Object_keys (occ : Occupancy) (s : Z) :
  In s (Object_keys occ) <-> In s (map_keys occ).
Proof.
  unfold Object_keys. rewrite in_app_iff, In_sort_ascending, !filter_In.
  destruct (is_array_index s); simpl; intuition discriminate.
Qed.

Lemma In_set_add (s : list Z) (x y : Z) :
  In y (set_add Z.eqb s x) <-> In y s \/ y = x.
Proof.
  unfold set_add, set_has.
  destruct (existsb (Z.eqb x) s) eqn:E.
  - apply existsb_exists in E as [z [Hz Hxz]]. apply Z.eqb_eq in Hxz. subst z.
    intuition congruence.
  - apply In_push.
Qed.

Lemma In_set_of_list (xs : list Z) (y : Z) :
  In y (set_of_list Z.eqb xs) <-> In y xs.
Proof.
  induction xs as [|x xs IH] using rev_ind.
  - reflexivity.
  - unfold set_of_list. change (xs ++ [x]) with (push xs x).
    rewrite forEach_push_last. fold (set_of_list Z.eqb xs).
    now rewrite In_set_add, IH, In_push.
Qed.

Lemma occ_get_key (occ : Occupancy) (s : Z) (v : StorageVariable) :
  In v (occ_get occ s) -> In s (map_keys occ).
Proof.
  unfold occ_get. destruct (map_get Z.eqb occ s) as [l|] eqn:E; [|contradiction].
  intros _. apply (map_get_In _ Z.eqb_eq) in E. apply (in_map fst _ _ E).
Qed.

Lemma checkPair_keeps (movedKeys : list string) (s : Z)
    (cs : list Collision) (a b : StorageVariable) :
  cs <> [] -> checkPair movedKeys s cs a b <> [].
Proof.
  intros H. unfold checkPair, push.
  destruct (_ || _); auto. destruct (_ && _); auto. destruct (_ || _); auto.
  intros E. apply app_eq_nil in E as [E _]. contradiction.
Qed.

(** With no moved key, an overlapping pair of different identity is
    reported. *)
Lemma checkPair_reports (s : Z) (cs : list Collision) (a b : StorageVariable) :
  overlap a b -> ~ same_identity a b -> checkPair [] s cs a b <> [].
Proof.
  intros [Ho1 Ho2] Hdiff. unfold checkPair, push; simpl.
  destruct (Z.ltb_spec (offset a) (offset b + size b)); [|lia].
  destruct (Z.ltb_spec (offset b) (offset a + size a)); [|lia].
  simpl.
  destruct (String.eqb_spec (vname a) (vname b)) as [Hn|Hn];
    destruct (String.eqb_spec (vtype a) (vtype b)) as [Ht|Ht]; simpl;
    try (intros E; apply app_eq_nil in E as [_ E]; discriminate).
  exfalso. apply Hdiff. split; assumption.
Qed.

Lemma scanSlot_keeps (movedKeys : list string) (occ1 occ2 : Occupancy)
    (cs : list Collision) (s : Z) :
  cs <> [] -> scanSlot movedKeys occ1 occ2 cs s <> [].
Proof.
  intros H. unfold scanSlot.
  apply (forEach_invariant (fun cs => cs <> [])); [|exact H].
  intros cs' a H'. apply (forEach_invariant (fun cs => cs <> [])); [|exact H'].
  intros cs'' b. apply checkPair_keeps.
Qed.

Lemma scanSlot_reports (occ1 occ2 : Occupancy) (cs : list Collision) (s : Z)
    (a b : StorageVariable) :
  In a (occ_get occ1 s) -> In b (occ_get occ2 s) ->
  overlap a b -> ~ same_identity a b ->
  scanSlot [] occ1 occ2 cs s <> [].
Proof.
  intros Ha Hb Ho Hdiff. unfold scanSlot.
  apply (forEach_reaches (fun cs => cs <> []) _ _ a Ha).
  - intros cs'. apply (forEach_reaches (fun cs => cs <> []) _ _ b Hb).
    + intros cs''. now apply checkPair_reports.
    + intros cs'' y. apply checkPair_keeps.
  - intros cs' y H'. apply (forEach_invariant (fun cs => cs <> [])); [|exact H'].
    intros cs'' z. apply checkPair_keeps.
Qed.

Lemma same_identity_dec (a b : StorageVariable) :
  {same_identity a b} + {~ same_identity a b}.
Proof.
  unfold same_identity.
  destruct (string_dec (vname a) (vname b)); [|right; tauto].
  destruct (string_dec (vtype a) (vtype b)); [left|right]; tauto.
Qed.

Lemma compare_self_report (M : SlotMapping) :
  moved (compare M M) = [] /\ added (compare M M) = [] /\ removed (compare M M) = []
  /\ collisions (compare M M) =
       forEach (set_of_list Z.eqb (Object_keys (occupancy M) ++ Object_keys (occupancy M)))
               (scanSlot [] (occupancy M) (occupancy M)) [].
Proof.
  unfold compare.
  pose proof (classifyOld_prefix (keyMap (variables M)) [] (keyMap_NoDup _)) as Hold.
  pose proof (classifyNew_prefix (keyMap (variables M)) [] (fun k (H : In k []) => match H with end)) as Hnew.
  rewrite app_nil_r in Hold, Hnew. rewrite Hold, Hnew.
  repeat split.
Qed.

(** Comparing a mapping with itself reports a collision exactly when two
    of its variables that differ in name or type share bytes of a slot;
    nothing is ever moved, added or removed. *)
Theorem compare_self_collisions_iff (M : SlotMapping) :
  (collisions (compare M M) = [] <-> overlap_free (variables M))
  /\ moved (compare M M) = []
  /\ added (compare M M) = []
  /\ removed (compare M M) = [].
Proof.
  destruct (compare_self_report M) as (Hm & Ha & Hr & Hc).
  split; [split|auto].
  - intros Hnone a b Hina Hinb Hs Ho.
    destruct (same_identity_dec a b) as [|Hdiff]; [assumption|].
    exfalso. revert Hnone. rewrite Hc.
    assert (Ha' : In a (occ_get (occupancy M) (slot a))) by now apply In_occupancy.
    assert (Hb' : In b (occ_get (occupancy M) (slot a))) by now apply In_occupancy.
    apply (forEach_reaches (fun cs => cs <> []) _ _ (slot a)).
    + apply In_set_of_list, in_app_iff. left.
      apply In_Object_keys. exact (occ_get_key _ _ _ Ha').
    + intros cs. exact (scanSlot_reports _ _ cs _ a b Ha' Hb' Ho Hdiff).
    + intros cs s. apply scanSlot_keeps.
  - intros Hfree. rewrite Hc. apply scan_no_collision.
    intros a b Hina Hinb Hs Ho. now apply Hfree.
Qed.

(* ================================================================= *)
(** ** Layouts of the calculator under the diff engine *)

(** Comparing the layout of a contract with itself is safe and reports no
    change of any kind. *)
Lemma plain_compare_self (contract : ContractAST) :
  compare (calculateSlots_plain contract) (calculateSlots_plain contract) =
  {| contract := name contract; collisions := []; moved := [];
     added := []; removed := []; safe := true |}.
Proof.
  rewrite (compare_extension _ _ []).
  - reflexivity.
  - now rewrite app_nil_r.
  - intros t a [].
  - intros t a [].
  - constructor.
  - apply placement_overlap_free, calculateSlots_placement.
Qed.

(* ================================================================= *)
(** ** The upgrade analyzer: the list of changes *)

Lemma forEach_push_map {A B : Type} (f : A -> B) (xs : list A) (init : list B) :
  forEach xs (fun acc x => push acc (f x)) init = init ++ map f xs.
Proof.
  unfold forEach, push. revert init.
  induction xs as [|x xs IH]; intros init; simpl.
  - now rewrite app_nil_r.
  - rewrite IH. now rewrite <- app_assoc.
Qed.

Lemma forEach_flat_map {A B : Type} (g : A -> list B) (body : list B -> A -> list B)
    (xs : list A) (init : list B) :
  (forall acc x, body acc x = acc ++ g x) ->
  forEach xs body init = init ++ flat_map g xs.
Proof.
  intros Hbody. unfold forEach. revert init.
  induction xs as [|x xs IH]; intros init; simpl.
  - now rewrite app_nil_r.
  - rewrite IH, Hbody. now rewrite <- app_assoc.
Qed.

Lemma identifyChanges_shape (v1 v2 : SlotMapping) (r : CollisionReport) :
  identifyChanges v1 v2 r =
  map collisionChange (collisions r)
  ++ map (fun v => movedChange (map_get String.eqb (keyMap (variables v1)) (byKey v)) v)
         (moved r)
  ++ map removedChange (removed r)
  ++ map addedChange (added r)
  ++ flat_map (typeChangesFor (nameMap (variables v1))) (nameMap (variables v2)).
Proof.
  unfold identifyChanges.
  rewrite (forEach_flat_map (typeChangesFor (nameMap (variables v1)))).
  - rewrite !forEach_push_map. simpl. now rewrite <- !app_assoc.
  - intros acc [n v2Var]. unfold typeChangesFor, push; simpl.
    destruct (map_get String.eqb (nameMap (variables v1)) n); [|now rewrite app_nil_r].
    destruct (negb _); [reflexivity|now rewrite app_nil_r].
Qed.

Lemma named_push (vars : list StorageVariable) (x : StorageVariable) (n : string) :
  named (vars ++ [x]) n = if String.eqb (vname x) n then Some x else named vars n.
Proof. unfold named. rewrite rev_app_distr. reflexivity. Qed.

(** The name map holds, under each name, the last variable declared with
    it. *)
Lemma nameMap_get (vars : list StorageVariable) (n : string) :
  map_get String.eqb (nameMap vars) n = named vars n.
Proof.
  induction vars as [|x vars IH] using rev_ind.
  - reflexivity.
  - rewrite named_push, <- IH. unfold nameMap, map_of_entries.
    rewrite map_app. simpl map.
    change (map (fun v => (vname v, v)) vars ++ [(vname x, x)])
      with (push (map (fun v => (vname v, v)) vars) (vname x, x)).
    rewrite forEach_push_last. simpl.
    destruct (String.eqb_spec (vname x) n) as [<-|Hne].
    + apply (map_get_set_same _ String.eqb_eq).
    + now apply (map_get_set_other _ String.eqb_eq).
Qed.

Lemma nameMap_NoDup (vars : list StorageVariable) : NoDup (map_keys (nameMap vars)).
Proof. apply (map_of_entries_NoDup _ String.eqb_eq). Qed.

Lemma nameMap_entry (vars : list StorageVariable) (n : string) (v : StorageVariable) :
  In (n, v) (nameMap vars) <-> named vars n = Some v.
Proof.
  rewrite <- nameMap_get. split.
  - apply (In_map_get _ String.eqb_eq), nameMap_NoDup.
  - apply (map_get_In _ String.eqb_eq).
Qed.

Lemma named_name (vars : list StorageVariable) (n : string) (v : StorageVariable) :
  named vars n = Some v -> vname v = n.
Proof.
  unfold named. intros H. apply find_some in H as [_ H].
  now apply String.eqb_eq.
Qed.

Lemma typeChangesFor_In (v1 v2 : SlotMapping) (c : UpgradeChange) :
  In c (flat_map (typeChangesFor (nameMap (variables v1))) (nameMap (variables v2)))
  <-> exists a b,
        named (variables v1) (vname b) = Some a
        /\ named (variables v2) (vname b) = Some b
        /\ vtype a <> vtype b
        /\ c = typeChange (vname b) a b.
Proof.
  rewrite in_flat_map. split.
  - intros [[n b] [Hin Hc]]. unfold typeChangesFor in Hc; simpl in Hc.
    apply nameMap_entry in Hin. pose proof (named_name _ _ _ Hin) as Hn.
    rewrite nameMap_get in Hc.
    destruct (named (variables v1) n) as [a|] eqn:Ha; [|contradiction].
    destruct (String.eqb_spec (vtype a) (vtype b)) as [|Hne]; simpl in Hc;
      [contradiction|].
    destruct Hc as [<-|[]]. exists a, b. subst n. auto.
  - intros (a & b & Ha & Hb & Hne & ->).
    exists (vname b, b). split.
    + now apply nameMap_entry.
    + unfold typeChangesFor; simpl. rewrite nameMap_get, Ha.
      destruct (String.eqb_spec (vtype a) (vtype b)); [contradiction|].
      now left.
Qed.

Lemma typeChangesFor_NoDup (m1 m2 : JsMap (K := string) (V := StorageVariable)) :
  NoDup (map_keys m2) ->
  (forall n v, In (n, v) m2 -> vname v = n) ->
  NoDup (map (fun c => vname (variable c)) (flat_map (typeChangesFor m1) m2)).
Proof.
  induction m2 as [|[n v] m2 IH]; intros Hnd Hname; simpl.
  - constructor.
  - inversion Hnd as [|? ? Hnotin Hnd']; subst.
    rewrite map_app. 
    assert (IH' : NoDup (map (fun c => vname (variable c)) (flat_map (typeChangesFor m1) m2))).
    { apply IH; auto. intros n' v' H. apply Hname. now right. }
    unfold typeChangesFor at 1; simpl.
    destruct (map_get String.eqb m1 n); auto.
    destruct (negb _); auto. simpl.
    constructor; auto.
    rewrite (Hname n v) by now left.
    intros Hin. apply Hnotin.
    apply in_map_iff in Hin as [c [Hc Hin]].
    apply in_flat_map in Hin as [[n' v'] [Hin' Hc']].
    unfold typeChangesFor in Hc'; simpl in Hc'.
    destruct (map_get String.eqb m1 n'); [|contradiction].
    destruct (negb _); [|contradiction].
    destruct Hc' as [<-|[]]. simpl in Hc.
    rewrite (Hname n' v') in Hc by now right.
    subst n'. apply (in_map fst _ _ Hin').
Qed.

Lemma filter_keep {A : Type} (p : A -> bool) (l : list A) :
  Forall (fun x => p x = true) l -> filter p l = l.
Proof.
  induction 1 as [|x l Hx _ IH]; simpl; auto. now rewrite Hx, IH.
Qed.

Lemma filter_drop {A : Type} (p : A -> bool) (l : list A) :
  Forall (fun x => p x = false) l -> filter p l = [].
Proof.
  induction 1 as [|x l Hx _ IH]; simpl; auto. now rewrite Hx.
Qed.

Lemma Forall_map_const {A B : Type} (P : B -> Prop) (f : A -> B) (l : list A) :
  (forall x, P (f x)) -> Forall P (map f l).
Proof. intros H. apply Forall_forall. intros y Hy. apply in_map_iff in Hy as [x [<- _]]. apply H. Qed.

Lemma typeChangesFor_type (m1 m2 : JsMap (K := string) (V := StorageVariable)) :
  Forall (fun c => ch_type c = ch_typeChanged /\ severity c = sev_critical)
         (flat_map (typeChangesFor m1) m2).
Proof.
  apply Forall_forall. intros c Hc.
  apply in_flat_map in Hc as [[n v] [_ Hc]].
  unfold typeChangesFor in Hc; simpl in Hc.
  destruct (map_get String.eqb m1 n); [|contradiction].
  destruct (negb _); [|contradiction].
  destruct Hc as [<-|[]]. split; reflexivity.
Qed.

Lemma type_eqb_eq (a b : ChangeType) : type_eqb a b = true <-> a = b.
Proof. destruct a, b; simpl; split; intros H; try reflexivity; discriminate. Qed.

(** Filtering a list of changes that all have type [t'] for type [t]. *)
Lemma filter_has_type (t t' : ChangeType) (l : list UpgradeChange) :
  Forall (fun c => ch_type c = t') l ->
  filter (has_type t) l = if type_eqb t t' then l else [].
Proof.
  intros H. unfold has_type.
  destruct (type_eqb t t') eqn:E.
  - apply filter_keep. eapply Forall_impl; [|exact H].
    intros c ->. exact E.
  - apply filter_drop. eapply Forall_impl; [|exact H].
    intros c ->. exact E.
Qed.

(** The changes of each kind, in order, apart. *)
Lemma identifyChanges_by_type (v1 v2 : SlotMapping) (r : CollisionReport) (t : ChangeType) :
  filter (has_type t) (identifyChanges v1 v2 r) =
  match t with
  | ch_collision => map collisionChange (collisions r)
  | ch_moved =>
      map (fun v => movedChange (map_get String.eqb (keyMap (variables v1)) (byKey v)) v)
          (moved r)
  | ch_removed => map removedChange (removed r)
  | ch_added => map addedChange (added r)
  | ch_typeChanged =>
      flat_map (typeChangesFor (nameMap (variables v1))) (nameMap (variables v2))
  end.
Proof.
  rewrite identifyChanges_shape, !filter_app.
  rewrite (filter_has_type t ch_collision) by (now apply Forall_map_const).
  rewrite (filter_has_type t ch_moved) by (now apply Forall_map_const).
  rewrite (filter_has_type t ch_removed) by (now apply Forall_map_const).
  rewrite (filter_has_type t ch_added) by (now apply Forall_map_const).
  rewrite (filter_has_type t ch_typeChanged).
  - destruct t; simpl; now rewrite ?app_nil_r.
  - eapply Forall_impl; [|apply typeChangesFor_type]. simpl. tauto.
Qed.

(** C5, as the code has it.  The changes of [analyze v1 v2] are: one critical change per
    collision of the report, one critical change per moved variable, one
    warning per removed variable, one safe change per added variable, each
    in the order of the report, and one critical [typeChanged] change for
    every name that both versions hold with different declared types, and
    for no other name. *)
Theorem analyze_changes (v1 v2 : SlotMapping) :
  let report := compare v1 v2 in
  let all := changes (analyze v1 v2) in
  let of_type t := filter (has_type t) all in
  map (fun c => (oldVariable c, variable c)) (of_type ch_collision)
    = map (fun col => (Some (c_v1 col), c_v2 col)) (collisions report)
  /\ map variable (of_type ch_moved) = moved report
  /\ map variable (of_type ch_removed) = removed report
  /\ map variable (of_type ch_added) = added report
  /\ NoDup (map (fun c => vname (variable c)) (of_type ch_typeChanged))
  /\ Forall (fun c =>
               exists a,
                 oldVariable c = Some a
                 /\ named (variables v1) (vname (variable c)) = Some a
                 /\ named (variables v2) (vname (variable c)) = Some (variable c)
                 /\ vtype a <> vtype (variable c))
            (of_type ch_typeChanged)
  /\ (forall n a b,
        named (variables v1) n = Some a ->
        named (variables v2) n = Some b ->
        vtype a <> vtype b ->
        exists c, In c (of_type ch_typeChanged)
                  /\ variable c = b /\ oldVariable c = Some a)
  /\ Forall (fun c => severity c = severity_of (ch_type c)) all
  /\ List.length all
       = (List.length (collisions report) + List.length (moved report)
          + List.length (removed report) + List.length (added report)
          + List.length (of_type ch_typeChanged))%nat.
Proof.
  intros report all of_type. subst of_type all. unfold analyze; simpl.
  fold report.
  rewrite !identifyChanges_by_type.
  repeat split.
  - now rewrite !map_map.
  - rewrite map_map; simpl. apply map_id.
  - rewrite map_map; simpl. apply map_id.
  - rewrite map_map; simpl. apply map_id.
  - apply typeChangesFor_NoDup; [apply nameMap_NoDup|].
    intros n v H. apply nameMap_entry in H. now apply named_name in H.
  - apply Forall_forall. intros c Hc.
    apply typeChangesFor_In in Hc as (a & b & Ha & Hb & Hne & ->).
    exists a. simpl. auto.
  - intros n a b Ha Hb Hne.
    pose proof (named_name _ _ _ Hb) as <-.
    exists (typeChange (vname b) a b). repeat split.
    apply typeChangesFor_In. exists a, b. auto.
  - rewrite identifyChanges_shape.
    repeat (apply Forall_app; split); try (now apply Forall_map_const).
    eapply Forall_impl; [|apply typeChangesFor_type].
    intros c [-> ->]. reflexivity.
  - rewrite identifyChanges_shape.
    rewrite !length_app, !length_map. lia.
Qed.

(* ================================================================= *)
(** ** The upgrade analyzer: compatibility *)

Lemma countSeverity_nonneg (s : Severity) (l : list UpgradeChange) :
  0 <= countSeverity s l.
Proof. unfold countSeverity. lia. Qed.


(* ================================================================= *)
(** ** The upgrade analyzer: storage growth *)

Lemma efficiency_of_no_slots (usedBytes : Z) :
  is_finite (num_mul (num_div (num usedBytes) (num (0 * 32))) (num 100)) = false.
Proof.
  unfold num, num_div; simpl.
  destruct (Qeq_bool (inject_Z usedBytes) 0); [reflexivity|].
  destruct (Qle_bool 0 (inject_Z usedBytes)); reflexivity.
Qed.

Lemma num_sub_not_finite (x y : Number) :
  is_finite x = false \/ is_finite y = false -> is_finite (num_sub x y) = false.
Proof. destruct x, y; simpl; intros [H|H]; auto; discriminate. Qed.

Lemma rounded_not_finite (x : Number) :
  is_finite x = false ->
  is_finite (num_div (Math_round (num_mul x (num 100))) (num 100)) = false.
Proof. destruct x; simpl; auto; discriminate. Qed.

(** When one of the two versions has no slot, the efficiency change is not
    a finite number. *)
Lemma efficiencyChange_no_slots (v1 v2 : SlotMapping) :
  totalSlots v1 = 0 \/ totalSlots v2 = 0 ->
  is_finite (efficiencyChange (storageGrowth (analyze v1 v2))) = false.
Proof.
  intros H. unfold analyze, calculateStorageGrowth; simpl.
  apply rounded_not_finite, num_sub_not_finite.
  destruct H as [H|H]; rewrite H; [right|left]; apply efficiency_of_no_slots.
Qed.

(** C7, evaluated on the code.  The mapping of a contract without
    variables has [totalSlots = 0]; analysing it against itself divides 0
    by 0 and reports [NaN] as [efficiencyChange], and [calculateEfficiency]
    is [NaN] as well, where [calculatePackingEfficiency] of the calculator
    answers 100 for such a mapping. *)
Theorem analyze_empty_efficiencyChange :
  calculateSlots emptyContract = run_mapping emptyMapping
  /\ totalSlots emptyMapping = 0
  /\ efficiencyChange (storageGrowth (analyze emptyMapping emptyMapping)) = NaN
  /\ calculateEfficiency emptyMapping = NaN
  /\ calculatePackingEfficiency emptyMapping = num 100.
Proof. repeat split. Qed.

(** An empty first version against [ownerValue]. *)
Lemma efficiencyChange_no_slots_witness :
  (totalSlots emptyMapping = 0 \/ totalSlots ownerValue = 0)
  /\ is_finite (efficiencyChange (storageGrowth (analyze emptyMapping ownerValue))) = false.
Proof.
  split.
  - left. reflexivity.
  - apply (efficiencyChange_no_slots emptyMapping ownerValue). left. reflexivity.
Defined.

(* ================================================================= *)
(** ** The placement loop *)

Lemma forEach_invariant_In {A S : Type} (P : S -> Prop) (body : S -> A -> S)
    (xs : list A) :
  (forall s x, In x xs -> P s -> P (body s x)) ->
  forall s, P s -> P (forEach xs body s).
Proof.
  unfold forEach. induction xs as [|x xs IH]; intros Hstep s Hs; simpl; auto.
  apply IH.
  - intros s' y Hy. apply Hstep. now right.
  - apply Hstep; [now left|assumption].
Qed.

Lemma Math_max_push (s x : Z) (rest : list Z) :
  Math_max s (rest ++ [x]) = Z.max (Math_max s rest) x.
Proof. unfold Math_max. now rewrite fold_left_app. Qed.

Lemma Math_max_ge (s : Z) (rest : list Z) : s <= Math_max s rest.
Proof.
  unfold Math_max. revert s.
  induction rest as [|x rest IH]; intros s; simpl; [lia|].
  specialize (IH (Z.max s x)). lia.
Qed.

Lemma slotCount_push (vars : list StorageVariable) (x : StorageVariable) :
  (forall v, In v vars -> 0 <= slot v) -> 0 <= slot x ->
  slotCount (push vars x) = Z.max (slotCount vars) (slot x + 1).
Proof.
  intros Hvars Hx. unfold slotCount, push. rewrite map_app. simpl.
  destruct vars as [|v vars]; simpl.
  - unfold Math_max; simpl. lia.
  - rewrite Math_max_push. lia.
Qed.

Lemma slotCount_nonneg (vars : list StorageVariable) :
  (forall v, In v vars -> 0 <= slot v) -> 0 <= slotCount vars.
Proof.
  intros H. unfold slotCount. destruct vars as [|v vars]; simpl; [lia|].
  pose proof (Math_max_ge (slot v) (map slot vars)).
  specialize (H v (or_introl eq_refl)). lia.
Qed.

Lemma tight_push (vars : list StorageVariable) (x : StorageVariable) :
  tight vars -> offset x = sumSizes (occupants vars (slot x)) ->
  tight (push vars x).
Proof.
  intros Ht Hx before v after Heq. unfold push in Heq.
  destruct after as [|a after].
  - apply app_inj_tail in Heq as [<- <-]. exact Hx.
  - assert (Hne : a :: after <> []) by discriminate.
    destruct (exists_last Hne) as (after' & z & Hlast).
    rewrite Hlast in Heq.
    change (before ++ v :: after' ++ [z]) with (before ++ (v :: after') ++ [z]) in Heq.
    rewrite app_assoc in Heq.
    apply app_inj_tail in Heq as [Heq _].
    apply (Ht before v after'). exact Heq.
Qed.

Lemma lay_invariant_start : lay_invariant cursor0.
Proof.
  constructor; simpl; try lia; try reflexivity;
    try (intros; contradiction); try constructor.
  - intros s. cbv. discriminate.
  - intros s [? ?]. unfold slotCount in *. simpl in *. lia.
  - cbv. discriminate.
  - cbv. discriminate.
  - intros before v after H. destruct before; discriminate.
Qed.

Lemma lay_step (st : Cursor) (sz : Z) (mk : Z -> Z -> StorageVariable) :
  1 <= sz <= 32 ->
  (forall s o, slot (mk s o) = s /\ offset (mk s o) = o /\ size (mk s o) = sz
               /\ packed (mk s o) = Some ((o >? 0) || (o + sz <? 32))) ->
  lay_invariant st -> lay_invariant (lay st sz mk).
Proof.
  intros Hsize Hmk [Hcur Hrange Hbefore Hdisjoint Hbound Hcurrent Hbeyond
                    Htotal Hnogap Hsum Hcount Htight Hpacked].
  unfold lay.
  set (s := if currentOffset st + sz >? 32 then currentSlot st + 1 else currentSlot st).
  set (o := if currentOffset st + sz >? 32 then 0 else currentOffset st).
  destruct (Hmk s o) as (Hs & Ho & Hz & Hp).
  assert (Hso : (s = currentSlot st + 1 /\ o = 0 /\ 32 < currentOffset st + sz)
                \/ (s = currentSlot st /\ o = currentOffset st
                    /\ currentOffset st + sz <= 32)).
  { subst s o. destruct (Z.gtb_spec (currentOffset st + sz) 32); [left|right]; lia. }
  assert (Hfree : sumSizes (occupants (cur_variables st) s) = o).
  { destruct Hso as [(-> & -> & _)|(-> & -> & _)]; [apply Hbeyond; lia|exact Hcurrent]. }
  assert (Hslots : forall v, In v (cur_variables st) -> 0 <= slot v).
  { intros v Hv. apply Hrange in Hv. lia. }
  assert (Hcount' : slotCount (push (cur_variables st) (mk s o)) = s + 1).
  { rewrite slotCount_push; auto; [|lia].
    rewrite Htotal, Hs. destruct (Z.eqb_spec (currentOffset st) 0); lia. }
  assert (Hbytes : forall t, sumSizes (occupants (push (cur_variables st) (mk s o)) t)
                             = sumSizes (occupants (cur_variables st) t)
                               + (if s =? t then sz else 0)).
  { intros t. rewrite bytes_push, Hs, Hz. reflexivity. }
  assert (Hin : forall v, In v (push (cur_variables st) (mk s o)) ->
                  0 <= slot v /\ 0 <= offset v /\ 1 <= size v
                  /\ offset v + size v <= 32
                  /\ (slot v < s \/ (slot v = s /\ offset v + size v <= o + sz))).
  { intros v Hv. apply In_push in Hv as [Hv | ->].
    - pose proof (Hrange v Hv). pose proof (Hbefore v Hv). lia.
    - rewrite Hs, Ho, Hz. lia. }
  assert (Hdis : forall a b, In a (push (cur_variables st) (mk s o)) ->
                   In b (push (cur_variables st) (mk s o)) ->
                   slot a = slot b -> overlap a b -> a = b).
  { intros a b Ha Hb Hab [Ho1 Ho2].
    apply In_push in Ha as [Ha | ->]; apply In_push in Hb as [Hb | ->];
      try reflexivity.
    - apply Hdisjoint; auto. split; assumption.
    - pose proof (Hbefore a Ha). rewrite Hs, Ho, Hz in *. lia.
    - pose proof (Hbefore b Hb). rewrite Hs, Ho, Hz in *. lia. }
  assert (Hgap : forall t, 0 <= t < s + 1 ->
                   exists v, In v (push (cur_variables st) (mk s o)) /\ slot v = t).
  { intros t Ht. destruct (Z.eq_dec t s) as [->|Hne].
    - exists (mk s o). split; [apply In_push; now right|exact Hs].
    - destruct (Hnogap t) as (v & Hv & Hvt).
      + rewrite Htotal. destruct (Z.eqb_spec (currentOffset st) 0); lia.
      + exists v. split; [apply In_push; now left|exact Hvt]. }
  assert (Hsum' : sumSizes (push (cur_variables st) (mk s o)) <= 32 * s + o + sz).
  { rewrite sumSizes_push, Hz. lia. }
  assert (Hlen : Z.of_nat (List.length (push (cur_variables st) (mk s o)))
                 = Z.of_nat (List.length (cur_variables st)) + 1).
  { unfold push. rewrite length_app. simpl. lia. }
  assert (Hcnt : s + 1 <= Z.of_nat (List.length (push (cur_variables st) (mk s o)))
                 /\ Z.of_nat (List.length (push (cur_variables st) (mk s o)))
                    <= sumSizes (push (cur_variables st) (mk s o))).
  { rewrite Hlen, sumSizes_push, Hz. rewrite Htotal in Hcount.
    destruct (Z.eqb_spec (currentOffset st) 0); lia. }
  assert (Htight' : tight (push (cur_variables st) (mk s o))).
  { apply tight_push; auto. now rewrite Hs, Ho. }
  assert (Hpacked' : Forall (fun v => packed v = Some (size v <? 32))
                            (push (cur_variables st) (mk s o))).
  { apply Forall_app. split; auto. constructor; [|constructor].
    rewrite Hp, Hz. f_equal.
    destruct (Z.gtb_spec o 0); destruct (Z.ltb_spec (o + sz) 32);
      destruct (Z.ltb_spec sz 32); simpl; lia. }
  destruct (Z.geb_spec (o + sz) 32) as [Hfull|Hpart];
    constructor; cbn [cur_variables currentSlot currentOffset]; auto; try lia.
  all: try (intros v Hv; specialize (Hin v Hv); lia).
  all: try (intros t; rewrite Hbytes; destruct (Z.eqb_spec s t) as [<-|];
            [rewrite Hfree|pose proof (Hbound t)]; lia).
  all: try (intros t; try intros Ht; rewrite Hbytes;
            destruct (Z.eqb_spec s t);
            try (pose proof (Hbound t));
            try (rewrite Hbeyond by lia); lia).
  all: try (rewrite Hbytes; destruct (Z.eqb_spec s (s + 1)); try lia;
            rewrite Hbeyond by lia; lia).
  all: try (rewrite Hbytes, Z.eqb_refl; lia).
  all: try (rewrite Hcount'; simpl; destruct (Z.eqb_spec (o + sz) 0); lia).
  all: try (intros t Ht; apply Hgap; rewrite Hcount' in Ht; lia).
  all: try (rewrite Hcount'; exact Hcnt).
Qed.

Lemma place_lay (st : Cursor) (variable : StateVariable) :
  place_plain st variable =
  lay st (getTypeSize_plain (typeName variable))
    (fun s o =>
       {| vname := decl_name variable; vtype := typeName variable;
          slot := s; offset := o; size := getTypeSize_plain (typeName variable);
          isStateVariable := true;
          packed := Some ((o >? 0) || (o + getTypeSize_plain (typeName variable) <? 32)) |}).
Proof.
  unfold place_plain, lay.
  destruct (currentOffset st + getTypeSize_plain (typeName variable) >? 32); reflexivity.
Qed.

Lemma arrange_lay (st : Cursor) (variable : StorageVariable) :
  arrange st variable =
  lay st (size variable)
    (fun s o =>
       {| vname := vname variable; vtype := vtype variable;
          slot := s; offset := o; size := size variable;
          isStateVariable := isStateVariable variable;
          packed := Some ((o >? 0) || (o + size variable <? 32)) |}).
Proof.
  unfold arrange, lay.
  destruct (currentOffset st + size variable >? 32); reflexivity.
Qed.

Lemma calculateSlots_lay_invariant (contract : ContractAST) :
  lay_invariant (forEach (stateVariables contract) place_plain cursor0).
Proof.
  apply forEach_invariant; [|apply lay_invariant_start].
  intros st v Hst. rewrite place_lay.
  apply lay_step; [apply getTypeSize_plain_range | | exact Hst].
  intros s o; simpl. repeat split.
Qed.

Lemma calculateSlots_totalSlots (contract : ContractAST) :
  totalSlots (calculateSlots_plain contract) = slotCount (variables (calculateSlots_plain contract)).
Proof. reflexivity. Qed.

(** The slots [calculateSlots_plain] uses are exactly 0, 1, ..., [totalSlots - 1]:
    every variable lies in one of them and each of them holds a variable. *)
Lemma plain_slots_contiguous (contract : ContractAST) :
  let m := calculateSlots_plain contract in
  Forall (fun v => 0 <= slot v < totalSlots m) (variables m)
  /\ Forall (fun s => occupants (variables m) s <> [])
            (map Z.of_nat (seq 0 (Z.to_nat (totalSlots m)))).
Proof.
  pose proof (calculateSlots_lay_invariant contract) as Hinv.
  cbv zeta. rewrite calculateSlots_totalSlots.
  unfold calculateSlots_plain; cbn [variables].
  set (st := forEach (stateVariables contract) place_plain cursor0) in *.
  split.
  - apply Forall_forall. intros v Hv.
    pose proof (li_range _ Hinv v Hv). pose proof (li_before _ Hinv v Hv).
    rewrite (li_total _ Hinv).
    destruct (Z.eqb_spec (currentOffset st) 0); lia.
  - apply Forall_forall. intros s Hs.
    apply in_map_iff in Hs as (n & <- & Hn). apply in_seq in Hn.
    destruct (li_nogap _ Hinv (Z.of_nat n)) as (v & Hv & Hvs); [lia|].
    intros Hnil.
    assert (Hin : In v (occupants (cur_variables st) (Z.of_nat n)))
      by now apply In_occupants.
    rewrite Hnil in Hin. contradiction.
Qed.

(** In a calculated layout each variable starts at the byte where the
    variables declared before it in the same slot end. *)
Lemma plain_offsets_tight (contract : ContractAST) :
  tight (variables (calculateSlots_plain contract)).
Proof. apply (li_tight _ (calculateSlots_lay_invariant contract)). Qed.

(** A calculated layout has at most as many slots as variables, at least
    one byte per variable, and never more bytes in use than its slots
    provide. *)
Lemma plain_used_bytes (contract : ContractAST) :
  let m := calculateSlots_plain contract in
  totalSlots m <= Z.of_nat (List.length (variables m))
  /\ Z.of_nat (List.length (variables m)) <= sumSizes (variables m)
  /\ sumSizes (variables m) <= totalSlots m * 32.
Proof.
  pose proof (calculateSlots_lay_invariant contract) as Hinv.
  cbv zeta. rewrite calculateSlots_totalSlots.
  unfold calculateSlots_plain; cbn [variables].
  set (st := forEach (stateVariables contract) place_plain cursor0) in *.
  pose proof (li_count _ Hinv). pose proof (li_sum _ Hinv).
  pose proof (li_cursor _ Hinv). pose proof (li_total _ Hinv) as Ht.
  destruct (Z.eqb_spec (currentOffset st) 0); lia.
Qed.

(** Any two different variables that [calculateSlots_plain] puts into one slot
    pass [canPackTogether]. *)
Lemma plain_canPackTogether (contract : ContractAST) :
  let vars := variables (calculateSlots_plain contract) in
  Forall (fun a =>
            Forall (fun b => slot a = slot b -> a = b \/ canPackTogether a b = true)
                   vars)
         vars.
Proof.
  pose proof (calculateSlots_lay_invariant contract) as Hinv.
  cbv zeta. unfold calculateSlots_plain; cbn [variables].
  set (st := forEach (stateVariables contract) place_plain cursor0) in *.
  apply Forall_forall. intros a Ha. apply Forall_forall. intros b Hb Hs.
  pose proof (li_range _ Hinv a Ha). pose proof (li_range _ Hinv b Hb).
  unfold canPackTogether.
  destruct (Z.leb_spec (size a + size b) 32); [now right|left].
  apply (li_disjoint _ Hinv a b Ha Hb Hs). unfold overlap. lia.
Qed.

(* ================================================================= *)
(** ** Sorting by an integer key *)

Section SortFacts.
Context {A : Type} (key : A -> Z) (cmp : A -> A -> Z).
Hypothesis cmp_key : forall a b, cmp a b = key a - key b.

Lemma sort_insert_perm (x : A) (l : list A) :
  Permutation (sort_insert cmp x l) (x :: l).
Proof.
  induction l as [|y l IH]; simpl; auto.
  destruct (cmp y x <=? 0); auto.
  rewrite IH. apply perm_swap.
Qed.

Lemma Array_sort_push (l : list A) (x : A) :
  Array_sort cmp (push l x) = sort_insert cmp x (Array_sort cmp l).
Proof. unfold Array_sort. now rewrite forEach_push_last. Qed.

Lemma Array_sort_perm (l : list A) : Permutation (Array_sort cmp l) l.
Proof.
  induction l as [|x l IH] using rev_ind; [reflexivity|].
  change (l ++ [x]) with (push l x). rewrite Array_sort_push, sort_insert_perm.
  unfold push. rewrite IH. apply Permutation_cons_append.
Qed.

Lemma sort_insert_sorted (x : A) (l : list A) :
  StronglySorted (fun a b => key a <= key b) l ->
  StronglySorted (fun a b => key a <= key b) (sort_insert cmp x l).
Proof.
  induction 1 as [|y l Hl IH Hy]; simpl.
  - repeat constructor.
  - rewrite cmp_key. destruct (Z.leb_spec (key y - key x) 0).
    + constructor; auto.
      apply Forall_forall. intros z Hz.
      apply (Permutation_in _ (sort_insert_perm x l)) in Hz as [<-|Hz]; [lia|].
      rewrite Forall_forall in Hy. now apply Hy.
    + constructor; [now constructor|].
      constructor; [lia|].
      eapply Forall_impl; [|exact Hy]. simpl. intros; lia.
Qed.

Lemma Array_sort_sorted (l : list A) :
  StronglySorted (fun a b => key a <= key b) (Array_sort cmp l).
Proof.
  induction l as [|x l IH] using rev_ind; [constructor|].
  change (l ++ [x]) with (push l x). rewrite Array_sort_push.
  now apply sort_insert_sorted.
Qed.

(** The sort is stable: elements of one key keep their order. *)
Lemma sort_insert_stable (x : A) (l : list A) (k : Z) :
  StronglySorted (fun a b => key a <= key b) l ->
  filter (fun a => key a =? k) (sort_insert cmp x l) =
  filter (fun a => key a =? k) l ++ (if key x =? k then [x] else []).
Proof.
  induction 1 as [|y l Hl IH Hy]; simpl.
  - reflexivity.
  - rewrite cmp_key. destruct (Z.leb_spec (key y - key x) 0); simpl.
    + rewrite IH. now destruct (key y =? k).
    + destruct (Z.eqb_spec (key x) k) as [Hx|Hx].
      * destruct (Z.eqb_spec (key y) k); [lia|].
        rewrite filter_drop; [reflexivity|].
        eapply Forall_impl; [|exact Hy]. simpl. intros z Hz.
        apply Z.eqb_neq. lia.
      * now rewrite app_nil_r.
Qed.

Lemma Array_sort_stable (l : list A) (k : Z) :
  filter (fun a => key a =? k) (Array_sort cmp l) = filter (fun a => key a =? k) l.
Proof.
  induction l as [|x l IH] using rev_ind; [reflexivity|].
  change (l ++ [x]) with (push l x). rewrite Array_sort_push.
  rewrite sort_insert_stable by apply Array_sort_sorted.
  unfold push. rewrite filter_app, IH. simpl. now destruct (key x =? k).
Qed.

(** A list that is already in order is left as it is. *)
Lemma sort_insert_last (x : A) (l : list A) :
  Forall (fun a => key a <= key x) l -> sort_insert cmp x l = l ++ [x].
Proof.
  induction 1 as [|y l Hy _ IH]; simpl; [reflexivity|].
  rewrite cmp_key. destruct (Z.leb_spec (key y - key x) 0); [|lia].
  now rewrite IH.
Qed.
End SortFacts.

(* ================================================================= *)
(** ** [optimizeSlotArrangement] *)

Lemma arrange_identity (l : list StorageVariable) (st : Cursor) :
  map identity (cur_variables (forEach l arrange st)) =
  map identity (cur_variables st) ++ map identity l.
Proof.
  unfold forEach. revert st.
  induction l as [|v l IH]; intros st; simpl.
  - now rewrite app_nil_r.
  - rewrite IH.
    replace (map identity (cur_variables (arrange st v)))
      with (map identity (cur_variables st) ++ [identity v]).
    + now rewrite <- app_assoc.
    + unfold arrange, push.
      destruct (_ >? _); simpl; destruct (_ >=? _); simpl;
        now rewrite map_app.
Qed.

Lemma size_order (a b : StorageVariable) :
  size b - size a = (fun v => - size v) a - (fun v => - size v) b.
Proof. simpl. lia. Qed.

Lemma StronglySorted_map {A B : Type} (f : A -> B) (R : B -> B -> Prop) (l : list A) :
  StronglySorted (fun a b => R (f a) (f b)) l -> StronglySorted R (map f l).
Proof.
  induction 1 as [|x l Hl IH Hx]; simpl; constructor; auto.
  apply Forall_forall. intros y Hy. apply in_map_iff in Hy as (z & <- & Hz).
  rewrite Forall_forall in Hx. now apply Hx.
Qed.

Lemma filter_map_comm {A B : Type} (f : A -> B) (p : B -> bool) (l : list A) :
  filter p (map f l) = map f (filter (fun a => p (f a)) l).
Proof.
  induction l as [|x l IH]; simpl; auto.
  destruct (p (f x)); simpl; now rewrite IH.
Qed.

(** [optimizeSlotArrangement] keeps every variable with its name, type and
    size, orders them by size from the largest to the smallest, and leaves
    variables of one size in the order they came in. *)
Theorem optimizeSlotArrangement_order (vars : list StorageVariable) :
  let out := map identity (optimizeSlotArrangement vars) in
  Permutation out (map identity vars)
  /\ StronglySorted (fun a b => snd a >= snd b) out
  /\ forall k, filter (fun a => snd a =? k) out
               = filter (fun a => snd a =? k) (map identity vars).
Proof.
  cbv zeta. unfold optimizeSlotArrangement.
  rewrite arrange_identity; simpl.
  set (cmp := fun a b : StorageVariable => size b - size a).
  split; [|split].
  - apply Permutation_map.
    apply Array_sort_perm.
  - apply StronglySorted_map; simpl.
    pose proof (Array_sort_sorted (fun v => - size v) cmp size_order vars) as H.
    eapply StronglySorted_ind with (P := StronglySorted _); [| |exact H].
    + constructor.
    + intros a l Hl IH Ha. constructor; auto.
      eapply Forall_impl; [|exact Ha]. simpl. intros; lia.
  - intros k. rewrite !filter_map_comm. f_equal.
    assert (E : forall l : list StorageVariable,
               filter (fun a => snd (identity a) =? k) l
               = filter (fun a => - size a =? - k) l).
    { apply filter_ext. intros a; simpl.
      destruct (Z.eqb_spec (size a) k), (Z.eqb_spec (- size a) (- k)); auto; lia. }
    rewrite !E.
    apply (Array_sort_stable (fun v => - size v) cmp size_order vars (- k)).
Qed.

Lemma optimizeSlotArrangement_invariant (vars : list StorageVariable) :
  Forall (fun v => 1 <= size v <= 32) vars ->
  lay_invariant
    (forEach (Array_sort (fun a b => size b - size a) vars) arrange cursor0).
Proof.
  intros Hsizes.
  apply forEach_invariant_In; [|apply lay_invariant_start].
  intros st v Hv Hst. rewrite arrange_lay.
  apply lay_step; [| |exact Hst].
  - apply (Permutation_in _ (Array_sort_perm _ vars)) in Hv.
    rewrite Forall_forall in Hsizes. now apply Hsizes.
  - intros s o; simpl. repeat split.
Qed.

(** When every size is between 1 and 32, the arrangement
    [optimizeSlotArrangement] returns is a layout: each variable lies
    within its slot, no two variables share a byte, no slot holds more than
    32 bytes, offsets leave no hole, and [packed] is set for the sizes
    below 32. *)
Theorem optimizeSlotArrangement_layout (vars : list StorageVariable) :
  Forall (fun v => 1 <= size v <= 32) vars ->
  let out := optimizeSlotArrangement vars in
  Forall (fun v => 0 <= slot v /\ 0 <= offset v /\ offset v + size v <= 32) out
  /\ overlap_free out
  /\ (forall s, sumSizes (occupants out s) <= 32)
  /\ tight out
  /\ Forall (fun v => packed v = Some (size v <? 32)) out.
Proof.
  intros Hsizes. cbv zeta. unfold optimizeSlotArrangement.
  pose proof (optimizeSlotArrangement_invariant vars Hsizes) as Hinv.
  set (st := forEach _ arrange cursor0) in *.
  split; [|split; [|split; [|split]]].
  - apply Forall_forall. intros v Hv. pose proof (li_range _ Hinv v Hv). lia.
  - intros a b Ha Hb Hs Ho.
    rewrite (li_disjoint _ Hinv a b Ha Hb Hs Ho). split; reflexivity.
  - apply (li_bound _ Hinv).
  - apply (li_tight _ Hinv).
  - apply (li_packed _ Hinv).
Qed.

(** The variables of [mockContract] as [calculateSlots] places them. *)
Lemma optimizeSlotArrangement_layout_witness :
  Forall (fun v => 1 <= size v <= 32) (variables mockMapping)
  /\ (forall s, sumSizes (occupants (optimizeSlotArrangement (variables mockMapping)) s)
                <= 32).
Proof.
  assert (H : Forall (fun v => 1 <= size v <= 32) (variables mockMapping))
    by (repeat constructor; simpl; lia).
  split; [exact H|].
  apply (optimizeSlotArrangement_layout _ H).
Defined.

(** Arranging by size does not always save slots: the layout of
    [interleavedContract] takes two slots as declared and three once
    [optimizeSlotArrangement] has reordered it. *)
Theorem optimizeSlotArrangement_can_cost_a_slot :
  exists contract m,
    calculateSlots contract = run_mapping m
    /\ slotCount (optimizeSlotArrangement (variables m)) > totalSlots m.
Proof.
  exists interleavedContract, (calculateSlots_plain interleavedContract).
  split; vm_compute; reflexivity.
Qed.

(* ================================================================= *)
(** ** Slots and their occupants *)

Lemma sumSizes_cons (v : StorageVariable) (l : list StorageVariable) :
  sumSizes (v :: l) = size v + sumSizes l.
Proof.
  unfold sumSizes. simpl.
  assert (H : forall l a, fold_left (fun sum v => sum + size v) l a
                          = a + fold_left (fun sum v => sum + size v) l 0).
  { clear. induction l as [|x l IH]; intros a; simpl; [lia|].
    rewrite IH, (IH (size x)). lia. }
  apply H.
Qed.

Lemma sumSizes_In (v : StorageVariable) (l : list StorageVariable) :
  (forall x, In x l -> 1 <= size x) -> In v l ->
  size v + Z.of_nat (List.length l) - 1 <= sumSizes l.
Proof.
  induction l as [|x l IH]; intros Hpos Hin; [contradiction|].
  rewrite sumSizes_cons. cbn [List.length]. rewrite Nat2Z.inj_succ.
  assert (Hl : Z.of_nat (List.length l) <= sumSizes l).
  { clear - Hpos. induction l as [|y l IH]; [cbv; discriminate|].
    rewrite sumSizes_cons. cbn [List.length]. rewrite Nat2Z.inj_succ.
    pose proof (Hpos y (or_intror (or_introl eq_refl))).
    assert (Z.of_nat (List.length l) <= sumSizes l).
    { apply IH. intros z [->|Hz]; apply Hpos; [now left|right; now right]. }
    lia. }
  destruct Hin as [->|Hin]; [lia|].
  pose proof (Hpos x (or_introl eq_refl)).
  assert (size v + Z.of_nat (List.length l) - 1 <= sumSizes l).
  { apply IH; auto. intros z Hz. apply Hpos. now right. }
  lia.
Qed.

Lemma countBySlot_push (vars : list StorageVariable) (x : StorageVariable) :
  countBySlot (push vars x) =
  map_set Z.eqb (countBySlot vars) (slot x)
    (or_default (map_get Z.eqb (countBySlot vars) (slot x)) 0 + 1).
Proof. unfold countBySlot. now rewrite forEach_push_last. Qed.

(** The count kept for a slot is the number of its variables; a slot
    without a variable has no entry. *)
Lemma countBySlot_get (vars : list StorageVariable) (s : Z) :
  map_get Z.eqb (countBySlot vars) s =
  match occupants vars s with
  | [] => None
  | group => Some (Z.of_nat (List.length group))
  end.
Proof.
  induction vars as [|x vars IH] using rev_ind; [reflexivity|].
  change (vars ++ [x]) with (push vars x).
  rewrite countBySlot_push, occupants_push.
  destruct (Z.eqb_spec (slot x) s) as [->|Hne].
  - rewrite (map_get_set_same _ Z.eqb_eq), IH.
    destruct (occupants vars s) as [|v group] eqn:E.
    + reflexivity.
    + change (push (v :: group) x) with (v :: push group x).
      cbv beta iota. f_equal. unfold or_default.
      change (List.length (v :: push group x)) with (S (List.length (push group x))).
      change (List.length (v :: group)) with (S (List.length group)).
      unfold push. rewrite length_app. cbn [List.length].
      rewrite !Nat2Z.inj_succ, Nat2Z.inj_add.
      destruct (Z.eqb_spec (Z.succ (Z.of_nat (List.length group))) 0); simpl; lia.
  - now rewrite (map_get_set_other _ Z.eqb_eq).
Qed.

Lemma countBySlot_NoDup (vars : list StorageVariable) :
  NoDup (map_keys (countBySlot vars)).
Proof.
  unfold countBySlot. apply forEach_invariant; [|constructor].
  intros m v. apply (map_set_NoDup _ Z.eqb_eq).
Qed.

(** Filtering the entries of a map leaves its keys distinct. *)
Lemma filter_entries_NoDup {K V : Type} (keep : K * V -> bool) (entries : list (K * V))
    (Hkeys : NoDup (map fst entries)) :
  NoDup (map fst (filter keep entries)).
Proof.
  induction entries as [|e entries IH]; [constructor|].
  cbn [map filter] in *. apply NoDup_cons_iff in Hkeys as [Hfresh Hrest].
  destruct (keep e); [|now apply IH].
  cbn [map]. apply NoDup_cons; [|now apply IH].
  intros Hin. apply Hfresh.
  apply in_map_iff in Hin as (e' & <- & He').
  apply in_map. now apply filter_In in He'.
Qed.

(** [packedSlots] names each slot that holds more than one variable, once,
    and no other slot; in a calculated layout every variable of such a slot
    is flagged [packed]. *)
Lemma plain_packedSlots (contract : ContractAST) :
  let m := calculateSlots_plain contract in
  NoDup (packedSlots m)
  /\ (forall s, In s (packedSlots m)
                <-> (1 < List.length (occupants (variables m) s))%nat)
  /\ Forall (fun v => In (slot v) (packedSlots m) -> packed v = Some true)
            (variables m).
Proof.
  assert (Hmem : forall vars s,
             In s (map fst (filter (fun entry : Z * Z => snd entry >? 1) (countBySlot vars)))
             <-> (1 < List.length (occupants vars s))%nat).
  { intros vars s. rewrite in_map_iff. split.
    - intros ([s' n] & Hs & Hin). simpl in Hs. subst s'.
      apply filter_In in Hin as [Hin Hn]. simpl in Hn.
      apply (In_map_get _ Z.eqb_eq _ _ _ (countBySlot_NoDup vars)) in Hin.
      rewrite countBySlot_get in Hin.
      destruct (occupants vars s) as [|v group]; [discriminate|].
      assert (Hcount : n = Z.of_nat (List.length (v :: group))) by congruence.
      apply Z.gtb_lt in Hn. lia.
    - intros Hlen.
      exists (s, Z.of_nat (List.length (occupants vars s))). split; [reflexivity|].
      apply filter_In. split.
      + apply (map_get_In _ Z.eqb_eq). rewrite countBySlot_get.
        destruct (occupants vars s); [simpl in Hlen; lia|reflexivity].
      + simpl. apply Z.gtb_lt. lia. }
  cbv zeta. unfold calculateSlots_plain; cbn [variables packedSlots].
  pose proof (calculateSlots_lay_invariant contract) as Hinv.
  set (st := forEach (stateVariables contract) place_plain cursor0) in *.
  split; [|split].
  - apply filter_entries_NoDup, countBySlot_NoDup.
  - apply Hmem.
  - apply Forall_forall. intros v Hv Hpacked.
    apply Hmem in Hpacked.
    pose proof (li_packed _ Hinv) as Hflags. rewrite Forall_forall in Hflags.
    rewrite (Hflags v Hv). f_equal. apply Z.ltb_lt.
    pose proof (li_bound _ Hinv (slot v)).
    assert (size v + Z.of_nat (List.length (occupants (cur_variables st) (slot v))) - 1
            <= sumSizes (occupants (cur_variables st) (slot v))).
    { apply sumSizes_In.
      - intros x Hx. apply In_occupants in Hx as [Hx _].
        pose proof (li_range _ Hinv x Hx). lia.
      - now apply In_occupants. }
    lia.
Qed.

Lemma groupVariablesBySlot_get (vars : list StorageVariable) (s : Z) :
  map_get Z.eqb (groupVariablesBySlot vars) s =
  match occupants vars s with
  | [] => None
  | group => Some group
  end.
Proof.
  induction vars as [|x vars IH] using rev_ind; [reflexivity|].
  change (vars ++ [x]) with (push vars x).
  rewrite groupVariablesBySlot_push, occupants_push. unfold group_step, map_has.
  destruct (Z.eqb_spec (slot x) s) as [->|Hne].
  - rewrite (map_get_set_same _ Z.eqb_eq). unfold occ_get.
    rewrite IH. destruct (occupants vars s) as [|v group] eqn:E; cbn [negb].
    + now rewrite (map_get_set_same _ Z.eqb_eq).
    + rewrite IH. reflexivity.
  - rewrite (map_get_set_other _ Z.eqb_eq) by assumption.
    destruct (map_get Z.eqb (groupVariablesBySlot vars) (slot x)); simpl; auto.
    now rewrite (map_get_set_other _ Z.eqb_eq) by assumption.
Qed.

(** The entries of the grouping: each slot that holds a variable, with its
    variables in declaration order. *)
Lemma groupVariablesBySlot_In (vars : list StorageVariable)
    (s : Z) (group : list StorageVariable) :
  In (s, group) (groupVariablesBySlot vars)
  <-> group = occupants vars s /\ group <> [].
Proof.
  split.
  - intros Hin.
    apply (In_map_get _ Z.eqb_eq _ _ _ (groupVariablesBySlot_NoDup vars)) in Hin.
    rewrite groupVariablesBySlot_get in Hin.
    destruct (occupants vars s); [discriminate|].
    injection Hin as <-. split; [reflexivity|discriminate].
  - intros [-> Hne]. apply (map_get_In _ Z.eqb_eq).
    rewrite groupVariablesBySlot_get. now destruct (occupants vars s).
Qed.

(* ================================================================= *)
(** ** What the single-mapping detector reports *)

Lemma NoDup_flat_map_keys {K V C : Type} (f : K * V -> list C) (key : C -> K)
    (m : list (K * V)) :
  NoDup (map fst m) ->
  (forall e c, In c (f e) -> key c = fst e) ->
  (forall e, (List.length (f e) <= 1)%nat) ->
  NoDup (map key (flat_map f m)).
Proof.
  intros Hnd Hkey Hone.
  induction m as [|e m IH]; simpl; [constructor|].
  inversion Hnd as [|? ? Hnotin Hnd']; subst.
  rewrite map_app. specialize (IH Hnd').
  pose proof (Hone e) as He. pose proof (Hkey e) as Hke.
  destruct (f e) as [|c [|c' rest]]; simpl in *; auto; [|lia].
  constructor; auto.
  intros Hin. apply Hnotin.
  rewrite (Hke c (or_introl eq_refl)) in Hin.
  apply in_map_iff in Hin as (c2 & Hc2 & Hin).
  apply in_flat_map in Hin as (e2 & He2 & Hin).
  rewrite <- Hc2, (Hkey e2 c2 Hin). now apply in_map.
Qed.







(* ================================================================= *)
(** ** [findPackingOpportunities] *)

Lemma findPackingOpportunities_unsorted (m : SlotMapping) :
  findPackingOpportunities m =
  Array_sort (fun a b => wastedBytes b - wastedBytes a)
    (flat_map hintFor (groupVariablesBySlot (variables m))).
Proof.
  unfold findPackingOpportunities. f_equal.
  rewrite (forEach_flat_map hintFor); [reflexivity|].
  intros acc [s group]. unfold hintFor, push. cbn [fst snd].
  destruct group as [|v [|v' group]]; try now rewrite app_nil_r.
  destruct (_ && _); [|now rewrite app_nil_r].
  destruct (_ >? 0); [reflexivity|now rewrite app_nil_r].
Qed.

Lemma generatePackingSuggestions_count (v : StorageVariable) :
  size v < 32 ->
  let suggestions := generatePackingSuggestions v (32 - size v) in
  In "Consider packing with bool variables (1 byte each)" suggestions
  /\ List.length suggestions
     = (if size v <=? 12 then 3%nat else if size v <=? 28 then 2%nat else 1%nat).
Proof.
  intros Hsize. cbv zeta. unfold generatePackingSuggestions, push.
  destruct (Z.geb_spec (32 - size v) 20), (Z.leb_spec (size v) 12);
    destruct (Z.geb_spec (32 - size v) 4), (Z.leb_spec (size v) 28);
    destruct (Z.geb_spec (32 - size v) 1), (Z.leb_spec (size v) 31);
    try lia; simpl; auto 6.
Qed.

Lemma hintFor_In (s : Z) (group : list StorageVariable) (h : PackingHint) :
  In h (hintFor (s, group)) <->
  exists v, group = [v] /\ size v < 32
            /\ h = {| hint_slot := s; wastedBytes := 32 - size v;
                      suggestions := generatePackingSuggestions v (32 - size v) |}.
Proof.
  unfold hintFor. cbn [fst snd]. split.
  - intros Hin. destruct group as [|v [|v' group]]; try contradiction.
    unfold sumSizes in Hin; cbn [fold_left] in Hin. rewrite Z.add_0_l in Hin.
    destruct (Z.gtb_spec (32 - size v) 0); [|contradiction].
    destruct (Z.ltb_spec (size v) 32); [|contradiction]. cbn [andb] in Hin.
    destruct (_ >? 0); [|contradiction].
    destruct Hin as [<-|[]]. exists v. auto.
  - intros (v & -> & Hsize & ->).
    unfold sumSizes; cbn [fold_left]. rewrite Z.add_0_l.
    destruct (Z.gtb_spec (32 - size v) 0); [|lia].
    destruct (Z.ltb_spec (size v) 32); [|lia]. cbn [andb].
    destruct (generatePackingSuggestions_count v Hsize) as [Hin _].
    destruct (generatePackingSuggestions v (32 - size v)); [contradiction|].
    now left.
Qed.

Lemma wasted_order (a b : PackingHint) :
  wastedBytes b - wastedBytes a
  = (fun h => - wastedBytes h) a - (fun h => - wastedBytes h) b.
Proof. simpl. lia. Qed.

(** [findPackingOpportunities] lists exactly the slots that hold a single
    variable smaller than 32 bytes, each once and the most wasteful first.
    The wasted bytes are what the variable leaves of its slot, and the
    suggestions depend on the size alone: always the one for [bool], the
    one for [uint32] up to 28 bytes, the one for [address] up to 12. *)
Theorem findPackingOpportunities_spec (m : SlotMapping) :
  let hints := findPackingOpportunities m in
  StronglySorted (fun a b => wastedBytes a >= wastedBytes b) hints
  /\ NoDup (map hint_slot hints)
  /\ (forall s, In s (map hint_slot hints)
                <-> exists v, occupants (variables m) s = [v] /\ size v < 32)
  /\ Forall (fun h =>
               exists v,
                 occupants (variables m) (hint_slot h) = [v]
                 /\ wastedBytes h = 32 - size v
                 /\ In "Consider packing with bool variables (1 byte each)"
                       (suggestions h)
                 /\ List.length (suggestions h)
                    = (if size v <=? 12 then 3%nat else if size v <=? 28 then 2%nat else 1%nat))
            hints.
Proof.
  cbv zeta. rewrite findPackingOpportunities_unsorted.
  set (cmp := fun a b : PackingHint => wastedBytes b - wastedBytes a).
  set (raw := flat_map hintFor (groupVariablesBySlot (variables m))).
  pose proof (Array_sort_perm cmp raw) as Hperm.
  assert (Hraw : forall h, In h raw <->
            exists v, occupants (variables m) (hint_slot h) = [v] /\ size v < 32
                      /\ h = {| hint_slot := hint_slot h; wastedBytes := 32 - size v;
                                suggestions := generatePackingSuggestions v (32 - size v) |}).
  { intros h. unfold raw. rewrite in_flat_map. split.
    - intros ([s group] & Hin & Hh).
      apply hintFor_In in Hh as (v & -> & Hsize & ->). simpl.
      apply groupVariablesBySlot_In in Hin as [Hin _].
      exists v. auto.
    - intros (v & Hocc & Hsize & Hh).
      exists (hint_slot h, [v]). split.
      + apply groupVariablesBySlot_In. rewrite Hocc. split; [reflexivity|discriminate].
      + apply hintFor_In. exists v. auto. }
  split; [|split; [|split]].
  - pose proof (Array_sort_sorted (fun h => - wastedBytes h) cmp wasted_order raw) as H.
    eapply StronglySorted_ind with (P := StronglySorted _); [| |exact H].
    + constructor.
    + intros a l Hl IH Ha. constructor; auto.
      eapply Forall_impl; [|exact Ha]. simpl. intros; lia.
  - apply (Permutation_NoDup (Permutation_sym (Permutation_map hint_slot Hperm))).
    unfold raw. apply NoDup_flat_map_keys.
    + apply groupVariablesBySlot_NoDup.
    + intros [s group] h Hh. apply hintFor_In in Hh as (v & _ & _ & ->). reflexivity.
    + intros [s group]. unfold hintFor. cbn [fst snd].
      destruct group as [|v [|v' group]]; simpl; try lia.
      destruct (_ && _); simpl; try lia.
      destruct (_ >? 0); simpl; lia.
  - intros s. split.
    + intros Hs. apply (Permutation_in _ (Permutation_map hint_slot Hperm)) in Hs.
      apply in_map_iff in Hs as (h & <- & Hh).
      apply Hraw in Hh as (v & Hocc & Hsize & _). exists v. auto.
    + intros (v & Hocc & Hsize).
      apply (Permutation_in _ (Permutation_sym (Permutation_map hint_slot Hperm))).
      apply in_map_iff.
      exists {| hint_slot := s; wastedBytes := 32 - size v;
                suggestions := generatePackingSuggestions v (32 - size v) |}.
      split; [reflexivity|]. apply Hraw. exists v. auto.
  - apply Forall_forall. intros h Hh.
    apply (Permutation_in _ Hperm) in Hh.
    apply Hraw in Hh as (v & Hocc & Hsize & Hh).
    exists v. rewrite Hh at 2 3 4. cbn [wastedBytes suggestions].
    destruct (generatePackingSuggestions_count v Hsize). auto.
Qed.

(* ================================================================= *)
(** ** The storage summary *)

Lemma flat_map_singleton {A B : Type} (f : A -> B) (l : list A) :
  flat_map (fun e => [f e]) l = map f l.
Proof. induction l as [|x l IH]; simpl; congruence. Qed.

Lemma calculateSlotUtilization_unsorted (m : SlotMapping) :
  calculateSlotUtilization m =
  Array_sort (fun a b => su_slot a - su_slot b)
    (map utilizationOf (groupVariablesBySlot (variables m))).
Proof.
  unfold calculateSlotUtilization. f_equal.
  rewrite (forEach_flat_map (fun e => [utilizationOf e])).
  - simpl. apply flat_map_singleton.
  - intros acc [s group]. reflexivity.
Qed.

Lemma StronglySorted_strict {A : Type} (key : A -> Z) (l : list A) :
  StronglySorted (fun a b => key a <= key b) l -> NoDup (map key l) ->
  StronglySorted (fun a b => key a < key b) l.
Proof.
  induction 1 as [|x l Hl IH Hx]; simpl; intros Hnd; constructor.
  - apply IH. now inversion Hnd.
  - inversion Hnd as [|? ? Hnotin _]; subst.
    apply Forall_forall. intros y Hy.
    rewrite Forall_forall in Hx. specialize (Hx y Hy).
    assert (key y <> key x).
    { intros E. apply Hnotin. rewrite <- E. now apply in_map. }
    lia.
Qed.

(** Two strictly ascending lists with the same elements are equal. *)
Lemma ascending_unique (l1 l2 : list Z) :
  StronglySorted Z.lt l1 -> StronglySorted Z.lt l2 ->
  (forall x, In x l1 <-> In x l2) -> l1 = l2.
Proof.
  intros H1. revert l2.
  induction H1 as [|x l1 Hl1 IH Hx]; intros l2 H2 Hsame.
  - destruct l2 as [|y l2]; [reflexivity|].
    exfalso. apply (Hsame y). now left.
  - destruct H2 as [|y l2 Hl2 Hy].
    + exfalso. apply (Hsame x). now left.
    + rewrite Forall_forall in Hx, Hy.
      assert (x = y).
      { destruct (proj1 (Hsame x) (or_introl eq_refl)) as [->|Hin]; [reflexivity|].
        destruct (proj2 (Hsame y) (or_introl eq_refl)) as [->|Hin']; [reflexivity|].
        specialize (Hx y Hin'). specialize (Hy x Hin). lia. }
      subst y. f_equal. apply IH; auto.
      intros z. split; intros Hz.
      * destruct (proj1 (Hsame z) (or_intror Hz)) as [<-|]; auto.
        specialize (Hx x Hz). lia.
      * destruct (proj2 (Hsame z) (or_intror Hz)) as [<-|]; auto.
        specialize (Hy x Hz). lia.
Qed.

Lemma ascending_seq (n : nat) (start : nat) :
  StronglySorted Z.lt (map Z.of_nat (seq start n)).
Proof.
  revert start. induction n as [|n IH]; intros start; simpl; constructor; auto.
  apply Forall_forall. intros z Hz.
  apply in_map_iff in Hz as (k & <- & Hk). apply in_seq in Hk. lia.
Qed.




Lemma calculateSlotUtilization_rows (m : SlotMapping) :
  let rows := calculateSlotUtilization m in
  StronglySorted (fun a b => su_slot a < su_slot b) rows
  /\ (forall s, In s (map su_slot rows) <-> occupants (variables m) s <> [])
  /\ Forall (fun u =>
               usedBytes u = slot_bytes m (su_slot u)
               /\ availableBytes u = 32 - usedBytes u
               /\ su_variables u = map vname (occupants (variables m) (su_slot u)))
            rows.
Proof.
  cbv zeta. rewrite calculateSlotUtilization_unsorted.
  set (cmp := fun a b : SlotUtilization => su_slot a - su_slot b).
  set (raw := map utilizationOf (groupVariablesBySlot (variables m))).
  pose proof (Array_sort_perm cmp raw) as Hperm.
  assert (Hslots : map su_slot raw = map_keys (groupVariablesBySlot (variables m))).
  { unfold raw, map_keys. rewrite map_map. apply map_ext. now intros [s g]. }
  assert (Hraw : forall u, In u raw ->
            occupants (variables m) (su_slot u) <> []
            /\ usedBytes u = slot_bytes m (su_slot u)
            /\ availableBytes u = 32 - usedBytes u
            /\ su_variables u = map vname (occupants (variables m) (su_slot u))).
  { intros u Hu. apply in_map_iff in Hu as ([s g] & <- & Hin).
    apply groupVariablesBySlot_In in Hin as [-> Hne]. simpl. auto. }
  split; [|split].
  - apply StronglySorted_strict.
    + apply (Array_sort_sorted su_slot cmp). reflexivity.
    + apply (Permutation_NoDup (Permutation_sym (Permutation_map su_slot Hperm))).
      rewrite Hslots. apply groupVariablesBySlot_NoDup.
  - intros s. split.
    + intros Hs. apply (Permutation_in _ (Permutation_map su_slot Hperm)) in Hs.
      apply in_map_iff in Hs as (u & <- & Hu). now apply Hraw.
    + intros Hne.
      apply (Permutation_in _ (Permutation_sym (Permutation_map su_slot Hperm))).
      rewrite Hslots. apply (in_map fst _ (s, occupants (variables m) s)).
      apply groupVariablesBySlot_In. auto.
  - apply Forall_forall. intros u Hu. apply (Permutation_in _ Hperm) in Hu.
    now apply Hraw.
Qed.


(** For a calculated layout the utilization rows are the slots 0 to
    [totalSlots - 1], one row each and in this order, and every row uses
    between 1 and 32 bytes. *)
Lemma plain_utilization (contract : ContractAST) :
  let m := calculateSlots_plain contract in
  map su_slot (calculateSlotUtilization m)
    = map Z.of_nat (seq 0 (Z.to_nat (totalSlots m)))
  /\ Forall (fun u => 1 <= usedBytes u <= 32 /\ 0 <= availableBytes u <= 31)
            (calculateSlotUtilization m).
Proof.
  cbv zeta.
  destruct (calculateSlotUtilization_rows (calculateSlots_plain contract))
    as (Hsorted & Hmem & Hrows).
  pose proof (calculateSlots_lay_invariant contract) as Hinv.
  rewrite calculateSlots_totalSlots.
  unfold calculateSlots_plain in *; cbn [variables] in *.
  set (st := forEach (stateVariables contract) place_plain cursor0) in *.
  assert (Hocc : forall s, occupants (cur_variables st) s <> []
                           <-> 0 <= s < slotCount (cur_variables st)).
  { intros s. split.
    - intros Hne. destruct (occupants (cur_variables st) s) as [|v g] eqn:E;
        [contradiction|].
      assert (Hv : In v (occupants (cur_variables st) s)) by (rewrite E; now left).
      apply In_occupants in Hv as [Hv <-].
      pose proof (li_range _ Hinv v Hv). pose proof (li_before _ Hinv v Hv).
      rewrite (li_total _ Hinv).
      destruct (Z.eqb_spec (currentOffset st) 0); lia.
    - intros Hs. destruct (li_nogap _ Hinv s Hs) as (v & Hv & Hvs).
      intros Hnil.
      assert (Hin : In v (occupants (cur_variables st) s)) by now apply In_occupants.
      rewrite Hnil in Hin. contradiction. }
  split.
  - apply ascending_unique.
    + now apply StronglySorted_map.
    + apply ascending_seq.
    + intros s. rewrite Hmem, Hocc, in_map_iff. split.
      * intros Hs. exists (Z.to_nat s). split; [lia|]. apply in_seq. lia.
      * intros (n & <- & Hn). apply in_seq in Hn. lia.
  - apply Forall_forall. intros u Hu.
    rewrite Forall_forall in Hrows. destruct (Hrows u Hu) as (Hused & Havail & _).
    assert (Hs : In (su_slot u) (map su_slot (calculateSlotUtilization
                   {| contractName := name contract;
                      variables := cur_variables st;
                      totalSlots := slotCount (cur_variables st);
                      packedSlots := map fst (filter (fun entry => snd entry >? 1)
                                                (countBySlot (cur_variables st))) |})))
      by now apply in_map.
    apply Hmem in Hs.
    unfold slot_bytes in Hused; cbn [variables] in Hused.
    pose proof (li_bound _ Hinv (su_slot u)).
    destruct (occupants (cur_variables st) (su_slot u)) as [|v g] eqn:E;
      [contradiction|].
    assert (Hv : In v (occupants (cur_variables st) (su_slot u))) by (rewrite E; now left).
    apply In_occupants in Hv as [Hv _].
    pose proof (li_range _ Hinv v Hv).
    assert (size v + Z.of_nat (List.length (v :: g)) - 1 <= sumSizes (v :: g)).
    { apply sumSizes_In; [|now left].
      intros x Hx. rewrite <- E in Hx. apply In_occupants in Hx as [Hx _].
      pose proof (li_range _ Hinv x Hx). lia. }
    cbn [List.length] in *. lia.
Qed.

(* ================================================================= *)
(** ** The three efficiency figures *)

Lemma Qeq_bool_inject_Z (z : Z) : Qeq_bool (inject_Z z) 0 = (z =? 0).
Proof. unfold Qeq_bool, inject_Z; simpl. now rewrite Z.mul_1_r. Qed.

Lemma share_finite (usedBytes totalBytes : Z) :
  totalBytes <> 0 ->
  is_finite (num_mul (num_div (num usedBytes) (num totalBytes)) (num 100)) = true.
Proof.
  intros H. unfold num, num_div. rewrite Qeq_bool_inject_Z.
  destruct (Z.eqb_spec totalBytes 0); [contradiction|reflexivity].
Qed.

Lemma calculateSlots_length (contract : ContractAST) :
  List.length (variables (calculateSlots_plain contract))
  = List.length (stateVariables contract).
Proof.
  unfold calculateSlots_plain; cbn [variables].
  induction (stateVariables contract) as [|x xs IH] using rev_ind; [reflexivity|].
  change (xs ++ [x]) with (push xs x). rewrite forEach_push_last.
  unfold push. rewrite length_app, <- IH. cbn [List.length].
  unfold place_plain, push. destruct (_ >? _); cbn [cur_variables];
    destruct (_ >=? _); cbn [cur_variables]; now rewrite length_app.
Qed.

Lemma calculateSlots_nonempty (contract : ContractAST) :
  stateVariables contract <> [] -> 0 < totalSlots (calculateSlots_plain contract).
Proof.
  intros Hne. rewrite calculateSlots_totalSlots.
  pose proof (calculateSlots_length contract) as Hnames.
  pose proof (calculateSlots_lay_invariant contract) as Hinv.
  unfold calculateSlots_plain in *; cbn [variables] in *.
  set (st := forEach (stateVariables contract) place_plain cursor0) in *.
  destruct (cur_variables st) as [|v vars] eqn:E.
  - destruct (stateVariables contract); [contradiction|discriminate].
  - pose proof (li_range _ Hinv v) as Hv. rewrite E in Hv.
    specialize (Hv (or_introl eq_refl)).
    unfold slotCount. simpl.
    pose proof (Math_max_ge (slot v) (map slot vars)). lia.
Qed.

(** The summary's efficiency is a finite number for every mapping.  For the
    layout of a contract with at least one variable it is the figure of
    [calculatePackingEfficiency] and of the upgrade analyzer's
    [calculateEfficiency]; for a contract without variables the three
    disagree: 0, 100 and [NaN]. *)
Lemma plain_efficiency_figures (contract : ContractAST) :
  let m := calculateSlots_plain contract in
  (forall mapping, is_finite (efficiency (generate mapping)) = true)
  /\ (stateVariables contract <> [] ->
      efficiency (generate m) = calculatePackingEfficiency m
      /\ calculateEfficiency m = calculatePackingEfficiency m
      /\ is_finite (calculatePackingEfficiency m) = true)
  /\ (stateVariables contract = [] ->
      efficiency (generate m) = num 0
      /\ calculatePackingEfficiency m = num 100
      /\ calculateEfficiency m = NaN).
Proof.
  cbv zeta. split; [|split].
  - intros mapping. unfold generate; cbn [efficiency].
    destruct (Z.gtb_spec (match map slot (variables mapping) with
                          | [] => 0
                          | s :: rest => Math_max s rest + 1
                          end) 0); [|reflexivity].
    apply share_finite. lia.
  - intros Hne. pose proof (calculateSlots_nonempty contract Hne) as Hpos.
    unfold generate, calculatePackingEfficiency, calculateEfficiency;
      cbn [efficiency].
    change (match map slot (variables (calculateSlots_plain contract)) with
            | [] => 0
            | s :: rest => Math_max s rest + 1
            end) with (totalSlots (calculateSlots_plain contract)).
    destruct (Z.gtb_spec (totalSlots (calculateSlots_plain contract)) 0); [|lia].
    destruct (Z.eqb_spec (totalSlots (calculateSlots_plain contract)) 0); [lia|].
    repeat split. apply share_finite. lia.
  - intros Hnil. unfold calculateSlots_plain, generate, calculatePackingEfficiency,
      calculateEfficiency. rewrite Hnil. repeat split.
Qed.

(* ================================================================= *)
(** ** How the diff engine classifies variables *)

Lemma keyed_push (vars : list StorageVariable) (x : StorageVariable) (k : string) :
  keyed (vars ++ [x]) k = if String.eqb (byKey x) k then Some x else keyed vars k.
Proof. unfold keyed. rewrite rev_app_distr. reflexivity. Qed.

Lemma keyMap_get (vars : list StorageVariable) (k : string) :
  map_get String.eqb (keyMap vars) k = keyed vars k.
Proof.
  induction vars as [|x vars IH] using rev_ind; [reflexivity|].
  rewrite keyed_push, <- IH. unfold keyMap, map_of_entries.
  rewrite map_app. simpl map.
  change (map (fun v => (byKey v, v)) vars ++ [(byKey x, x)])
    with (push (map (fun v => (byKey v, v)) vars) (byKey x, x)).
  rewrite forEach_push_last. simpl.
  destruct (String.eqb_spec (byKey x) k) as [<-|Hne].
  - apply (map_get_set_same _ String.eqb_eq).
  - now apply (map_get_set_other _ String.eqb_eq).
Qed.

Lemma keyMap_entry (vars : list StorageVariable) (k : string) (v : StorageVariable) :
  In (k, v) (keyMap vars) <-> keyed vars k = Some v.
Proof.
  rewrite <- keyMap_get. split.
  - apply (In_map_get _ String.eqb_eq), keyMap_NoDup.
  - apply (map_get_In _ String.eqb_eq).
Qed.

Lemma keyed_Some (vars : list StorageVariable) (k : string) (v : StorageVariable) :
  keyed vars k = Some v -> byKey v = k /\ In v vars.
Proof.
  unfold keyed. intros H. apply find_some in H as [Hin Hk].
  split; [now apply String.eqb_eq|now apply in_rev].
Qed.

Lemma keyed_None (vars : list StorageVariable) (k : string) :
  keyed vars k = None <-> forall v, In v vars -> byKey v <> k.
Proof.
  unfold keyed. split.
  - intros H v Hv Hk. apply in_rev in Hv.
    pose proof (find_none _ _ H v Hv) as Hf. simpl in Hf.
    apply String.eqb_neq in Hf. contradiction.
  - intros H. destruct (find _ (rev vars)) as [v|] eqn:E; [|reflexivity].
    apply find_some in E as [Hin Hk]. apply in_rev in Hin.
    apply String.eqb_eq in Hk. exfalso. exact (H v Hin Hk).
Qed.

Lemma classifyOld_flat_map (keys1 keys2 : JsMap (K := string) (V := StorageVariable)) :
  classifyOld keys1 keys2 =
  (flat_map (movedFor keys2) keys1, flat_map (removedFor keys2) keys1).
Proof.
  unfold classifyOld, forEach.
  assert (H : forall l moved removed,
             fold_left
               (fun '(moved, removed) '(k, var1) =>
                  match map_get String.eqb keys2 k with
                  | None => (moved, push removed var1)
                  | Some var2 =>
                      if negb (slot var2 =? slot var1) || negb (offset var2 =? offset var1)
                      then (push moved var2, removed)
                      else (moved, removed)
                  end) l (moved, removed)
             = (moved ++ flat_map (movedFor keys2) l,
                removed ++ flat_map (removedFor keys2) l)).
  { induction l as [|[k var1] l IH]; intros moved removed.
    - cbn [fold_left flat_map]. now rewrite !app_nil_r.
    - cbn [fold_left flat_map].
      unfold movedFor at 1, removedFor at 1. cbn [fst snd].
      destruct (map_get String.eqb keys2 k) as [var2|].
      + destruct (_ || _); rewrite IH; unfold push; cbn [app];
          now rewrite <- ?app_assoc, ?app_nil_r.
      + rewrite IH. unfold push. cbn [app]. now rewrite <- app_assoc. }
  apply (H keys1 [] []).
Qed.

Lemma classifyNew_flat_map (keys1 keys2 : JsMap (K := string) (V := StorageVariable)) :
  classifyNew keys1 keys2 = flat_map (addedFor keys1) keys2.
Proof.
  unfold classifyNew. rewrite (forEach_flat_map (addedFor keys1)); [reflexivity|].
  intros acc [k var2]. unfold addedFor, push, map_has. cbn [fst snd].
  destruct (map_get String.eqb keys1 k); simpl; [now rewrite app_nil_r|reflexivity].
Qed.

Lemma compare_fields (v1 v2 : SlotMapping) :
  moved (compare v1 v2)
    = flat_map (movedFor (keyMap (variables v2))) (keyMap (variables v1))
  /\ removed (compare v1 v2)
     = flat_map (removedFor (keyMap (variables v2))) (keyMap (variables v1))
  /\ added (compare v1 v2)
     = flat_map (addedFor (keyMap (variables v1))) (keyMap (variables v2))
  /\ collisions (compare v1 v2)
     = forEach (set_of_list Z.eqb
                  (Object_keys (occupancy v1) ++ Object_keys (occupancy v2)))
         (scanSlot (set_of_list String.eqb (map byKey (moved (compare v1 v2))))
                   (occupancy v1) (occupancy v2)) [].
Proof.
  unfold compare. rewrite classifyOld_flat_map, classifyNew_flat_map.
  repeat split.
Qed.

Lemma keyMap_entry_key (vars : list StorageVariable) (k : string) (v : StorageVariable) :
  In (k, v) (keyMap vars) -> byKey v = k.
Proof. intros H. apply keyMap_entry, keyed_Some in H. tauto. Qed.

Lemma flat_map_length_le {A B : Type} (f g : A -> list B) (l : list A) :
  (forall x, (List.length (f x) + List.length (g x) <= 1)%nat) ->
  (List.length (flat_map f l) + List.length (flat_map g l) <= List.length l)%nat.
Proof.
  intros H. induction l as [|x l IH]; simpl; [lia|].
  rewrite !length_app. specialize (H x). lia.
Qed.

Lemma map_set_length {V : Type} (m : JsMap (K := string) (V := V)) (k : string) (v : V) :
  (List.length (map_set String.eqb m k v) <= S (List.length m))%nat.
Proof.
  induction m as [|[k' v'] m IH]; simpl; [lia|].
  destruct (String.eqb k' k); simpl; lia.
Qed.

Lemma keyMap_length (vars : list StorageVariable) :
  (List.length (keyMap vars) <= List.length vars)%nat.
Proof.
  induction vars as [|x vars IH] using rev_ind; [simpl; lia|].
  unfold keyMap, map_of_entries in *. rewrite map_app. simpl map.
  change (map (fun v => (byKey v, v)) vars ++ [(byKey x, x)])
    with (push (map (fun v => (byKey v, v)) vars) (byKey x, x)).
  rewrite forEach_push_last, length_app. simpl.
  pose proof (map_set_length
                (forEach (map (fun v => (byKey v, v)) vars)
                   (fun m e => map_set String.eqb m (fst e) (snd e)) []) (byKey x) x).
  lia.
Qed.

Lemma NoDup_flat_map_entries {K V C : Type} (f : K * V -> list C) (key : C -> K)
    (m : list (K * V)) :
  NoDup (map fst m) ->
  (forall e c, In e m -> In c (f e) -> key c = fst e) ->
  (forall e, (List.length (f e) <= 1)%nat) ->
  NoDup (map key (flat_map f m)).
Proof.
  intros Hnd Hkey Hone.
  induction m as [|e m IH]; simpl; [constructor|].
  inversion Hnd as [|? ? Hnotin Hnd']; subst.
  rewrite map_app.
  assert (IH' : NoDup (map key (flat_map f m))).
  { apply IH; [exact Hnd'|]. intros e2 c He2. apply Hkey. now right. }
  pose proof (Hone e) as He. pose proof (Hkey e) as Hke.
  destruct (f e) as [|c [|c' rest]]; simpl in *; auto; [|lia].
  constructor; auto.
  intros Hin. apply Hnotin.
  rewrite (Hke c (or_introl eq_refl) (or_introl eq_refl)) in Hin.
  apply in_map_iff in Hin as (c2 & Hc2 & Hin).
  apply in_flat_map in Hin as (e2 & He2 & Hin).
  rewrite <- Hc2, (Hkey e2 c2 (or_intror He2) Hin). now apply in_map.
Qed.

Lemma In_moved (v1 v2 : SlotMapping) (x : StorageVariable) :
  In x (moved (compare v1 v2))
  <-> keyed (variables v2) (byKey x) = Some x
      /\ exists old, keyed (variables v1) (byKey x) = Some old
                     /\ (slot old <> slot x \/ offset old <> offset x).
Proof.
  destruct (compare_fields v1 v2) as (-> & _).
  rewrite in_flat_map. split.
  - intros ([k var1] & Hin & Hx). unfold movedFor in Hx. cbn [fst snd] in Hx.
    rewrite keyMap_get in Hx.
    destruct (keyed (variables v2) k) as [var2|] eqn:E; [|contradiction].
    destruct (Z.eqb_spec (slot var2) (slot var1)) as [Hs|Hs];
      destruct (Z.eqb_spec (offset var2) (offset var1)) as [Ho|Ho];
      simpl in Hx; try contradiction; destruct Hx as [<-|[]];
      pose proof (keyed_Some _ _ _ E) as [<- _];
      (split; [exact E|]); exists var1;
      (split; [now apply keyMap_entry|]); auto.
  - intros (H2 & old & H1 & Hdiff).
    exists (byKey x, old). split; [now apply keyMap_entry|].
    unfold movedFor. cbn [fst snd]. rewrite keyMap_get, H2.
    destruct (Z.eqb_spec (slot x) (slot old));
      destruct (Z.eqb_spec (offset x) (offset old)); simpl; auto.
    exfalso. destruct Hdiff; congruence.
Qed.

(** [compare] sorts variables by their key.  Removed are the variables the
    old version holds under a key the new version lacks; added are those
    the new version holds under a key the old version lacks; moved are the
    new version's variables whose key the old version holds at another slot
    or offset.  No key is listed twice in a list. *)
Theorem compare_classification (v1 v2 : SlotMapping) :
  let r := compare v1 v2 in
  (forall x, In x (removed r)
             <-> keyed (variables v1) (byKey x) = Some x
                 /\ keyed (variables v2) (byKey x) = None)
  /\ (forall x, In x (added r)
                <-> keyed (variables v2) (byKey x) = Some x
                    /\ keyed (variables v1) (byKey x) = None)
  /\ (forall x, In x (moved r)
                <-> keyed (variables v2) (byKey x) = Some x
                    /\ exists old, keyed (variables v1) (byKey x) = Some old
                                   /\ (slot old <> slot x \/ offset old <> offset x))
  /\ NoDup (map byKey (removed r))
  /\ NoDup (map byKey (added r))
  /\ NoDup (map byKey (moved r)).
Proof.
  cbv zeta. destruct (compare_fields v1 v2) as (-> & -> & -> & _).
  split; [|split; [|split; [|split; [|split]]]].
  - intros x. rewrite in_flat_map. split.
    + intros ([k var1] & Hin & Hx). unfold removedFor in Hx. cbn [fst snd] in Hx.
      rewrite keyMap_get in Hx.
      destruct (keyed (variables v2) k) eqn:E; [contradiction|].
      destruct Hx as [<-|[]].
      pose proof (keyMap_entry_key _ _ _ Hin) as ->.
      apply keyMap_entry in Hin. auto.
    + intros [H1 H2]. exists (byKey x, x). split; [now apply keyMap_entry|].
      unfold removedFor. cbn [fst snd]. rewrite keyMap_get, H2. now left.
  - intros x. rewrite in_flat_map. split.
    + intros ([k var2] & Hin & Hx). unfold addedFor, map_has in Hx. cbn [fst snd] in Hx.
      rewrite keyMap_get in Hx.
      destruct (keyed (variables v1) k) eqn:E; [contradiction|].
      destruct Hx as [<-|[]].
      pose proof (keyMap_entry_key _ _ _ Hin) as ->.
      apply keyMap_entry in Hin. auto.
    + intros [H1 H2]. exists (byKey x, x). split; [now apply keyMap_entry|].
      unfold addedFor, map_has. cbn [fst snd]. rewrite keyMap_get, H2. now left.
  - intros x. rewrite <- (proj1 (compare_fields v1 v2)). apply In_moved.
  - apply NoDup_flat_map_entries.
    + apply keyMap_NoDup.
    + intros [k var1] x Hin Hx. unfold removedFor in Hx. cbn [fst snd] in *.
      destruct (map_get String.eqb _ k); [contradiction|].
      destruct Hx as [<-|[]]. now apply keyMap_entry_key in Hin.
    + intros [k var1]. unfold removedFor. destruct (map_get _ _ _); simpl; lia.
  - apply NoDup_flat_map_entries.
    + apply keyMap_NoDup.
    + intros [k var2] x Hin Hx. unfold addedFor in Hx. cbn [fst snd] in *.
      destruct (negb _); [|contradiction].
      destruct Hx as [<-|[]]. now apply keyMap_entry_key in Hin.
    + intros [k var2]. unfold addedFor. destruct (negb _); simpl; lia.
  - apply NoDup_flat_map_entries.
    + apply keyMap_NoDup.
    + intros [k var1] x _ Hx. unfold movedFor in Hx. cbn [fst snd] in *.
      rewrite keyMap_get in Hx.
      destruct (keyed (variables v2) k) as [var2|] eqn:E; [|contradiction].
      destruct (_ || _); [|contradiction].
      destruct Hx as [<-|[]]. now apply keyed_Some in E.
    + intros [k var1]. unfold movedFor.
      destruct (map_get _ _ _); [destruct (_ || _)|]; simpl; lia.
Qed.

(* ================================================================= *)
(** ** The collisions the diff engine reports *)

Lemma In_set_add_string (s : list string) (x y : string) :
  In y (set_add String.eqb s x) <-> In y s \/ y = x.
Proof.
  unfold set_add, set_has.
  destruct (existsb (String.eqb x) s) eqn:E.
  - apply existsb_exists in E as [z [Hz Hxz]]. apply String.eqb_eq in Hxz. subst z.
    intuition congruence.
  - unfold push. rewrite in_app_iff. simpl. intuition congruence.
Qed.

Lemma In_set_of_list_string (xs : list string) (y : string) :
  In y (set_of_list String.eqb xs) <-> In y xs.
Proof.
  induction xs as [|x xs IH] using rev_ind.
  - reflexivity.
  - unfold set_of_list. change (xs ++ [x]) with (push xs x).
    rewrite forEach_push_last. fold (set_of_list String.eqb xs).
    rewrite In_set_add_string, IH. unfold push. rewrite in_app_iff. simpl.
    intuition congruence.
Qed.

Lemma set_has_string (s : list string) (x : string) :
  set_has String.eqb s x = true <-> In x s.
Proof.
  unfold set_has. rewrite existsb_exists. split.
  - intros (y & Hy & E). apply String.eqb_eq in E. now subst.
  - intros H. exists x. split; [exact H|apply String.eqb_refl].
Qed.

Lemma checkPair_app (movedKeys : list string) (s : Z)
    (cs : list Collision) (a b : StorageVariable) :
  checkPair movedKeys s cs a b = cs ++ collisionFor movedKeys s a b.
Proof.
  unfold collisionFor, checkPair, push.
  destruct (_ || _); [now rewrite app_nil_r|].
  destruct (_ && _); [|now rewrite app_nil_r].
  destruct (_ || _); [reflexivity|now rewrite app_nil_r].
Qed.

Lemma scanSlot_flat_map (movedKeys : list string) (occ1 occ2 : Occupancy)
    (cs : list Collision) (s : Z) :
  scanSlot movedKeys occ1 occ2 cs s =
  cs ++ flat_map (fun a => flat_map (collisionFor movedKeys s a) (occ_get occ2 s))
          (occ_get occ1 s).
Proof.
  unfold scanSlot.
  rewrite (forEach_flat_map
             (fun a => flat_map (collisionFor movedKeys s a) (occ_get occ2 s)));
    [reflexivity|].
  intros acc a.
  rewrite (forEach_flat_map (collisionFor movedKeys s a)); [reflexivity|].
  intros acc' b. apply checkPair_app.
Qed.

Lemma In_collisionFor (movedKeys : list string) (s : Z) (a b : StorageVariable)
    (c : Collision) :
  In c (collisionFor movedKeys s a b) <->
  ~ In (byKey a) movedKeys /\ ~ In (byKey b) movedKeys
  /\ overlap a b /\ ~ same_identity a b
  /\ c = {| c_slot := s;
            range := shared_bytes a b;
            c_v1 := a;
            c_v2 := b;
            reason :=
              if negb (String.eqb (vname a) (vname b))
              then ("different variables occupy same bytes ("
                      ++ vname a ++ " vs " ++ vname b ++ ")")%string
              else ("same variable has different type ("
                      ++ vtype a ++ " vs " ++ vtype b ++ ")")%string |}.
Proof.
  unfold collisionFor, checkPair, push, overlap, same_identity, shared_bytes.
  rewrite <- !set_has_string.
  destruct (set_has String.eqb movedKeys (byKey a));
    [simpl; split; [contradiction|intros (H & _); now contradiction H]|].
  destruct (set_has String.eqb movedKeys (byKey b));
    [simpl; split; [contradiction|intros (_ & H & _); now contradiction H]|].
  cbn [orb].
  destruct (Z.ltb_spec (offset a) (offset b + size b)) as [Hab|Hab];
    [|simpl; split; [contradiction|intros (_ & _ & Ho & _); lia]].
  destruct (Z.ltb_spec (offset b) (offset a + size a)) as [Hba|Hba];
    [|simpl; split; [contradiction|intros (_ & _ & Ho & _); lia]].
  cbn [andb].
  destruct (String.eqb_spec (vname a) (vname b)) as [Hn|Hn];
    destruct (String.eqb_spec (vtype a) (vtype b)) as [Ht|Ht]; cbn [negb orb app].
  - split; [contradiction|]. intros (_ & _ & _ & H & _). apply H. now split.
  - split.
    + intros [<-|[]]. repeat split; try discriminate; try lia; tauto.
    + intros (_ & _ & _ & _ & ->). now left.
  - split.
    + intros [<-|[]]. repeat split; try discriminate; try lia; tauto.
    + intros (_ & _ & _ & _ & ->). now left.
  - split.
    + intros [<-|[]]. repeat split; try discriminate; try lia; tauto.
    + intros (_ & _ & _ & _ & ->). now left.
Qed.

Lemma compare_collisions_flat_map (v1 v2 : SlotMapping) :
  collisions (compare v1 v2) =
  flat_map
    (fun s =>
       flat_map
         (fun a =>
            flat_map
              (collisionFor
                 (set_of_list String.eqb (map byKey (moved (compare v1 v2)))) s a)
              (occ_get (occupancy v2) s))
         (occ_get (occupancy v1) s))
    (set_of_list Z.eqb (Object_keys (occupancy v1) ++ Object_keys (occupancy v2))).
Proof.
  destruct (compare_fields v1 v2) as (_ & _ & _ & ->).
  rewrite (forEach_flat_map
             (fun s =>
                flat_map
                  (fun a =>
                     flat_map
                       (collisionFor
                          (set_of_list String.eqb (map byKey (moved (compare v1 v2)))) s a)
                       (occ_get (occupancy v2) s))
                  (occ_get (occupancy v1) s))); [reflexivity|].
  intros acc s. apply scanSlot_flat_map.
Qed.

(** The collisions [compare] reports are exactly the pairs of a variable of
    the old version and a variable of the new version that lie in the same
    slot, share a byte, differ in name or type, and whose keys are not among
    the moved variables; each comes with the slot, the shared bytes and the
    two variables. *)
Theorem compare_collisions (v1 v2 : SlotMapping) (c : Collision) :
  In c (collisions (compare v1 v2)) <->
  exists a b,
    In a (variables v1) /\ In b (variables v2) /\ slot a = slot b
    /\ overlap a b /\ ~ same_identity a b
    /\ ~ In (byKey a) (map byKey (moved (compare v1 v2)))
    /\ ~ In (byKey b) (map byKey (moved (compare v1 v2)))
    /\ c = collisionOf a b.
Proof.
  rewrite compare_collisions_flat_map, in_flat_map. split.
  - intros (s & _ & Hc). apply in_flat_map in Hc as (a & Ha & Hc).
    apply in_flat_map in Hc as (b & Hb & Hc).
    apply In_occupancy in Ha as [Ha Hsa], Hb as [Hb Hsb].
    apply In_collisionFor in Hc as (Hma & Hmb & Ho & Hd & ->).
    rewrite In_set_of_list_string in Hma, Hmb.
    exists a, b. subst s. repeat split; auto; try apply Ho.
  - intros (a & b & Ha & Hb & Hs & Ho & Hd & Hma & Hmb & ->).
    assert (Hoa : In a (occ_get (occupancy v1) (slot a))) by now apply In_occupancy.
    assert (Hob : In b (occ_get (occupancy v2) (slot a))) by now apply In_occupancy.
    exists (slot a). split.
    + apply In_set_of_list, in_or_app. left.
      apply In_Object_keys. exact (occ_get_key _ _ _ Hoa).
    + apply in_flat_map. exists a. split; [exact Hoa|].
      apply in_flat_map. exists b. split; [exact Hob|].
      apply In_collisionFor. rewrite !In_set_of_list_string.
      repeat split; auto; apply Ho.
Qed.

(* ================================================================= *)
(** ** The upgrade analyzer: verdict and recommendations *)

Lemma filter_severity (s s' : Severity) (l : list UpgradeChange) :
  Forall (fun c => severity c = s') l ->
  filter (fun c => severity_eqb (severity c) s) l = if severity_eqb s' s then l else [].
Proof.
  intros H. destruct (severity_eqb s' s) eqn:E.
  - apply filter_keep. eapply Forall_impl; [|exact H]. intros c ->. exact E.
  - apply filter_drop. eapply Forall_impl; [|exact H]. intros c ->. exact E.
Qed.

(** The critical changes and the warnings of [identifyChanges], counted on
    the lists of the report. *)
Lemma countSeverity_identifyChanges (v1 v2 : SlotMapping) (r : CollisionReport) :
  let typeChanges := filter (has_type ch_typeChanged) (identifyChanges v1 v2 r) in
  countSeverity sev_critical (identifyChanges v1 v2 r)
    = Z.of_nat (List.length (collisions r) + List.length (moved r)
                + List.length typeChanges)
  /\ countSeverity sev_warning (identifyChanges v1 v2 r)
     = Z.of_nat (List.length (removed r)).
Proof.
  cbv zeta. rewrite (identifyChanges_by_type v1 v2 r ch_typeChanged).
  unfold countSeverity. rewrite identifyChanges_shape, !filter_app.
  rewrite !(filter_severity _ sev_critical (map collisionChange _))
    by (now apply Forall_map_const).
  rewrite !(filter_severity _ sev_critical (map (fun v => movedChange _ v) _))
    by (now apply Forall_map_const).
  rewrite !(filter_severity _ sev_warning (map removedChange _))
    by (now apply Forall_map_const).
  rewrite !(filter_severity _ sev_safe (map addedChange _))
    by (now apply Forall_map_const).
  rewrite !(filter_severity _ sev_critical (flat_map _ _))
    by (eapply Forall_impl; [|apply typeChangesFor_type]; simpl; tauto).
  cbn [severity_eqb]. rewrite ?app_nil_r, ?app_nil_l, !length_app, !length_map.
  cbn [app List.length]. split; f_equal; lia.
Qed.

Lemma length_zero_nil {A : Type} (l : list A) : List.length l = 0%nat <-> l = [].
Proof. destruct l; simpl; split; intros; congruence. Qed.

(** The verdict of [analyze] in terms of the report of [compare]: the score
    is 100 less 40 for every collision, moved variable and type change and
    less 15 for every removed variable, not below 0; added variables cost
    nothing.  A report [compare] calls unsafe always gives the level
    critical and a score of at most 60; the level is safe exactly when
    nothing collides, moved, was removed or changed type, and then the score
    is 100. *)
Theorem analyze_verdict (v1 v2 : SlotMapping) :
  let result := analyze v1 v2 in
  let report := compare v1 v2 in
  let typeChanges := filter (has_type ch_typeChanged) (changes result) in
  score (compatibility result)
    = Z.max 0 (100
               - 40 * Z.of_nat (List.length (collisions report)
                                + List.length (moved report)
                                + List.length typeChanges)
               - 15 * Z.of_nat (List.length (removed report)))
  /\ (safe report = false ->
      level (compatibility result) = lvl_critical
      /\ score (compatibility result) <= 60)
  /\ (level (compatibility result) = lvl_safe
      <-> collisions report = [] /\ moved report = [] /\ removed report = []
          /\ typeChanges = [])
  /\ (level (compatibility result) = lvl_safe -> score (compatibility result) = 100).
Proof.
  cbv zeta. unfold analyze. cbn [changes compatibility].
  destruct (countSeverity_identifyChanges v1 v2 (compare v1 v2)) as [Hc Hw].
  cbv zeta in Hc.
  set (all := identifyChanges v1 v2 (compare v1 v2)) in *.
  set (types := filter (has_type ch_typeChanged) all) in *.
  assert (Hsafe : safe (compare v1 v2) = false ->
                  (0 < List.length (collisions (compare v1 v2))
                       + List.length (moved (compare v1 v2)))%nat).
  { unfold compare. destruct (classifyOld _ _) as [mv rm]. cbn [safe collisions moved].
    intros H. apply Bool.negb_false_iff, Bool.orb_true_iff in H.
    destruct H as [H|H]; apply Z.ltb_lt in H; lia. }
  rewrite <- !length_zero_nil.
  unfold assessCompatibility. rewrite !Z.gtb_ltb, Hc, Hw.
  destruct (Z.ltb_spec 0 (Z.of_nat (List.length (collisions (compare v1 v2))
                                    + List.length (moved (compare v1 v2))
                                    + List.length types)));
    [|destruct (Z.ltb_spec 2 (Z.of_nat (List.length (removed (compare v1 v2)))));
      [|destruct (Z.ltb_spec 0 (Z.of_nat (List.length (removed (compare v1 v2)))))]];
    cbn [score level];
    (split; [lia|split; [intros Hu; specialize (Hsafe Hu); split; [reflexivity || lia|lia]
                        |split; [split; [discriminate || (intros _; lia)
                                        |intros; reflexivity || lia]
                                |discriminate || (intros _; lia)]]]).
Qed.


(* ================================================================= *)
(** ** Keys and identities *)

Lemma includes_bar_cons (c : ascii) (n : string) :
  includes (String c n) "|" = false -> c <> "|"%char /\ includes n "|" = false.
Proof.
  cbn [includes String.prefix].
  destruct (Ascii.ascii_dec "|" c) as [<-|Hne]; intros H.
  - destruct n; discriminate H.
  - split; [congruence|exact H].
Qed.

Lemma bar_separates (n1 t1 n2 t2 : string) :
  includes n1 "|" = false -> includes n2 "|" = false ->
  (n1 ++ "|" ++ t1)%string = (n2 ++ "|" ++ t2)%string ->
  n1 = n2 /\ t1 = t2.
Proof.
  revert n2. induction n1 as [|c n1 IH]; intros [|d n2] H1 H2 E;
    cbn [String.append] in E.
  - injection E as ->. auto.
  - apply includes_bar_cons in H2 as [H2 _]. injection E as <- _. congruence.
  - apply includes_bar_cons in H1 as [H1 _]. injection E as -> _. congruence.
  - apply includes_bar_cons in H1 as [_ H1], H2 as [_ H2].
    injection E as -> E. destruct (IH n2 H1 H2 E) as [-> ->]. auto.
Qed.

(** Two variables whose names hold no vertical bar have the same key
    exactly when they have the same name and the same type. *)
Theorem byKey_same_identity (a b : StorageVariable) :
  includes (vname a) "|" = false ->
  includes (vname b) "|" = false ->
  (byKey a = byKey b <-> same_identity a b).
Proof.
  intros Ha Hb. unfold same_identity. split.
  - intros E. exact (bar_separates _ _ _ _ Ha Hb E).
  - intros [Hn Ht]. unfold byKey. now rewrite Hn, Ht.
Qed.

Lemma byKey_same_identity_witness :
  byKey (stored "owner" "address" 0 0 20) = byKey (stored "owner" "address" 1 0 20)
  <-> same_identity (stored "owner" "address" 0 0 20) (stored "owner" "address" 1 0 20).
Proof.
  apply (byKey_same_identity (stored "owner" "address" 0 0 20)
                             (stored "owner" "address" 1 0 20)); reflexivity.
Defined.

(* ================================================================= *)
(** ** The diff analysis *)

Lemma keyMap_NoDup_keys (vars : list StorageVariable) :
  NoDup (map byKey vars) -> keyMap vars = map (fun v => (byKey v, v)) vars.
Proof.
  intros Hnd.
  apply (keyMap_app_fresh [] vars); [intros t a _ []|exact Hnd].
Qed.

Lemma classify_lengths (vars1 vars2 : list StorageVariable) :
  (List.length (flat_map (movedFor (keyMap vars2)) (keyMap vars1))
   + List.length (flat_map (removedFor (keyMap vars2)) (keyMap vars1))
   + List.length (filter (fun e => kept vars2 (snd e)) (keyMap vars1))
   = List.length (keyMap vars1))%nat.
Proof.
  assert (H : forall l : list (string * StorageVariable),
             (forall k v, In (k, v) l -> byKey v = k) ->
             (List.length (flat_map (movedFor (keyMap vars2)) l)
              + List.length (flat_map (removedFor (keyMap vars2)) l)
              + List.length (filter (fun e => kept vars2 (snd e)) l)
              = List.length l)%nat).
  { induction l as [|[k a] l IH]; intros Hkey; [reflexivity|].
    cbn [flat_map filter]. rewrite !length_app.
    specialize (IH (fun k v H => Hkey k v (or_intror H))).
    pose proof (Hkey k a (or_introl eq_refl)) as Hk.
    unfold movedFor at 1, removedFor at 1, kept at 1. cbn [fst snd].
    rewrite keyMap_get, Hk.
    destruct (keyed vars2 k) as [b|]; [|simpl; lia].
    destruct (slot b =? slot a), (offset b =? offset a); simpl; lia. }
  apply H. intros k v. apply keyMap_entry_key.
Qed.

(** The summary of the diff of two versions, from the report of [compare]:
    the counts of removed and moved variables together never exceed the
    number of old variables, so [unchanged] is never negative, and no more
    variables are added than the new version has.  When the old variables
    have pairwise distinct keys, [unchanged] is the number of old variables
    that the new version holds at the same slot and offset. *)
Theorem diffAnalyze_summary (v1 v2 : SlotMapping) :
  let s := summary (diffAnalyze v1 v2 (compare v1 v2)) in
  0 <= unchanged s <= totalOld s
  /\ ds_removed s + ds_moved s <= totalOld s
  /\ ds_added s <= totalNew s
  /\ (NoDup (map byKey (variables v1)) ->
      unchanged s = Z.of_nat (List.length (filter (kept (variables v2)) (variables v1)))).
Proof.
  cbv zeta. unfold diffAnalyze, generateSummary, countUnchangedVariables.
  cbn [summary unchanged totalOld totalNew ds_removed ds_moved ds_added].
  destruct (compare_fields v1 v2) as (-> & -> & -> & _).
  pose proof (classify_lengths (variables v1) (variables v2)) as Hsum.
  pose proof (keyMap_length (variables v1)) as H1.
  pose proof (keyMap_length (variables v2)) as H2.
  assert (Hadd : (List.length (flat_map (addedFor (keyMap (variables v1)))
                                 (keyMap (variables v2)))
                  <= List.length (keyMap (variables v2)))%nat).
  { pose proof (flat_map_length_le (addedFor (keyMap (variables v1))) (fun _ => [])
                  (keyMap (variables v2))) as H.
    assert (E : forall l : list (string * StorageVariable),
               flat_map (fun _ => @nil StorageVariable) l = [])
      by (induction l; simpl; auto).
    rewrite E in H. simpl in H. rewrite Nat.add_0_r in H. apply H.
    intros [k v]. unfold addedFor. destruct (negb _); simpl; lia. }
  repeat split; try lia.
  intros Hnd. rewrite (keyMap_NoDup_keys _ Hnd) in Hsum.
  assert (E : forall l : list StorageVariable,
             List.length (filter (fun e => kept (variables v2) (snd e))
                            (map (fun v => (byKey v, v)) l))
             = List.length (filter (kept (variables v2)) l)).
  { induction l as [|x l IH]; [reflexivity|]. cbn [map filter snd].
    destruct (kept (variables v2) x); simpl; now rewrite IH. }
  rewrite E, length_map in Hsum.
  rewrite (keyMap_NoDup_keys _ Hnd). lia.
Qed.

Lemma compare_safe_false (v1 v2 : SlotMapping) :
  safe (compare v1 v2) = false
  <-> moved (compare v1 v2) <> [] \/ collisions (compare v1 v2) <> [].
Proof.
  unfold compare. destruct (classifyOld _ _) as [mv rm].
  cbn [safe moved collisions].
  rewrite Bool.negb_false_iff, Bool.orb_true_iff, !Z.ltb_lt.
  rewrite <- !length_zero_nil. lia.
Qed.

(** The safety assessment of the diff of two versions, from the report of
    [compare]: the score is 100 less 50 when something collides, less 30
    when something moved and less 15 when something was removed, so it is
    never below 5 and the lower bound 0 is never needed.  The risk is none
    exactly when nothing collides, moved or was removed; a report that
    [compare] calls safe has risk none or low; yet a report with moved
    variables only is unsafe with risk low.  The advice on storage gaps
    comes exactly with moved variables, the advice to resolve collisions
    exactly with collisions, and the remark that the layout appears safe
    exactly when the report is safe. *)
Theorem diffAnalyze_safety (v1 v2 : SlotMapping) :
  let r := compare v1 v2 in
  let a := safetyAssessment (diffAnalyze v1 v2 r) in
  let recs := diff_recommendations (diffAnalyze v1 v2 r) in
  overallScore a
    = 100 - (match collisions r with [] => 0 | _ => 50 end)
          - (match moved r with [] => 0 | _ => 30 end)
          - (match removed r with [] => 0 | _ => 15 end)
  /\ 5 <= overallScore a <= 100
  /\ (riskLevel a = risk_none
      <-> collisions r = [] /\ moved r = [] /\ removed r = [])
  /\ (isSafe a = true -> riskLevel a = risk_none \/ riskLevel a = risk_low)
  /\ (collisions r = [] -> moved r <> [] -> removed r = [] ->
      isSafe a = false /\ riskLevel a = risk_low)
  /\ (In dr_storage_gaps recs <-> moved r <> [])
  /\ (In dr_resolve_collisions recs <-> collisions r <> [])
  /\ (In dr_appears_safe recs <-> isSafe a = true).
Proof.
  cbv zeta. unfold diffAnalyze.
  cbn [safetyAssessment diff_recommendations].
  pose proof (compare_safe_false v1 v2) as Hsafe.
  set (r := compare v1 v2) in *.
  set (cs := analyzeChanges v1 v2 r). clearbody cs.
  unfold diffRecommendations, assessSafety, push.
  destruct (collisions r) as [|c0 cl]; destruct (moved r) as [|m0 ml];
    destruct (removed r) as [|r0 rl];
    destruct (safe r) eqn:Es;
    try (exfalso; destruct (proj1 Hsafe eq_refl) as [H|H]; now apply H);
    try (exfalso;
         assert (Hf : true = false)
           by (apply Hsafe; first [left; discriminate | right; discriminate]);
         discriminate Hf);
    cbn -[Z.sub Z.max Z.geb Number_toString];
    repeat split; try discriminate; try lia; try tauto;
    try (intros H; decompose [and or] H; discriminate || congruence);
    intuition (discriminate || congruence || auto).
Qed.

Lemma analyzeChanges_shape (v1 v2 : SlotMapping) (r : CollisionReport) :
  analyzeChanges v1 v2 r =
  map (fun variable =>
         {| vc_type := dc_added; vc_variable := variable;
            oldSlot := None; newSlot := None;
            risk := risk_low;
            details := ("New variable added at slot "
                          ++ Number_toString (slot variable))%string |})
      (added r)
  ++ map (fun variable =>
            {| vc_type := dc_removed; vc_variable := variable;
               oldSlot := None; newSlot := None;
               risk := risk_high;
               details := ("Variable removed from slot "
                             ++ Number_toString (slot variable)
                             ++ " - data will be lost")%string |})
         (removed r)
  ++ map (fun variable =>
            let oldVar :=
              find (fun v => String.eqb (vname v) (vname variable)
                             && String.eqb (vtype v) (vtype variable))
                   (variables v1) in
            {| vc_type := dc_moved; vc_variable := variable;
               oldSlot := option_map slot oldVar;
               newSlot := Some (slot variable);
               risk := risk_critical;
               details := ("Variable moved from slot " ++ optional_slot oldVar
                             ++ " to slot " ++ Number_toString (slot variable))%string |})
         (moved r).
Proof.
  unfold analyzeChanges. rewrite !forEach_push_map. simpl.
  now rewrite <- app_assoc.
Qed.

(** The changes of the diff of two versions list the added, the removed and
    the moved variables of the report of [compare], in this order.  When no
    variable name holds a vertical bar, every moved change knows its old
    slot: it is the slot of the first old variable of the same name and
    type, and the new slot is the slot of the variable itself. *)
Theorem diffAnalyze_changes (v1 v2 : SlotMapping) :
  Forall (fun v => includes (vname v) "|" = false) (variables v1 ++ variables v2) ->
  let r := compare v1 v2 in
  let changes := diff_changes (diffAnalyze v1 v2 r) in
  map vc_variable changes = added r ++ removed r ++ moved r
  /\ Forall (fun c =>
               match vc_type c with
               | dc_added => In (vc_variable c) (added r) /\ risk c = risk_low
               | dc_removed => In (vc_variable c) (removed r) /\ risk c = risk_high
               | dc_moved =>
                   In (vc_variable c) (moved r) /\ risk c = risk_critical
                   /\ newSlot c = Some (slot (vc_variable c))
                   /\ exists old,
                        In old (variables v1)
                        /\ same_identity old (vc_variable c)
                        /\ oldSlot c = Some (slot old)
               | _ => False
               end)
            changes.
Proof.
  intros Hbar. cbv zeta. unfold diffAnalyze. cbn [diff_changes].
  rewrite analyzeChanges_shape. split.
  - rewrite !map_app, !map_map. cbn [vc_variable]. now rewrite !map_id.
  - rewrite Forall_forall in Hbar.
    rewrite !Forall_app. repeat split; apply Forall_forall; intros c Hc;
      apply in_map_iff in Hc as (x & <- & Hx); cbn -[find]; auto.
    split; [exact Hx|]. split; [reflexivity|]. split; [reflexivity|].
    apply In_moved in Hx as (H2 & old & H1 & _).
    apply keyed_Some in H1 as [Hk1 Hin1], H2 as [_ Hin2].
    assert (Hsame : same_identity old x).
    { apply bar_separates in Hk1; [exact Hk1| |];
        apply Hbar, in_or_app; auto. }
    destruct (find _ (variables v1)) as [first|] eqn:E.
    + apply find_some in E as [Hf Hp].
      apply Bool.andb_true_iff in Hp as [Hn Ht].
      apply String.eqb_eq in Hn, Ht.
      exists first. split; [exact Hf|]. split; [split; assumption|reflexivity].
    + exfalso. pose proof (find_none _ _ E old Hin1) as Hp. simpl in Hp.
      destruct Hsame as [Hn Ht]. rewrite Hn, Ht, !String.eqb_refl in Hp.
      discriminate Hp.
Qed.

Lemma diffAnalyze_changes_witness :
  Forall (fun v => includes (vname v) "|" = false)
         (variables ownerValue ++ variables valueOwner)
  /\ map vc_variable (diff_changes (diffAnalyze ownerValue valueOwner
                                      (compare ownerValue valueOwner)))
     = added (compare ownerValue valueOwner)
       ++ removed (compare ownerValue valueOwner)
       ++ moved (compare ownerValue valueOwner).
Proof.
  assert (H : Forall (fun v => includes (vname v) "|" = false)
                     (variables ownerValue ++ variables valueOwner))
    by (repeat constructor).
  split; [exact H|].
  exact (proj1 (diffAnalyze_changes ownerValue valueOwner H)).
Defined.

(* ================================================================= *)
(** ** The packing opportunities of the summary *)








(* ================================================================= *)
(** ** Sizes at run time *)

Lemma inherited_In (t : string) : inherited t = true <-> In t prototypeKeys.
Proof.
  unfold inherited. rewrite existsb_exists. split.
  - intros (k & Hk & E). apply String.eqb_eq in E. now subst.
  - intros H. exists t. split; [exact H|apply String.eqb_refl].
Qed.

(** Under a name the table does not inherit, the lookup is the lookup of the
    table's own entries. *)
Lemma getTypeSize_not_inherited (t : string) :
  inherited t = false -> getTypeSize t = Bytes (getTypeSize_plain t).
Proof.
  intros H. unfold getTypeSize, getTypeSize_plain, read, or_32, or_default.
  destruct (includes t "[]"); [reflexivity|].
  destruct (includes t "mapping"); [reflexivity|].
  destruct (map_get String.eqb sizeMap t) as [n|].
  - now destruct (n =? 0).
  - now rewrite H.
Qed.

Lemma getTypeSize_of_inherited (t : string) :
  inherited t = true -> getTypeSize t = Inherited t /\ detectorTypeSize t = Inherited t.
Proof.
  intros H. apply inherited_In in H. simpl in H.
  repeat (destruct H as [<-|H]; [split; vm_compute; reflexivity|]).
  contradiction.
Qed.

(** [getTypeSize] answers with a number of bytes between 1 and 32, except
    for the twelve names a plain object inherits: for those it answers
    with the inherited member. *)
Theorem getTypeSize_inherited (t : string) :
  (inherited t = true -> getTypeSize t = Inherited t)
  /\ (inherited t = false ->
      exists n, getTypeSize t = Bytes n /\ 1 <= n <= 32)
  /\ (inherited t = true <-> In t prototypeKeys).
Proof.
  split; [|split].
  - intros H. now apply getTypeSize_of_inherited.
  - intros H. exists (getTypeSize_plain t).
    split; [now apply getTypeSize_not_inherited|apply getTypeSize_plain_range].
  - apply inherited_In.
Qed.

Lemma getTypeSize_bytes (t : string) (n : Z) :
  getTypeSize t = Bytes n -> 1 <= n <= 32.
Proof.
  destruct (inherited t) eqn:E.
  - rewrite (proj1 (getTypeSize_of_inherited t E)). discriminate.
  - rewrite (getTypeSize_not_inherited t E). intros [= <-].
    apply getTypeSize_plain_range.
Qed.

(* ================================================================= *)
(** ** The calculator on contracts with plain type names *)

Lemma place_run_cursor (st : Cursor) (variable : StateVariable) :
  inherited (typeName variable) = false ->
  place (run_cursor st) variable = run_cursor (place_plain st variable).
Proof.
  intros H. unfold place, place_plain.
  rewrite (getTypeSize_not_inherited _ H).
  set (sz := getTypeSize_plain (typeName variable)).
  unfold run_cursor. cbn [rc_offset rc_slot rc_variables plus greater].
  destruct (currentOffset st + sz >? 32); cbn [plus greater at_least less].
  - destruct (0 + sz >=? 32); cbn [cur_variables currentSlot currentOffset];
      unfold push; rewrite map_app; reflexivity.
  - destruct (currentOffset st + sz >=? 32);
      cbn [cur_variables currentSlot currentOffset];
      unfold push; rewrite map_app; reflexivity.
Qed.

Lemma forEach_place_run_cursor (vars : list StateVariable) (st : Cursor) :
  Forall (fun v => inherited (typeName v) = false) vars ->
  forEach vars place (run_cursor st) = run_cursor (forEach vars place_plain st).
Proof.
  unfold forEach. intros H. revert st.
  induction H as [|v vars Hv _ IH]; intros st; simpl; [reflexivity|].
  now rewrite place_run_cursor, IH.
Qed.

Lemma countBySlot_run_variable (vars : list StorageVariable) :
  countBySlot_run (map run_variable vars) = countBySlot vars.
Proof.
  unfold countBySlot_run, countBySlot, forEach.
  generalize (@nil (Z * Z)).
  induction vars as [|v vars IH]; intros acc; simpl; [reflexivity|].
  apply IH.
Qed.

(** For a contract with plain type names [calculateSlots] stays within the
    data model, and [calculateSlots_plain] is its result. *)
Lemma calculateSlots_plain_run (contract : ContractAST) :
  plain contract ->
  calculateSlots contract = run_mapping (calculateSlots_plain contract).
Proof.
  intros H. unfold calculateSlots, calculateSlots_plain, run_mapping.
  cbn [contractName variables totalSlots packedSlots].
  change run_cursor0 with (run_cursor cursor0).
  rewrite (forEach_place_run_cursor _ _ H).
  cbn [run_cursor rc_variables].
  rewrite countBySlot_run_variable, map_map.
  reflexivity.
Qed.

(* ================================================================= *)
(** ** Layouts of contracts with plain type names

    Each statement below says that [calculateSlots] returns a mapping [m] of
    the data model, and what holds of [m]. *)

(** For a contract none of whose type names is inherited, every variable
    of the layout lies within one slot: its slot is not negative, its
    offset is between 0 and 31, its size between 1 and 32, it ends at byte
    32 at the latest; and its [packed] flag is set exactly when its size is
    below 32. *)
Theorem calculateSlots_within_slot (contract : ContractAST) :
  plain contract ->
  exists m,
    calculateSlots contract = run_mapping m
    /\ Forall (fun v => 0 <= slot v /\ 0 <= offset v <= 31 /\ 1 <= size v <= 32
                        /\ offset v + size v <= 32)
              (variables m)
    /\ Forall (fun v => packed v = Some true <-> size v < 32) (variables m).
Proof.
  intros H. exists (calculateSlots_plain contract).
  split; [now apply calculateSlots_plain_run|].
  split; [apply plain_within_slot|apply plain_packed_iff_small].
Qed.

Lemma calculateSlots_within_slot_witness :
  plain mockContract
  /\ exists m,
       calculateSlots mockContract = run_mapping m
       /\ Forall (fun v => 0 <= slot v /\ 0 <= offset v <= 31 /\ 1 <= size v <= 32
                           /\ offset v + size v <= 32)
                 (variables m)
       /\ Forall (fun v => packed v = Some true <-> size v < 32) (variables m).
Proof.
  assert (H : plain mockContract) by (repeat constructor).
  split; [exact H|]. exact (calculateSlots_within_slot mockContract H).
Defined.

(** For a contract none of whose type names is inherited, two variables of
    the layout that lie in one slot and share a byte have the same name and
    type. *)
Theorem calculateSlots_overlap_free (contract : ContractAST) :
  plain contract ->
  exists m, calculateSlots contract = run_mapping m /\ overlap_free (variables m).
Proof.
  intros H. exists (calculateSlots_plain contract).
  split; [now apply calculateSlots_plain_run|apply plain_overlap_free].
Qed.

Lemma calculateSlots_overlap_free_witness :
  plain mockContract
  /\ exists m, calculateSlots mockContract = run_mapping m /\ overlap_free (variables m).
Proof.
  assert (H : plain mockContract) by (repeat constructor).
  split; [exact H|]. exact (calculateSlots_overlap_free mockContract H).
Defined.

(** For a contract none of whose type names is inherited, the slots of the
    layout are exactly 0, 1, ..., [totalSlots - 1]: every variable lies in
    one of them and each of them holds a variable. *)
Theorem calculateSlots_slots_contiguous (contract : ContractAST) :
  plain contract ->
  exists m,
    calculateSlots contract = run_mapping m
    /\ Forall (fun v => 0 <= slot v < totalSlots m) (variables m)
    /\ Forall (fun s => occupants (variables m) s <> [])
              (map Z.of_nat (seq 0 (Z.to_nat (totalSlots m)))).
Proof.
  intros H. exists (calculateSlots_plain contract).
  split; [now apply calculateSlots_plain_run|apply plain_slots_contiguous].
Qed.

Lemma calculateSlots_slots_contiguous_witness :
  plain mockContract
  /\ exists m,
       calculateSlots mockContract = run_mapping m
       /\ Forall (fun v => 0 <= slot v < totalSlots m) (variables m)
       /\ Forall (fun s => occupants (variables m) s <> [])
                 (map Z.of_nat (seq 0 (Z.to_nat (totalSlots m)))).
Proof.
  assert (H : plain mockContract) by (repeat constructor).
  split; [exact H|]. exact (calculateSlots_slots_contiguous mockContract H).
Defined.

(** For a contract none of whose type names is inherited, each variable of
    the layout starts at the byte where the variables declared before it in
    the same slot end. *)
Theorem calculateSlots_offsets_tight (contract : ContractAST) :
  plain contract ->
  exists m, calculateSlots contract = run_mapping m /\ tight (variables m).
Proof.
  intros H. exists (calculateSlots_plain contract).
  split; [now apply calculateSlots_plain_run|apply plain_offsets_tight].
Qed.

Lemma calculateSlots_offsets_tight_witness :
  plain mockContract
  /\ exists m, calculateSlots mockContract = run_mapping m /\ tight (variables m).
Proof.
  assert (H : plain mockContract) by (repeat constructor).
  split; [exact H|]. exact (calculateSlots_offsets_tight mockContract H).
Defined.

(** For a contract none of whose type names is inherited, no slot of the
    layout holds more than 32 bytes; the layout has at most as many slots
    as variables, at least one byte per variable, and never more bytes in
    use than its slots provide. *)
Theorem calculateSlots_used_bytes (contract : ContractAST) :
  plain contract ->
  exists m,
    calculateSlots contract = run_mapping m
    /\ (forall s, slot_bytes m s <= 32)
    /\ totalSlots m <= Z.of_nat (List.length (variables m))
    /\ Z.of_nat (List.length (variables m)) <= sumSizes (variables m)
    /\ sumSizes (variables m) <= totalSlots m * 32.
Proof.
  intros H. exists (calculateSlots_plain contract).
  split; [now apply calculateSlots_plain_run|].
  split; [intros s; apply plain_slot_bytes_le_32|apply plain_used_bytes].
Qed.

Lemma calculateSlots_used_bytes_witness :
  plain mockContract
  /\ exists m,
       calculateSlots mockContract = run_mapping m
       /\ (forall s, slot_bytes m s <= 32)
       /\ totalSlots m <= Z.of_nat (List.length (variables m))
       /\ Z.of_nat (List.length (variables m)) <= sumSizes (variables m)
       /\ sumSizes (variables m) <= totalSlots m * 32.
Proof.
  assert (H : plain mockContract) by (repeat constructor).
  split; [exact H|]. exact (calculateSlots_used_bytes mockContract H).
Defined.

(** For a contract none of whose type names is inherited, [packedSlots]
    names each slot that holds more than one variable, once, and no other
    slot; every variable of such a slot is flagged [packed]. *)
Theorem calculateSlots_packedSlots (contract : ContractAST) :
  plain contract ->
  exists m,
    calculateSlots contract = run_mapping m
    /\ NoDup (packedSlots m)
    /\ (forall s, In s (packedSlots m)
                  <-> (1 < List.length (occupants (variables m) s))%nat)
    /\ Forall (fun v => In (slot v) (packedSlots m) -> packed v = Some true)
              (variables m).
Proof.
  intros H. exists (calculateSlots_plain contract).
  split; [now apply calculateSlots_plain_run|apply plain_packedSlots].
Qed.

Lemma calculateSlots_packedSlots_witness :
  plain mockContract
  /\ exists m,
       calculateSlots mockContract = run_mapping m
       /\ NoDup (packedSlots m)
       /\ (forall s, In s (packedSlots m)
                     <-> (1 < List.length (occupants (variables m) s))%nat)
       /\ Forall (fun v => In (slot v) (packedSlots m) -> packed v = Some true)
                 (variables m).
Proof.
  assert (H : plain mockContract) by (repeat constructor).
  split; [exact H|]. exact (calculateSlots_packedSlots mockContract H).
Defined.

(** For a contract none of whose type names is inherited, comparing the
    layout with itself is safe and reports no change of any kind. *)
Theorem compare_calculated_self (contract : ContractAST) :
  plain contract ->
  exists m,
    calculateSlots contract = run_mapping m
    /\ compare m m =
       {| contract := name contract; collisions := []; moved := [];
          added := []; removed := []; safe := true |}.
Proof.
  intros H. exists (calculateSlots_plain contract).
  split; [now apply calculateSlots_plain_run|apply plain_compare_self].
Qed.

Lemma compare_calculated_self_witness :
  plain mockContract
  /\ exists m,
       calculateSlots mockContract = run_mapping m
       /\ compare m m =
          {| contract := name mockContract; collisions := []; moved := [];
             added := []; removed := []; safe := true |}.
Proof.
  assert (H : plain mockContract) by (repeat constructor).
  split; [exact H|]. exact (compare_calculated_self mockContract H).
Defined.

(** For a contract none of whose type names is inherited, the utilization
    rows of the layout are the slots 0 to [totalSlots - 1], one row each
    and in this order, and every row uses between 1 and 32 bytes. *)
Theorem calculateSlotUtilization_calculated (contract : ContractAST) :
  plain contract ->
  exists m,
    calculateSlots contract = run_mapping m
    /\ map su_slot (calculateSlotUtilization m)
       = map Z.of_nat (seq 0 (Z.to_nat (totalSlots m)))
    /\ Forall (fun u => 1 <= usedBytes u <= 32 /\ 0 <= availableBytes u <= 31)
              (calculateSlotUtilization m).
Proof.
  intros H. exists (calculateSlots_plain contract).
  split; [now apply calculateSlots_plain_run|apply plain_utilization].
Qed.

Lemma calculateSlotUtilization_calculated_witness :
  plain mockContract
  /\ exists m,
       calculateSlots mockContract = run_mapping m
       /\ map su_slot (calculateSlotUtilization m)
          = map Z.of_nat (seq 0 (Z.to_nat (totalSlots m)))
       /\ Forall (fun u => 1 <= usedBytes u <= 32 /\ 0 <= availableBytes u <= 31)
                 (calculateSlotUtilization m).
Proof.
  assert (H : plain mockContract) by (repeat constructor).
  split; [exact H|]. exact (calculateSlotUtilization_calculated mockContract H).
Defined.

(** For the layout of a contract none of whose type names is inherited and
    that declares at least one variable, the efficiency of the summary is
    the figure of [calculatePackingEfficiency] and of the upgrade
    analyzer's [calculateEfficiency], a finite number; for a contract
    without variables the three disagree: 0, 100 and [NaN].  The efficiency
    of the summary is a finite number for every mapping. *)
Theorem efficiency_figures (contract : ContractAST) :
  plain contract ->
  exists m,
    calculateSlots contract = run_mapping m
    /\ (stateVariables contract <> [] ->
        efficiency (generate m) = calculatePackingEfficiency m
        /\ calculateEfficiency m = calculatePackingEfficiency m
        /\ is_finite (calculatePackingEfficiency m) = true)
    /\ (stateVariables contract = [] ->
        efficiency (generate m) = num 0
        /\ calculatePackingEfficiency m = num 100
        /\ calculateEfficiency m = NaN)
    /\ (forall mapping, is_finite (efficiency (generate mapping)) = true).
Proof.
  intros H. exists (calculateSlots_plain contract).
  split; [now apply calculateSlots_plain_run|].
  destruct (plain_efficiency_figures contract) as (Hall & Hsome & Hnone).
  auto.
Qed.

Lemma efficiency_figures_witness :
  plain mockContract
  /\ exists m,
       calculateSlots mockContract = run_mapping m
       /\ (stateVariables mockContract <> [] ->
           efficiency (generate m) = calculatePackingEfficiency m
           /\ calculateEfficiency m = calculatePackingEfficiency m
           /\ is_finite (calculatePackingEfficiency m) = true)
       /\ (stateVariables mockContract = [] ->
           efficiency (generate m) = num 0
           /\ calculatePackingEfficiency m = num 100
           /\ calculateEfficiency m = NaN)
       /\ (forall mapping, is_finite (efficiency (generate mapping)) = true).
Proof.
  assert (H : plain mockContract) by (repeat constructor).
  split; [exact H|]. exact (efficiency_figures mockContract H).
Defined.

(* ================================================================= *)
(** ** The calculator and the detector, whatever the type names *)

Lemma sumSizes_run_push (l : list RunVariable) (x : RunVariable) :
  sumSizes_run (push l x) = plus (sumSizes_run l) (rsize x).
Proof. unfold sumSizes_run, push. now rewrite fold_left_app. Qed.

Lemma occupants_run_push (l : list RunVariable) (x : RunVariable) (s : Z) :
  occupants_run (push l x) s =
  if rslot x =? s then push (occupants_run l s) x else occupants_run l s.
Proof.
  unfold occupants_run, push. rewrite filter_app. simpl.
  destruct (rslot x =? s); [reflexivity|apply app_nil_r].
Qed.

Lemma occupants_run_behind (l : list RunVariable) (s : Z) :
  (forall v, In v l -> rslot v < s) -> occupants_run l s = [].
Proof.
  intros H. unfold occupants_run.
  induction l as [|v l IH]; [reflexivity|]. simpl.
  destruct (Z.eqb_spec (rslot v) s) as [E|_].
  - pose proof (H v (or_introl eq_refl)). lia.
  - apply IH. intros w Hw. apply H. now right.
Qed.

Lemma run_invariant_start : run_invariant run_cursor0.
Proof.
  constructor; simpl.
  - intros n [= <-]. lia.
  - reflexivity.
  - intros s _. exists 0. split; [reflexivity|lia].
  - intros v [].
Qed.

(** The bytes of a slot other than the one a variable is pushed to. *)
Ltac other_slot Hother :=
  rewrite occupants_run_push; cbn [rslot];
  match goal with
  | |- context [?a =? ?b] => destruct (Z.eqb_spec a b); [lia|]
  end;
  apply Hother; lia.

Lemma place_run_invariant (st : RunCursor) (variable : StateVariable) :
  run_invariant st -> run_invariant (place st variable).
Proof.
  intros [Hoff Hcur Hother Hbehind].
  pose proof (getTypeSize_bytes (typeName variable)) as Hsize.
  assert (Hnext : occupants_run (rc_variables st) (rc_slot st + 1) = []).
  { apply occupants_run_behind. intros v Hv. pose proof (Hbehind v Hv). lia. }
  unfold place.
  destruct (getTypeSize (typeName variable)) as [z|key] eqn:Ez.
  - specialize (Hsize z eq_refl).
    destruct (rc_offset st) as [o|t] eqn:Eo.
    + specialize (Hoff o eq_refl). cbn [plus greater].
      destruct (Z.gtb_spec (o + z) 32) as [Hgt|Hle]; cbn [plus at_least].
      * (* the variable opens the next slot *)
        destruct (Z.geb_spec (0 + z) 32) as [Hfull|Hpart];
          constructor; cbn [rc_variables rc_slot rc_offset].
        -- intros n [= <-]. lia.
        -- rewrite occupants_run_behind; [reflexivity|]. intros v Hv.
           apply In_push in Hv as [Hv| ->]; [pose proof (Hbehind v Hv)|cbn [rslot]]; lia.
        -- intros s Hs. rewrite occupants_run_push; cbn [rslot].
           destruct (Z.eqb_spec (rc_slot st + 1) s) as [<-|Hne].
           ++ rewrite Hnext. exists (0 + z). split; [reflexivity|lia].
           ++ destruct (Z.eq_dec s (rc_slot st)) as [->|Hne'].
              ** rewrite Hcur. exists o. split; [reflexivity|lia].
              ** now apply Hother.
        -- intros v Hv.
           apply In_push in Hv as [Hv| ->]; [pose proof (Hbehind v Hv)|cbn [rslot]]; lia.
        -- intros n [= <-]. lia.
        -- rewrite occupants_run_push; cbn [rslot]. rewrite Z.eqb_refl, Hnext.
           reflexivity.
        -- intros s Hs. rewrite occupants_run_push; cbn [rslot].
           destruct (Z.eqb_spec (rc_slot st + 1) s) as [<-|Hne]; [contradiction|].
           destruct (Z.eq_dec s (rc_slot st)) as [->|Hne'].
           ++ rewrite Hcur. exists o. split; [reflexivity|lia].
           ++ now apply Hother.
        -- intros v Hv.
           apply In_push in Hv as [Hv| ->]; [pose proof (Hbehind v Hv)|cbn [rslot]]; lia.
      * (* the variable fits behind the cursor *)
        destruct (Z.geb_spec (o + z) 32) as [Hfull|Hpart];
          constructor; cbn [rc_variables rc_slot rc_offset].
        -- intros n [= <-]. lia.
        -- rewrite occupants_run_behind; [reflexivity|]. intros v Hv.
           apply In_push in Hv as [Hv| ->]; [pose proof (Hbehind v Hv)|cbn [rslot]]; lia.
        -- intros s Hs. rewrite occupants_run_push; cbn [rslot].
           destruct (Z.eqb_spec (rc_slot st) s) as [<-|Hne].
           ++ rewrite sumSizes_run_push, Hcur. cbn [rsize plus].
              exists (o + z). split; [reflexivity|lia].
           ++ apply Hother. congruence.
        -- intros v Hv.
           apply In_push in Hv as [Hv| ->]; [pose proof (Hbehind v Hv)|cbn [rslot]]; lia.
        -- intros n [= <-]. lia.
        -- rewrite occupants_run_push; cbn [rslot]. rewrite Z.eqb_refl.
           rewrite sumSizes_run_push, Hcur. reflexivity.
        -- intros s Hs. rewrite occupants_run_push; cbn [rslot].
           destruct (Z.eqb_spec (rc_slot st) s) as [<-|Hne]; [contradiction|].
           apply Hother. congruence.
        -- intros v Hv.
           apply In_push in Hv as [Hv| ->]; [pose proof (Hbehind v Hv)|cbn [rslot]]; lia.
    + (* the cursor is a string already *)
      cbn [plus greater at_least].
      constructor; cbn [rc_variables rc_slot rc_offset].
      * discriminate.
      * rewrite occupants_run_push; cbn [rslot]. rewrite Z.eqb_refl.
        rewrite sumSizes_run_push, Hcur. reflexivity.
      * intros s Hs. rewrite occupants_run_push; cbn [rslot].
        destruct (Z.eqb_spec (rc_slot st) s) as [<-|Hne]; [contradiction|].
        apply Hother. congruence.
      * intros v Hv.
        apply In_push in Hv as [Hv| ->]; [pose proof (Hbehind v Hv)|cbn [rslot]]; lia.
  - (* the size is an inherited member: the cursor turns into a string *)
    assert (E : exists t, plus (rc_offset st) (Inherited key) = Str t)
      by (destruct (rc_offset st); eexists; reflexivity).
    destruct E as [t Et]. rewrite Et. cbn [greater].
    rewrite Et. cbn [at_least].
    constructor; cbn [rc_variables rc_slot rc_offset].
    + discriminate.
    + rewrite occupants_run_push; cbn [rslot]. rewrite Z.eqb_refl.
      rewrite sumSizes_run_push, Hcur. exact Et.
    + intros s Hs. rewrite occupants_run_push; cbn [rslot].
      destruct (Z.eqb_spec (rc_slot st) s) as [<-|Hne]; [contradiction|].
      apply Hother. congruence.
    + intros v Hv.
      apply In_push in Hv as [Hv| ->]; [pose proof (Hbehind v Hv)|cbn [rslot]]; lia.
Qed.

Lemma calculateSlots_run_invariant (contract : ContractAST) :
  run_invariant (forEach (stateVariables contract) place run_cursor0).
Proof.
  apply forEach_invariant.
  - intros s x. apply place_run_invariant.
  - apply run_invariant_start.
Qed.

(** In the layout of any contract the sizes of a slot never add up to a
    number above 32: the sum is a number up to 32, or a string. *)
Lemma calculateSlots_sum_not_greater (contract : ContractAST) (s : Z) :
  greater (sumSizes_run (occupants_run (rvariables (calculateSlots contract)) s)) 32
  = false.
Proof.
  unfold calculateSlots; cbn [rvariables].
  destruct (calculateSlots_run_invariant contract) as [Hoff Hcur Hother _].
  set (st := forEach (stateVariables contract) place run_cursor0) in *.
  destruct (Z.eq_dec s (rc_slot st)) as [->|Hne].
  - rewrite Hcur. destruct (rc_offset st) as [n|t]; [|reflexivity].
    specialize (Hoff n eq_refl). cbn [greater].
    destruct (Z.gtb_spec n 32); [lia|reflexivity].
  - destruct (Hother s Hne) as (n & -> & Hn). cbn [greater].
    destruct (Z.gtb_spec n 32); [lia|reflexivity].
Qed.

Lemma groupVariablesBySlot_run_push (vars : list RunVariable) (v : RunVariable) :
  groupVariablesBySlot_run (push vars v) = group_step_run (groupVariablesBySlot_run vars) v.
Proof. unfold groupVariablesBySlot_run. now rewrite forEach_push_last. Qed.

Lemma group_get_step (groups : JsMap (K := Z) (V := list RunVariable))
    (v : RunVariable) (s : Z) :
  group_get (group_step_run groups v) s =
  if rslot v =? s then push (group_get groups s) v else group_get groups s.
Proof.
  unfold group_step_run, group_get, map_has.
  destruct (Z.eqb_spec (rslot v) s) as [->|Hne].
  - rewrite (map_get_set_same _ Z.eqb_eq).
    destruct (map_get Z.eqb groups s) eqn:E; simpl.
    + now rewrite E.
    + now rewrite (map_get_set_same _ Z.eqb_eq).
  - rewrite (map_get_set_other _ Z.eqb_eq) by assumption.
    destruct (map_get Z.eqb groups (rslot v)); simpl; auto.
    now rewrite (map_get_set_other _ Z.eqb_eq) by assumption.
Qed.

Lemma groupVariablesBySlot_run_NoDup (vars : list RunVariable) :
  NoDup (map_keys (groupVariablesBySlot_run vars)).
Proof.
  unfold groupVariablesBySlot_run. apply forEach_invariant.
  - intros g v H. unfold group_step_run.
    apply (map_set_NoDup _ Z.eqb_eq).
    destruct (negb _); auto. now apply (map_set_NoDup _ Z.eqb_eq).
  - constructor.
Qed.

Lemma group_get_groupVariablesBySlot_run (vars : list RunVariable) (s : Z) :
  group_get (groupVariablesBySlot_run vars) s = occupants_run vars s.
Proof.
  induction vars as [|v vars IH] using rev_ind.
  - reflexivity.
  - change (vars ++ [v]) with (push vars v).
    rewrite groupVariablesBySlot_run_push.
    change (group_get (group_step_run (groupVariablesBySlot_run vars) v) s
            = occupants_run (push vars v) s).
    rewrite group_get_step, occupants_run_push, IH. reflexivity.
Qed.

Lemma groupVariablesBySlot_run_entries (vars : list RunVariable)
    (s : Z) (group : list RunVariable) :
  In (s, group) (groupVariablesBySlot_run vars) -> group = occupants_run vars s.
Proof.
  intros Hin.
  rewrite <- group_get_groupVariablesBySlot_run. unfold group_get.
  now rewrite (In_map_get _ Z.eqb_eq _ _ _ (groupVariablesBySlot_run_NoDup vars) Hin).
Qed.

Lemma detect_run_calculateSlots (contract : ContractAST) :
  detect_run (calculateSlots contract) = [].
Proof.
  unfold detect_run. apply forEach_unchanged. intros [s group] Hin.
  apply groupVariablesBySlot_run_entries in Hin. subst group.
  unfold analyzeSlotCollision_run.
  rewrite calculateSlots_sum_not_greater.
  destruct (_ >? 1); [|reflexivity].
  now destruct (_ <=? 1).
Qed.

(** [detect] finds nothing in the layout [calculateSlots] returns, whatever
    the contract, so [detectCollisions] returns the empty list for every
    list of contracts. *)
Theorem detectCollisions_empty (contracts : list ContractAST) :
  Forall (fun contract => detect_run (calculateSlots contract) = []) contracts
  /\ detectCollisions contracts = [].
Proof.
  split.
  - apply Forall_forall. intros contract _. apply detect_run_calculateSlots.
  - unfold detectCollisions. apply forEach_unchanged. intros contract _.
    now rewrite detect_run_calculateSlots.
Qed.

(* ================================================================= *)
(** ** [detect] on a mapping of the data model

    On a mapping whose sizes and offsets are numbers, [detect_run] is
    [detect]. *)

Lemma run_groups_get (groups : Occupancy) (s : Z) :
  map_get Z.eqb (run_groups groups) s
  = option_map (map run_variable) (map_get Z.eqb groups s).
Proof.
  induction groups as [|[k g] groups IH]; [reflexivity|]. simpl.
  destruct (k =? s); [reflexivity|exact IH].
Qed.

Lemma run_groups_set (groups : Occupancy) (s : Z) (g : list StorageVariable) :
  map_set Z.eqb (run_groups groups) s (map run_variable g)
  = run_groups (map_set Z.eqb groups s g).
Proof.
  induction groups as [|[k g'] groups IH]; [reflexivity|]. simpl.
  destruct (k =? s); simpl; [reflexivity|now rewrite IH].
Qed.

Lemma group_step_run_groups (groups : Occupancy) (v : StorageVariable) :
  group_step_run (run_groups groups) (run_variable v)
  = run_groups (group_step groups v).
Proof.
  unfold group_step_run, group_step, map_has, group_get, occ_get.
  cbn [run_variable rslot]. rewrite run_groups_get.
  destruct (map_get Z.eqb groups (slot v)) as [g|] eqn:E; cbn [option_map negb].
  - rewrite run_groups_get, E. cbn [option_map].
    unfold push. change [run_variable v] with (map run_variable [v]).
    rewrite <- map_app. apply run_groups_set.
  - change (@nil RunVariable) with (map run_variable []).
    rewrite run_groups_set, run_groups_get.
    rewrite (map_get_set_same _ Z.eqb_eq). cbn [option_map].
    unfold push. change [run_variable v] with (map run_variable [v]).
    rewrite <- map_app. apply run_groups_set.
Qed.

Lemma groupVariablesBySlot_run_groups (vars : list StorageVariable) :
  groupVariablesBySlot_run (map run_variable vars)
  = run_groups (groupVariablesBySlot vars).
Proof.
  induction vars as [|v vars IH] using rev_ind; [reflexivity|].
  rewrite map_app. cbn [map].
  change (map run_variable vars ++ [run_variable v])
    with (push (map run_variable vars) (run_variable v)).
  change (vars ++ [v]) with (push vars v).
  rewrite groupVariablesBySlot_run_push, groupVariablesBySlot_push, IH.
  apply group_step_run_groups.
Qed.

Lemma sumSizes_run_variable (g : list StorageVariable) :
  sumSizes_run (map run_variable g) = At (sumSizes g).
Proof.
  unfold sumSizes_run, sumSizes. generalize 0.
  induction g as [|v g IH]; intros a; [reflexivity|]. simpl. apply IH.
Qed.

Lemma analyzeSlotCollision_run_variable (s : Z) (g : list StorageVariable) :
  analyzeSlotCollision_run s (map run_variable g)
  = option_map run_collision (analyzeSlotCollision s g).
Proof.
  unfold analyzeSlotCollision_run, analyzeSlotCollision.
  rewrite length_map, sumSizes_run_variable. cbn [greater].
  destruct (_ <=? 1); [reflexivity|].
  destruct (sumSizes g >? 32); [|reflexivity].
  cbn [negb option_map]. unfold run_collision, calculateSeverity_run, calculateSeverity,
    getRecommendation, estimateGasImpact.
  cbn [id sc_type sc_severity sc_slot sc_variables sc_description impact
       sc_recommendation gasImpact greater].
  rewrite length_map, !map_map. reflexivity.
Qed.

Lemma detect_run_mapping (m : SlotMapping) :
  detect_run (run_mapping m) = map run_collision (detect m).
Proof.
  unfold detect_run, detect. cbn [run_mapping rvariables].
  rewrite groupVariablesBySlot_run_groups. unfold run_groups, forEach.
  generalize (groupVariablesBySlot (variables m)).
  assert (H : forall (groups : Occupancy) acc,
             fold_left
               (fun collisions '(slot, variables) =>
                  if Z.of_nat (List.length variables) >? 1 then
                    match analyzeSlotCollision_run slot variables with
                    | Some collision => push collisions collision
                    | None => collisions
                    end
                  else collisions)
               (map (fun entry => (fst entry, map run_variable (snd entry))) groups)
               (map run_collision acc)
             = map run_collision
                 (fold_left
                    (fun collisions '(slot, variables) =>
                       if Z.of_nat (List.length variables) >? 1 then
                         match analyzeSlotCollision slot variables with
                         | Some collision => push collisions collision
                         | None => collisions
                         end
                       else collisions)
                    groups acc)).
  { induction groups as [|[s g] groups IH]; intros acc; [reflexivity|].
    cbn [map fold_left fst snd]. rewrite length_map, analyzeSlotCollision_run_variable.
    destruct (_ >? 1); [|apply IH].
    destruct (analyzeSlotCollision s g) as [c|]; cbn [option_map]; [|apply IH].
    rewrite <- IH. unfold push. now rewrite map_app. }
  intros groups. apply (H groups []).
Qed.

(* ================================================================= *)
(** ** Layouts of contracts with an inherited type name *)

(** C2, evaluated on the code.  In [inheritedContract] the type of [a] is
    named [valueOf].  [getTypeSize] answers with the function
    [Object.prototype.valueOf], the cursor becomes a string, no comparison
    of the loop holds any more, and [b] and [c], of 32 bytes each, are put
    into slot 0 behind [a]. *)
Theorem calculateSlots_inherited_type :
  map (fun v => (rname v, rslot v, roffset v, rsize v))
      (rvariables (calculateSlots inheritedContract))
    = [ ("a", 0, At 0, Inherited "valueOf");
        ("b", 0, Str (Started 0 "valueOf"), Bytes 32);
        ("c", 0, Str (Extended (Started 0 "valueOf") (Bytes 32)), Bytes 32) ]
  /\ rtotalSlots (calculateSlots inheritedContract) = 1
  /\ rpackedSlots (calculateSlots inheritedContract) = [0].
Proof. repeat split; vm_compute; reflexivity. Qed.

(** C10, evaluated on the code.  In [inheritedSmall] the variable [b] of
    type [bool] follows a variable whose type is named [valueOf]: its size
    is 1 and its [packed] flag is false, since both comparisons that the
    flag is made of read a string. *)
Theorem calculateSlots_inherited_unpacked :
  map (fun v => (rname v, rsize v, rpacked v))
      (rvariables (calculateSlots inheritedSmall))
    = [ ("a", Inherited "valueOf", Some false); ("b", Bytes 1, Some false) ].
Proof. vm_compute. reflexivity. Qed.


(* ================================================================= *)
(** ** The two size tables *)

Lemma read_miss (t : string) :
  ~ In t (map_keys sizeMap) -> inherited t = false ->
  getTypeSize t = Bytes 32 /\ detectorTypeSize t = Bytes 32 /\ isSmallType t = false.
Proof.
  intros Hn Hi. unfold getTypeSize, detectorTypeSize, read.
  assert (H1 : map_get String.eqb sizeMap t = None)
    by (apply (map_get_None _ String.eqb_eq); exact Hn).
  assert (H2 : map_get String.eqb detectorSizeMap t = None).
  { apply (map_get_None _ String.eqb_eq). intros Hin. apply Hn.
    simpl in Hin. simpl. tauto. }
  rewrite H1, H2, Hi. cbn [or_32].
  split; [destruct (includes t "[]"); [|destruct (includes t "mapping")]; reflexivity|].
  split; [reflexivity|].
  unfold isSmallType. destruct (existsb _ _) eqn:E; [|reflexivity].
  apply existsb_exists in E as (k & Hk & E). apply String.eqb_eq in E. subst k.
  exfalso. apply Hn. simpl in Hk. simpl. tauto.
Qed.

(** Settles the comparison of the two tables at one type name. *)
Ltac at_type_name :=
  split;
  [ intros a Ha; vm_compute in Ha;
    first [ discriminate Ha
          | injection Ha as <-; eexists; split; [vm_compute; reflexivity|lia] ]
  | split;
    [ split;
      [ intros Hne; first [ exfalso; apply Hne; vm_compute; reflexivity | auto 6 ]
      | intros [H|[H|H]]; first [ discriminate H | vm_compute; discriminate ] ]
    | split;
      [ intros Hi; vm_compute in Hi;
        first [ discriminate Hi | split; vm_compute; reflexivity ]
      | intros Hs; vm_compute in Hs;
        first [ discriminate Hs
              | eexists; split; [vm_compute; reflexivity|];
                split; [vm_compute; reflexivity|lia] ] ] ] ].

(** The packing detector keeps a size table of its own, read in the same
    way.  Where the calculator answers with a number, so does the detector,
    and with no smaller one; the two answers differ exactly for [uint128],
    [int128] and [bytes16], which the detector's table lacks and so counts
    as a full slot; for an inherited name both answer with the inherited
    member; for the types the detector calls small both answer with the
    same number, at most 20. *)
Theorem detectorTypeSize_getTypeSize (t : string) :
  (forall a, getTypeSize t = Bytes a ->
             exists b, detectorTypeSize t = Bytes b /\ a <= b)
  /\ (detectorTypeSize t <> getTypeSize t
      <-> t = "uint128" \/ t = "int128" \/ t = "bytes16")
  /\ (inherited t = true ->
      getTypeSize t = Inherited t /\ detectorTypeSize t = Inherited t)
  /\ (isSmallType t = true ->
      exists n, detectorTypeSize t = Bytes n /\ getTypeSize t = Bytes n
                /\ 1 <= n <= 20).
Proof.
  destruct (in_dec string_dec t (map_keys sizeMap)) as [Hin|Hn].
  - simpl in Hin.
    repeat (destruct Hin as [<-|Hin]; [at_type_name|]).
    contradiction.
  - destruct (inherited t) eqn:Hi.
    + apply inherited_In in Hi. simpl in Hi.
      repeat (destruct Hi as [<-|Hi]; [at_type_name|]).
      contradiction.
    + destruct (read_miss t Hn Hi) as (-> & -> & ->).
      split; [intros a [= <-]; exists 32; split; [reflexivity|lia]|].
      split; [|split; discriminate].
      split; [intros H; now contradiction H|].
      intros H. exfalso. apply Hn. simpl. decompose [or] H; subst; auto 30.
Qed.

(* ================================================================= *)
(** ** The upgrade analyzer: repeated names, and the score *)

(** C5 fails for a name that a version declares twice.  [oneX] holds [x]
    as [uint8]; [twoX] holds [x] as [uint16] and, declared later, as
    [uint8].  The name [x] is in both versions with different declared
    types, yet [analyze] reports a moved and an added variable and no
    [typeChanged] change: under [x] the name map of [twoX] holds the later
    variable, whose type is the old one. *)
Lemma analyze_changes_repeated_name :
  (exists a b,
      In a (variables oneX) /\ In b (variables twoX)
      /\ vname a = vname b /\ vtype a <> vtype b)
  /\ map ch_type (changes (analyze oneX twoX)) = [ch_moved; ch_added]
  /\ filter (has_type ch_typeChanged) (changes (analyze oneX twoX)) = [].
Proof.
  split; [|split; vm_compute; reflexivity].
  exists (stored "x" "uint8" 0 0 1), (stored "x" "uint16" 0 0 2).
  repeat split; simpl; auto. discriminate.
Qed.

Lemma countSeverity_number_of (s : Severity) (l : list UpgradeChange) :
  countSeverity s l = number_of s l.
Proof.
  unfold countSeverity, number_of. f_equal.
  induction l as [|c l IH]; [reflexivity|]. cbn [filter map count_occ].
  destruct (severity_dec (severity c) s) as [E|E].
  - rewrite E. replace (severity_eqb s s) with true by (now destruct s).
    simpl. now rewrite IH.
  - replace (severity_eqb (severity c) s) with false
      by (destruct (severity c), s; try reflexivity; now contradiction E).
    exact IH.
Qed.

(** C6. The compatibility score of [analyze v1 v2] is 100 less 40 for each
    change of severity critical in its list of changes and less 15 for each
    of severity warning, and not below 0, so it lies between 0 and 100; the
    level is critical when a critical change exists, otherwise unsafe for
    more than two warnings, otherwise caution for a warning, otherwise
    safe.  The critical changes are as many as the collisions, the moved
    variables and the [typeChanged] changes together, the warnings as many
    as the removed variables. *)
Theorem analyze_compatibility (v1 v2 : SlotMapping) :
  let result := analyze v1 v2 in
  let report := compare v1 v2 in
  let critical := number_of sev_critical (changes result) in
  let warnings := number_of sev_warning (changes result) in
  score (compatibility result) = Z.max 0 (100 - 40 * critical - 15 * warnings)
  /\ 0 <= score (compatibility result) <= 100
  /\ level (compatibility result) =
       (if 0 <? critical then lvl_critical
        else if 2 <? warnings then lvl_unsafe
        else if 0 <? warnings then lvl_caution
        else lvl_safe)
  /\ critical
     = Z.of_nat (List.length (collisions report) + List.length (moved report)
                 + List.length (filter (has_type ch_typeChanged) (changes result)))
  /\ warnings = Z.of_nat (List.length (removed report)).
Proof.
  cbv zeta. unfold analyze. cbn [changes compatibility].
  destruct (countSeverity_identifyChanges v1 v2 (compare v1 v2)) as [Hc Hw].
  cbv zeta in Hc.
  set (all := identifyChanges v1 v2 (compare v1 v2)) in *.
  rewrite <- !countSeverity_number_of.
  pose proof (countSeverity_nonneg sev_critical all) as Hc0.
  pose proof (countSeverity_nonneg sev_warning all) as Hw0.
  split; [|split; [|split; [|split; [exact Hc|exact Hw]]]];
    unfold assessCompatibility; rewrite !Z.gtb_ltb;
    destruct (Z.ltb_spec 0 (countSeverity sev_critical all));
    [|destruct (Z.ltb_spec 2 (countSeverity sev_warning all));
      [|destruct (Z.ltb_spec 0 (countSeverity sev_warning all))]
     |
     |destruct (Z.ltb_spec 2 (countSeverity sev_warning all));
      [|destruct (Z.ltb_spec 0 (countSeverity sev_warning all))]
     |
     |destruct (Z.ltb_spec 2 (countSeverity sev_warning all));
      [|destruct (Z.ltb_spec 0 (countSeverity sev_warning all))]];
    cbn [score level]; try reflexivity; lia.
Qed.
